(** * HysAnalysis: the numerical core of the hysteresis analyser

    A shallow embedding of the analysis functions of [HysAnalysis.py]
    (class [HysteresisAnalyzer]) and the properties of its specification.

    Numbers.  The program computes on IEEE doubles held in numpy arrays.
    They are modelled by exact rationals [Q]: every comparison, sum,
    product and quotient of the source is the same operation on [Q],
    without rounding, infinities or NaN.  Equality of two floats
    ([xi not in seen_x], dictionary keys) is [Qeq_bool].

    Arrays.  A numpy array is a [list Q].  Reading [a[i]] outside the
    array raises [IndexError] in the source; here it is [None], and the
    error is threaded through the computation with the [option] monad,
    as is [ValueError] of [np.max] and [np.argmax] on an empty array. *)

From Stdlib Require Import List Bool Arith ZArith QArith Qabs Qround Lia Lqa.
From Stdlib Require Import Sorted Permutation.
From Stdlib Require String.
Import ListNotations.

Local Open Scope Q_scope.

(* ------------------------------------------------------------------ *)
(** ** Errors *)

Definition bind {A B : Type} (m : option A) (k : A -> option B) : option B :=
  match m with
  | Some a => k a
  | None => None
  end.

Notation "x <- m ;; k" := (bind m (fun x => k))
  (at level 61, m at next level, right associativity).

(** [a[idx]] for [idx] a list of indices (numpy fancy indexing). *)
Fixpoint take_indices {A : Type} (a : list A) (idx : list nat) : option (list A) :=
  match idx with
  | [] => Some []
  | i :: rest =>
      v <- nth_error a i ;;
      vs <- take_indices a rest ;;
      Some (v :: vs)
  end.

(* ------------------------------------------------------------------ *)
(** ** Numbers *)

(** [a < b] and [a > b] as the source evaluates them. *)
Definition Qltb (a b : Q) : bool := negb (Qle_bool b a).
Definition Qgtb (a b : Q) : bool := Qltb b a.

(** Python's [max(a, b)]: [b] only when it is strictly larger. *)
Definition py_max (a b : Q) : Q := if Qltb a b then b else a.

(** [np.max(a)]; [ValueError] on an empty array. *)
Definition np_max (a : list Q) : option Q :=
  match a with
  | [] => None
  | x :: rest => Some (fold_left py_max rest x)
  end.

(** [np.min(a)]. *)
Definition py_min (a b : Q) : Q := if Qltb b a then b else a.

Definition np_min (a : list Q) : option Q :=
  match a with
  | [] => None
  | x :: rest => Some (fold_left py_min rest x)
  end.

(** [np.abs(a)]. *)
Definition np_abs (a : list Q) : list Q := map Qabs a.

(* ------------------------------------------------------------------ *)
(** ** Loop area ([calculate_loop_area]) *)

(** One pass of [area += 0.5 * (force[i] + force[i+1]) *
    (displacement[i+1] - displacement[i])], operands read in the order
    the expression evaluates them. *)
Fixpoint loop_area_from (displacement force : list Q) (idx : list nat) (area : Q)
  : option Q :=
  match idx with
  | [] => Some area
  | i :: rest =>
      fi <- nth_error force i ;;
      fi1 <- nth_error force (S i) ;;
      di1 <- nth_error displacement (S i) ;;
      di <- nth_error displacement i ;;
      loop_area_from displacement force rest
        (area + (1 # 2) * (fi + fi1) * (di1 - di))
  end.

Definition calculate_loop_area (displacement force : list Q) : option Q :=
  area <- loop_area_from displacement force (seq 0 (length displacement - 1)) 0 ;;
  Some (Qabs area).

(* ------------------------------------------------------------------ *)
(** ** First-loop filter ([filter_first_loops]) *)

(** [a[i] > a[i-1] and a[i] > a[i+1]] for [1 <= i < len(a) - 1]; the
    three reads are inside the array by the bounds of the loop. *)
Definition strict_local_max (a : list Q) (i : nat) : bool :=
  Qgtb (nth i a 0) (nth (i - 1) a 0) && Qgtb (nth i a 0) (nth (i + 1) a 0).

Definition strict_local_min (a : list Q) (i : nat) : bool :=
  Qltb (nth i a 0) (nth (i - 1) a 0) && Qltb (nth i a 0) (nth (i + 1) a 0).

(** [range(1, len(a) - 1)]. *)
Definition inner_range (a : list Q) : list nat := seq 1 (length a - 2).

Definition tolerance : Q := 8 # 100.

Definition peaks_indices_of (displacement : list Q) : list nat :=
  filter (strict_local_max (np_abs displacement)) (inner_range displacement).

Definition mem (j : nat) (s : list nat) : bool := existsb (Nat.eqb j) s.

(** The inner loop over [j > i]: a later peak not yet used joins the
    group when its value is within [tolerance * peak_val] of [peak_val]. *)
Definition group_step (peaks_indices : list nat) (peak_values : list Q)
    (peak_val : Q) (st : list nat * list nat) (j : nat) : list nat * list nat :=
  let '(group, used) := st in
  if mem j used then (group, used)
  else if Qle_bool (Qabs (nth j peak_values 0 - peak_val)) (tolerance * peak_val)
       then (group ++ [nth j peaks_indices 0%nat], j :: used)
       else (group, used).

(** The outer loop over [i]: state is [(groups, used)]. *)
Definition groups_step (peaks_indices : list nat) (peak_values : list Q)
    (st : list (list nat) * list nat) (i : nat) : list (list nat) * list nat :=
  let '(groups, used) := st in
  if mem i used then (groups, used)
  else
    let '(group, used') :=
      fold_left (group_step peaks_indices peak_values (nth i peak_values 0))
        (seq (S i) (length peaks_indices - S i))
        ([nth i peaks_indices 0%nat], used) in
    (groups ++ [group], used').

Definition peak_groups (displacement : list Q) : list (list nat) :=
  let peaks_indices := peaks_indices_of displacement in
  let peak_values := map (fun i => nth i (np_abs displacement) 0) peaks_indices in
  fst (fold_left (groups_step peaks_indices peak_values)
         (seq 0 (length peaks_indices)) ([], [])).

(** [min(group)] of a non-empty group. *)
Definition group_min (group : list nat) : nat :=
  match group with
  | [] => 0%nat
  | x :: rest => fold_left Nat.min rest x
  end.

(** A set of integers as a duplicate-free list; [keep_indices.update]. *)
Definition set_update (s : list nat) (items : list nat) : list nat :=
  fold_left (fun acc k => if mem k acc then acc else k :: acc) items s.

Fixpoint insert_sorted (k : nat) (l : list nat) : list nat :=
  match l with
  | [] => [k]
  | x :: rest => if (k <=? x)%nat then k :: l else x :: insert_sorted k rest
  end.

(** [sorted(s)] for a list of integers. *)
Definition sorted_nat (s : list nat) : list nat := fold_right insert_sorted [] s.

(** [range(start, end)]. *)
Definition range (start stop : nat) : list nat := seq start (stop - start).

(** The window kept around a group: [range(max(0, first_peak - 50),
    min(len(displacement), first_peak + 50))].  Subtraction on [nat]
    stops at 0, which is the [max(0, _)] of the source. *)
Definition window (len : nat) (group : list nat) : list nat :=
  let first_peak := group_min group in
  let start := Nat.max 0 (first_peak - 50) in
  let stop := Nat.min len (first_peak + 50) in
  range start stop.

Definition keep_indices_of (len : nat) (groups : list (list nat)) : list nat :=
  fold_left (fun s group =>
               match group with
               | [] => s
               | _ => set_update s (window len group)
               end) groups [].

Definition keep_list_of (displacement : list Q) : list nat :=
  sorted_nat (keep_indices_of (length displacement) (peak_groups displacement)).

Definition filter_first_loops (displacement force : list Q)
  : option (list Q * list Q) :=
  match peaks_indices_of displacement with
  | [] => Some (displacement, force)
  | _ =>
      match keep_indices_of (length displacement) (peak_groups displacement) with
      | [] => Some (displacement, force)
      | _ =>
          let keep_list := keep_list_of displacement in
          d <- take_indices displacement keep_list ;;
          f <- take_indices force keep_list ;;
          Some (d, f)
      end
  end.

(* ------------------------------------------------------------------ *)
(** ** Loop segmentation ([extract_hysteresis_loops]) *)

Inductive peak_type : Type := positive | negative.

(** The dictionary [{'index', 'type', 'disp', 'force'}] of a peak. *)
Record peak : Type := mk_peak {
  p_index : nat;
  p_type : peak_type;
  p_disp : Q;
  p_force : Q
}.

(** Direction-signed peak detection over [range(1, len(displacement) - 1)]. *)
Fixpoint loop_peaks_from (displacement force : list Q) (idx : list nat)
  : option (list peak) :=
  match idx with
  | [] => Some []
  | i :: rest =>
      let di := nth i displacement 0 in
      if strict_local_max displacement i then
        if Qgtb di 0 then
          fi <- nth_error force i ;;
          peaks <- loop_peaks_from displacement force rest ;;
          Some (mk_peak i positive di fi :: peaks)
        else loop_peaks_from displacement force rest
      else if strict_local_min displacement i then
        if Qltb di 0 then
          fi <- nth_error force i ;;
          peaks <- loop_peaks_from displacement force rest ;;
          Some (mk_peak i negative di fi :: peaks)
        else loop_peaks_from displacement force rest
      else loop_peaks_from displacement force rest
  end.

(** The dictionary of a hysteresis loop. *)
Record hysteresis_loop : Type := mk_loop {
  l_displacement : list Q;
  l_force : list Q;
  l_peak_disp : Q;
  l_peak_force : Q;
  l_area : Q;
  l_type : peak_type
}.

(** The slice [a[start:stop]]; it never raises. *)
Definition slice (a : list Q) (start stop : nat) : list Q :=
  firstn (stop - start) (skipn start a).

(** [for i in range(len(peaks) - 1)]: one loop between [peaks[i]] and
    [peaks[i+1]], kept when it has more than two samples. *)
Fixpoint loops_between (displacement force : list Q) (peaks : list peak)
  : option (list hysteresis_loop) :=
  match peaks with
  | p :: ((q :: _) as rest) =>
      let start_idx := p_index p in
      let end_idx := p_index q in
      let loop_disp := slice displacement start_idx (end_idx + 1) in
      let loop_force := slice force start_idx (end_idx + 1) in
      if (2 <? length loop_disp)%nat then
        area <- calculate_loop_area loop_disp loop_force ;;
        loops <- loops_between displacement force rest ;;
        Some (mk_loop loop_disp loop_force (p_disp p) (p_force p) area (p_type p)
                :: loops)
      else loops_between displacement force rest
  | _ => Some []
  end.

Definition extract_hysteresis_loops (filter_first_loop : bool)
    (displacement force : list Q) : option (list hysteresis_loop) :=
  series <- (if filter_first_loop
             then filter_first_loops displacement force
             else Some (displacement, force)) ;;
  let '(displacement, force) := series in
  peaks <- loop_peaks_from displacement force (inner_range displacement) ;;
  loops_between displacement force peaks.

(* ------------------------------------------------------------------ *)
(** ** Skeleton extraction *)

(** One branch [{'disp': [...], 'force': [...]}] of the skeleton curve. *)
Record branch : Type := mk_branch {
  br_disp : list Q;
  br_force : list Q
}.

(** The dictionary [{'positive': ..., 'negative': ...}]. *)
Record skeleton_curve : Type := mk_skeleton {
  sk_positive : branch;
  sk_negative : branch
}.

Definition branch_append (b : branch) (d f : Q) : branch :=
  mk_branch (br_disp b ++ [d]) (br_force b ++ [f]).

(** *** Outer envelope ([extract_outer_envelope]) *)

(** The positive walk.  [abs(force[i])] is read only when the two
    displacement tests passed ([and] short-circuits). *)
Fixpoint pos_envelope_from (displacement force : list Q)
    (disp_threshold force_threshold : Q) (idx : list nat)
    (max_disp : Q) (pos_envelope : branch) : option branch :=
  match idx with
  | [] => Some pos_envelope
  | i :: rest =>
      let di := nth i displacement 0 in
      if Qgtb di disp_threshold
         && Qgtb di (max_disp + disp_threshold * (1 # 10)) then
        fi <- nth_error force i ;;
        if Qgtb (Qabs fi) force_threshold then
          pos_envelope_from displacement force disp_threshold force_threshold
            rest di (branch_append pos_envelope di fi)
        else
          pos_envelope_from displacement force disp_threshold force_threshold
            rest max_disp pos_envelope
      else
        pos_envelope_from displacement force disp_threshold force_threshold
          rest max_disp pos_envelope
  end.

(** The negative walk. *)
Fixpoint neg_envelope_from (displacement force : list Q)
    (disp_threshold force_threshold : Q) (idx : list nat)
    (min_disp : Q) (neg_envelope : branch) : option branch :=
  match idx with
  | [] => Some neg_envelope
  | i :: rest =>
      let di := nth i displacement 0 in
      if Qltb di (- disp_threshold)
         && Qltb di (min_disp - disp_threshold * (1 # 10)) then
        fi <- nth_error force i ;;
        if Qgtb (Qabs fi) force_threshold then
          neg_envelope_from displacement force disp_threshold force_threshold
            rest di (branch_append neg_envelope di fi)
        else
          neg_envelope_from displacement force disp_threshold force_threshold
            rest min_disp neg_envelope
      else
        neg_envelope_from displacement force disp_threshold force_threshold
          rest min_disp neg_envelope
  end.

Definition extract_outer_envelope (displacement force : list Q)
  : option skeleton_curve :=
  max_abs_disp <- np_max (np_abs displacement) ;;
  let disp_threshold := py_max (1 # 100) (max_abs_disp * (5 # 1000)) in
  max_abs_force <- np_max (np_abs force) ;;
  let force_threshold := py_max (1 # 100) (max_abs_force * (1 # 100)) in
  let idx := seq 0 (length displacement) in
  pos_envelope <- pos_envelope_from displacement force disp_threshold
                    force_threshold idx 0 (mk_branch [0] [0]) ;;
  neg_envelope <- neg_envelope_from displacement force disp_threshold
                    force_threshold idx 0 (mk_branch [0] [0]) ;;
  Some (mk_skeleton pos_envelope neg_envelope).

(** *** Peak points ([extract_peak_points]) *)

(** All peaks beyond the dead-band. *)
Fixpoint all_peaks_from (displacement force : list Q) (disp_threshold : Q)
    (idx : list nat) : option (list peak) :=
  match idx with
  | [] => Some []
  | i :: rest =>
      let di := nth i displacement 0 in
      if strict_local_max displacement i && Qgtb di disp_threshold then
        fi <- nth_error force i ;;
        peaks <- all_peaks_from displacement force disp_threshold rest ;;
        Some (mk_peak i positive di fi :: peaks)
      else if strict_local_min displacement i && Qltb di (- disp_threshold) then
        fi <- nth_error force i ;;
        peaks <- all_peaks_from displacement force disp_threshold rest ;;
        Some (mk_peak i negative di fi :: peaks)
      else all_peaks_from displacement force disp_threshold rest
  end.

Definition is_positive (p : peak) : bool :=
  match p_type p with positive => true | negative => false end.

Definition is_negative (p : peak) : bool := negb (is_positive p).

(** The index of the first negative peak, when there is one. *)
Definition first_neg_peak_idx (all_peaks : list peak) : option nat :=
  option_map p_index (find is_negative all_peaks).

(** The index of the second positive peak, when there is one. *)
Definition second_pos_peak_idx (all_peaks : list peak) : option nat :=
  option_map p_index (nth_error (filter is_positive all_peaks) 1).

(** The zero-crossing scan over [range(start_search, end_search)]; the
    result is [Some None] when no crossing is found. *)
Fixpoint crossing_from (displacement force : list Q) (idx : list nat)
  : option (option Q) :=
  match idx with
  | [] => Some None
  | j :: rest =>
      dj <- nth_error displacement j ;;
      if Qle_bool dj 0 then
        dj1 <- nth_error displacement (j + 1) ;;
        if Qgtb dj1 0 then
          if negb (Qeq_bool dj1 dj) then
            let t := - dj / (dj1 - dj) in
            fj <- nth_error force j ;;
            fj1 <- nth_error force (j + 1) ;;
            Some (Some (fj + t * (fj1 - fj)))
          else crossing_from displacement force rest
        else crossing_from displacement force rest
      else crossing_from displacement force rest
  end.

Definition common_y_intercept_of (displacement force : list Q)
    (all_peaks : list peak) : option (option Q) :=
  match first_neg_peak_idx all_peaks, second_pos_peak_idx all_peaks with
  | Some start_search, Some end_search =>
      crossing_from displacement force (range start_search end_search)
  | _, _ => Some None
  end.

(** [sorted(l, key=key)]: the stable sort; an element goes before the
    first later element whose key is not smaller. *)
Fixpoint insert_by {A : Type} (key : A -> Q) (p : A) (l : list A) : list A :=
  match l with
  | [] => [p]
  | x :: rest =>
      if Qle_bool (key p) (key x) then p :: l else x :: insert_by key p rest
  end.

Definition sorted_by {A : Type} (key : A -> Q) (l : list A) : list A :=
  fold_right (insert_by key) [] l.

(** The positive linking loop: state is [(max_pos, peaks_pos)]. *)
Definition link_pos (disp_threshold : Q) (st : Q * branch) (p : peak)
  : Q * branch :=
  let '(max_pos, peaks_pos) := st in
  if Qgtb (p_disp p) (max_pos + disp_threshold * (1 # 10))
  then (p_disp p, branch_append peaks_pos (p_disp p) (p_force p))
  else (max_pos, peaks_pos).

(** The negative linking loop: state is [(max_neg, peaks_neg)]. *)
Definition link_neg (disp_threshold : Q) (st : Q * branch) (p : peak)
  : Q * branch :=
  let '(max_neg, peaks_neg) := st in
  if Qgtb (Qabs (p_disp p)) (Qabs max_neg + disp_threshold * (1 # 10))
  then (p_disp p, branch_append peaks_neg (p_disp p) (p_force p))
  else (max_neg, peaks_neg).

Definition extract_peak_points (displacement force : list Q)
  : option skeleton_curve :=
  max_abs_disp <- np_max (np_abs displacement) ;;
  let disp_threshold := py_max (1 # 100) (max_abs_disp * (1 # 100)) in
  all_peaks <- all_peaks_from displacement force disp_threshold
                 (inner_range displacement) ;;
  common_y_intercept <- common_y_intercept_of displacement force all_peaks ;;
  let origin :=
    match common_y_intercept with
    | Some y_force => mk_branch [0] [y_force]
    | None => mk_branch [0] [0]
    end in
  let pos_peaks_sorted := sorted_by p_disp (filter is_positive all_peaks) in
  let peaks_pos := snd (fold_left (link_pos disp_threshold) pos_peaks_sorted
                          (0, origin)) in
  let neg_peaks_sorted :=
    sorted_by (fun x => Qabs (p_disp x)) (filter is_negative all_peaks) in
  let peaks_neg := snd (fold_left (link_neg disp_threshold) neg_peaks_sorted
                          (0, origin)) in
  Some (mk_skeleton peaks_pos peaks_neg).

Inductive skeleton_method : Type := outer_envelope | peak_points.

Definition extract_skeleton_curve (method : skeleton_method)
    (displacement force : list Q) : option skeleton_curve :=
  match method with
  | outer_envelope => extract_outer_envelope displacement force
  | peak_points => extract_peak_points displacement force
  end.

(* ------------------------------------------------------------------ *)
(** ** Preprocessing ([preprocess_data]) *)

(** [is_near_zero(value, threshold)]. *)
Definition is_near_zero (value threshold : Q) : bool :=
  Qltb (Qabs value) threshold.

Definition snap (threshold value : Q) : Q :=
  if is_near_zero value threshold then 0 else value.

(** The writes [force_cleaned[i] = 0.0] for [i] in [range(n)]: the first
    [n] entries are snapped, and reading [force[i]] beyond the array
    raises. *)
Fixpoint snap_prefix (threshold : Q) (n : nat) (a : list Q) : option (list Q) :=
  match n with
  | O => Some a
  | S n' =>
      match a with
      | [] => None
      | x :: rest =>
          r <- snap_prefix threshold n' rest ;;
          Some (snap threshold x :: r)
      end
  end.

(** The dictionary [disp_to_max_force_idx], in insertion order. *)
Definition disp_dict : Type := list (Q * nat).

(** [del d[key]]. *)
Definition dict_del (key : Q) (d : disp_dict) : disp_dict :=
  filter (fun e => negb (Qeq_bool (fst e) key)) d.

(** [d[key] = value]: an existing key keeps its place, a new one goes
    last. *)
Fixpoint dict_set (key : Q) (value : nat) (d : disp_dict) : disp_dict :=
  match d with
  | [] => [(key, value)]
  | (k, v) :: rest =>
      if Qeq_bool k key then (k, value) :: rest
      else (k, v) :: dict_set key value rest
  end.

(** The first stored key within [tol] of [current_disp], with its index. *)
Definition find_similar (tol current_disp : Q) (d : disp_dict) : option (Q * nat) :=
  find (fun e => Qle_bool (Qabs (current_disp - fst e)) tol) d.

(** One iteration of the deduplication loop at index [i]. *)
Definition dedup_step (displacement_cleaned force_cleaned : list Q) (tol : Q)
    (d : disp_dict) (i : nat) : option disp_dict :=
  current_disp <- nth_error displacement_cleaned i ;;
  fi <- nth_error force_cleaned i ;;
  let current_force_abs := Qabs fi in
  match find_similar tol current_disp d with
  | Some (stored_disp, stored_idx) =>
      fs <- nth_error force_cleaned stored_idx ;;
      let stored_force_abs := Qabs fs in
      if Qgtb current_force_abs stored_force_abs
      then Some (dict_set current_disp i (dict_del stored_disp d))
      else Some d
  | None => Some (dict_set current_disp i d)
  end.

Fixpoint dedup_from (displacement_cleaned force_cleaned : list Q) (tol : Q)
    (idx : list nat) (d : disp_dict) : option disp_dict :=
  match idx with
  | [] => Some d
  | i :: rest =>
      d' <- dedup_step displacement_cleaned force_cleaned tol d i ;;
      dedup_from displacement_cleaned force_cleaned tol rest d'
  end.

(** [sorted(disp_to_max_force_idx.values())]. *)
Definition unique_indices_of (displacement_cleaned force_cleaned : list Q)
    (tol : Q) : option (list nat) :=
  d <- dedup_from displacement_cleaned force_cleaned tol
         (seq 0 (length displacement_cleaned)) [] ;;
  Some (sorted_nat (map snd d)).

(** The scan for the start of loading: the first index that exceeds
    twice a threshold, [0] when there is none. *)
Fixpoint loading_start_from (displacement_cleaned force_cleaned : list Q)
    (disp_threshold force_threshold : Q) (idx : list nat) : option nat :=
  match idx with
  | [] => Some 0%nat
  | i :: rest =>
      di <- nth_error displacement_cleaned i ;;
      if Qgtb (Qabs di) (disp_threshold * 2) then Some i
      else
        fi <- nth_error force_cleaned i ;;
        if Qgtb (Qabs fi) (force_threshold * 2) then Some i
        else loading_start_from displacement_cleaned force_cleaned
               disp_threshold force_threshold rest
  end.

(** The two thresholds of a series. *)
Definition disp_threshold_of (displacement : list Q) : option Q :=
  hi <- np_max (np_abs displacement) ;;
  lo <- np_min (np_abs displacement) ;;
  let disp_range := hi - lo in
  Some (py_max (1 # 1000) (disp_range * (1 # 1000))).

Definition force_threshold_of (force : list Q) : option Q :=
  hi <- np_max (np_abs force) ;;
  lo <- np_min (np_abs force) ;;
  let force_range := hi - lo in
  Some (py_max (1 # 100) (force_range * (1 # 1000))).

(** The deduplicated series: lines 1532 to 1565 of the source. *)
Definition dedup_series (displacement force : list Q)
    (disp_threshold force_threshold : Q) : option (list Q * list Q) :=
  let displacement_cleaned := map (snap disp_threshold) displacement in
  force_cleaned <- snap_prefix force_threshold (length displacement) force ;;
  let tol := disp_threshold * (1 # 2) in
  unique_indices <- unique_indices_of displacement_cleaned force_cleaned tol ;;
  d <- take_indices displacement_cleaned unique_indices ;;
  f <- take_indices force_cleaned unique_indices ;;
  Some (d, f).

(** The re-zero step: lines 1567 to 1578 of the source. *)
Definition rezero (displacement_cleaned force_cleaned : list Q)
    (disp_threshold force_threshold : Q) : option (list Q * list Q) :=
  loading_start_idx <-
    loading_start_from displacement_cleaned force_cleaned
      disp_threshold force_threshold (seq 0 (length displacement_cleaned)) ;;
  if (0 <? loading_start_idx)%nat then
    offset <- nth_error displacement_cleaned loading_start_idx ;;
    Some (map (fun x => x - offset) displacement_cleaned, force_cleaned)
  else Some (displacement_cleaned, force_cleaned).

Definition preprocess_data (displacement force : list Q)
  : option (list Q * list Q) :=
  disp_threshold <- disp_threshold_of displacement ;;
  force_threshold <- force_threshold_of force ;;
  series <- dedup_series displacement force disp_threshold force_threshold ;;
  rezero (fst series) (snd series) disp_threshold force_threshold.

(* ------------------------------------------------------------------ *)
(** ** Ductility *)

(** [np.argmax(a)]: the first index of the largest entry. *)
Fixpoint argmax_from (a : list Q) (i best_i : nat) (best : Q) : nat :=
  match a with
  | [] => best_i
  | x :: rest =>
      if Qgtb x best then argmax_from rest (S i) i x
      else argmax_from rest (S i) best_i best
  end.

Definition np_argmax (a : list Q) : option nat :=
  match a with
  | [] => None
  | x :: rest => Some (argmax_from rest 1 0 x)
  end.

(** [np.argmin(a)]: the first index of the smallest entry. *)
Fixpoint argmin_from (a : list Q) (i best_i : nat) (best : Q) : nat :=
  match a with
  | [] => best_i
  | x :: rest =>
      if Qltb x best then argmin_from rest (S i) i x
      else argmin_from rest (S i) best_i best
  end.

Definition np_argmin (a : list Q) : option nat :=
  match a with
  | [] => None
  | x :: rest => Some (argmin_from rest 1 0 x)
  end.

(** A quotient [a / b] of two computed values; a zero divisor is an
    error of the model. *)
Definition div (a b : Q) : option Q :=
  if Qeq_bool b 0 then None else Some (a / b).

(** The closing expression of every method:
    [max_disp / yield_disp if yield_disp > 0 else 1.0]. *)
Definition ductility_ratio (max_disp yield_disp : Q) : option Q :=
  if Qgtb yield_disp 0 then div max_disp yield_disp else Some 1.

(** The two displacements a method computes before its closing
    expression, [(max_disp, yield_disp)]; [None] when the method
    returns [1.0] before it has them. *)
Definition points : Type := option (Q * Q).

Definition ratio_of (pts : points) : option Q :=
  match pts with
  | Some (max_disp, yield_disp) => ductility_ratio max_disp yield_disp
  | None => Some 1
  end.

Definition micro : Q := 1 # 1000000.

(** *** Geometric method *)

Definition geometric_points (disp force : list Q) : option points :=
  let abs_force := np_abs force in
  max_idx <- np_argmax abs_force ;;
  max_force <- nth_error abs_force max_idx ;;
  dm <- nth_error disp max_idx ;;
  let max_disp := Qabs dm in
  let yield_force := (75 # 100) * max_force in
  yield_idx <- np_argmin
                 (np_abs (map (fun a => a - yield_force)
                            (slice abs_force 0 (max_idx + 1)))) ;;
  dy <- nth_error disp yield_idx ;;
  Some (Some (max_disp, Qabs dy)).

Definition calc_geometric_ductility (disp force : list Q) : option Q :=
  pts <- geometric_points disp force ;; ratio_of pts.

(** *** Energy method *)

(** [abs(a[np.argmax(np.abs(a))])]. *)
Definition abs_at_argmax_abs (a : list Q) : option Q :=
  i <- np_argmax (np_abs a) ;;
  v <- nth_error a i ;;
  Some (Qabs v).

Definition energy_points (disp force : list Q) : option points :=
  total_energy <- calculate_loop_area disp force ;;
  max_disp <- abs_at_argmax_abs disp ;;
  max_force <- abs_at_argmax_abs force ;;
  if Qgtb max_force 0 then
    yield_disp <- div (2 * total_energy) max_force ;;
    Some (Some (max_disp, yield_disp))
  else Some None.

Definition calc_energy_ductility (disp force : list Q) : option Q :=
  pts <- energy_points disp force ;; ratio_of pts.

(** *** Park method *)

(** The loop for [K0] over [range(1, min(5, len(disp)))]. *)
Fixpoint K0_from (disp force : list Q) (idx : list nat) (K0 : Q) : option Q :=
  match idx with
  | [] => Some K0
  | i :: rest =>
      di <- nth_error disp i ;;
      if Qgtb (Qabs di) micro then
        fi <- nth_error force i ;;
        q <- div fi di ;;
        let K_temp := Qabs q in
        if Qgtb K_temp K0 then K0_from disp force rest K_temp
        else K0_from disp force rest K0
      else K0_from disp force rest K0
  end.

Definition initial_stiffness (disp force : list Q) : option Q :=
  K0_from disp force (range 1 (Nat.min 5 (length disp))) 0.

(** The yield scan over [range(2, len(disp))]: it returns at the first
    index whose secant stiffness is at most [Ky]. *)
Fixpoint park_scan (disp force : list Q) (Ky : Q) (idx : list nat)
  : option points :=
  match idx with
  | [] => Some None
  | i :: rest =>
      di <- nth_error disp i ;;
      if Qgtb (Qabs di) micro then
        fi <- nth_error force i ;;
        q <- div fi di ;;
        let K_current := Qabs q in
        if Qle_bool K_current Ky then
          let yield_disp := Qabs di in
          dl <- nth_error disp (length disp - 1) ;;
          Some (Some (Qabs dl, yield_disp))
        else park_scan disp force Ky rest
      else park_scan disp force Ky rest
  end.

Definition park_points (disp force : list Q) : option points :=
  if (length disp <? 3)%nat then Some None
  else
    K0 <- initial_stiffness disp force ;;
    if Qeq_bool K0 0 then Some None
    else
      let Ky := K0 / 3 in
      park_scan disp force Ky (range 2 (length disp)).

Definition calc_park_ductility (disp force : list Q) : option Q :=
  pts <- park_points disp force ;; ratio_of pts.

(** *** Farthest-point method *)

(** The distance loop over [range(1, max_idx)].  The source compares
    [dist = abs(max_force * disp[i] - max_disp * force[i]) /
    np.sqrt(max_force**2 + max_disp**2)] with the running [max_dist];
    both are non-negative, so the comparison is decided by their
    squares, and the state keeps [max_dist ** 2].  Only [yield_idx]
    leaves the loop. *)
Fixpoint farthest_from (disp force : list Q) (max_disp max_force : Q)
    (idx : list nat) (max_dist_sq : Q) (yield_idx : nat) : option nat :=
  match idx with
  | [] => Some yield_idx
  | i :: rest =>
      di <- nth_error disp i ;;
      fi <- nth_error force i ;;
      let num := Qabs (max_force * di - max_disp * fi) in
      dist_sq <- div (num * num) (max_force * max_force + max_disp * max_disp) ;;
      if Qgtb dist_sq max_dist_sq
      then farthest_from disp force max_disp max_force rest dist_sq i
      else farthest_from disp force max_disp max_force rest max_dist_sq yield_idx
  end.

Definition farthest_points (disp force : list Q) : option points :=
  max_idx <- np_argmax (np_abs disp) ;;
  max_disp <- nth_error disp max_idx ;;
  max_force <- nth_error force max_idx ;;
  if Qltb (Qabs max_disp) micro then Some None
  else
    yield_idx <- farthest_from disp force max_disp max_force
                   (range 1 max_idx) 0 0 ;;
    dy <- nth_error disp yield_idx ;;
    Some (Some (Qabs max_disp, Qabs dy)).

Definition calc_farthest_ductility (disp force : list Q) : option Q :=
  pts <- farthest_points disp force ;; ratio_of pts.

(** *** ASCE method *)

Definition asce_points (disp force : list Q) : option points :=
  let abs_force := np_abs force in
  max_force <- np_max abs_force ;;
  let yield_force := (6 # 10) * max_force in
  yield_idx <- np_argmin (np_abs (map (fun a => a - yield_force) abs_force)) ;;
  dy <- nth_error disp yield_idx ;;
  max_disp <- abs_at_argmax_abs disp ;;
  Some (Some (max_disp, Qabs dy)).

Definition calc_asce_ductility (disp force : list Q) : option Q :=
  pts <- asce_points disp force ;; ratio_of pts.

(** *** EEEP method *)

Definition eeep_points (disp force : list Q) : option points :=
  area <- calculate_loop_area disp force ;;
  max_force <- abs_at_argmax_abs force ;;
  max_disp <- abs_at_argmax_abs disp ;;
  if Qgtb max_force 0 then
    yield_disp <- div area max_force ;;
    Some (Some (max_disp, yield_disp))
  else Some None.

Definition calc_eeep_ductility (disp force : list Q) : option Q :=
  pts <- eeep_points disp force ;; ratio_of pts.

(** *** Elastic-yield method *)

Definition elastic_yield_points (disp force : list Q) : option points :=
  K0 <- initial_stiffness disp force ;;
  if Qeq_bool K0 0 then Some None
  else
    max_force <- abs_at_argmax_abs force ;;
    yield_disp <- (if Qgtb K0 0 then div max_force K0 else Some 0) ;;
    max_disp <- abs_at_argmax_abs disp ;;
    Some (Some (max_disp, yield_disp)).

Definition calc_elastic_yield_ductility (disp force : list Q) : option Q :=
  pts <- elastic_yield_points disp force ;; ratio_of pts.

(** *** Dispatch ([calculate_ductility]) *)

Inductive ductility_method : Type :=
  | geometric | energy | park | farthest | asce | eeep | elastic_yield.

Definition ductility_points (method : ductility_method) (disp force : list Q)
  : option points :=
  match method with
  | geometric => geometric_points disp force
  | energy => energy_points disp force
  | park => park_points disp force
  | farthest => farthest_points disp force
  | asce => asce_points disp force
  | eeep => eeep_points disp force
  | elastic_yield => elastic_yield_points disp force
  end.

Definition calc_ductility (method : ductility_method) (disp force : list Q)
  : option Q :=
  match method with
  | geometric => calc_geometric_ductility disp force
  | energy => calc_energy_ductility disp force
  | park => calc_park_ductility disp force
  | farthest => calc_farthest_ductility disp force
  | asce => calc_asce_ductility disp force
  | eeep => calc_eeep_ductility disp force
  | elastic_yield => calc_elastic_yield_ductility disp force
  end.

(** One curve of [calculate_ductility]: a curve with fewer than three
    points is skipped ([None] inside), the others get their coefficient. *)
Definition calculate_ductility (method : ductility_method) (curve : branch)
  : option (option Q) :=
  if (length (br_disp curve) <? 3)%nat then Some None
  else
    ductility <- calc_ductility method (br_disp curve) (br_force curve) ;;
    Some (Some ductility).

(* ------------------------------------------------------------------ *)
(** ** Smoothing ([interpolate_smooth]) *)

(** The algorithm names of [get_smooth_algorithm]. *)
Inductive smooth_algorithm : Type :=
  | PCHIP | Akima | Bezier | BSpline | SavitzkyGolay | UnivariateSpline
  | CubicSpline.

(** The items of the combo box [interp_points], from which
    [interpolate_smooth] reads [num_points]. *)
Definition interp_points_items : list nat := [100; 200; 300; 500; 1000]%nat.

(** The numerical routines the smoother calls: those of scipy, and
    [bezier_curve], which is built on them.  Each one maps its arrays to
    the array of smoothed values, or raises ([None]).  They are
    parameters of the model: only the number and the abscissae of the
    returned points are studied here. *)
Record routines : Type := mk_routines {
  (** [PchipInterpolator(x, y)(x_new)] *)
  sp_PchipInterpolator : list Q -> list Q -> list Q -> option (list Q);
  (** [Akima1DInterpolator(x, y)(x_new)] *)
  sp_Akima1DInterpolator : list Q -> list Q -> list Q -> option (list Q);
  (** [self.bezier_curve(x, y, x_new, control_point_ratio)] *)
  sp_bezier_curve : list Q -> list Q -> list Q -> Q -> option (list Q);
  (** [splev(x_new, splrep(x, y, s=s, k=3))] *)
  sp_splrep_splev : list Q -> list Q -> Q -> list Q -> option (list Q);
  (** [make_interp_spline(x, y, k=3)(x_new)] *)
  sp_make_interp_spline : list Q -> list Q -> list Q -> option (list Q);
  (** [savgol_filter(y, window_length, polyorder)] *)
  sp_savgol_filter : list Q -> Z -> Z -> option (list Q);
  (** [UnivariateSpline(x, y, s=s, k=3)(x_new)] *)
  sp_UnivariateSpline : list Q -> list Q -> Q -> list Q -> option (list Q)
}.

(** The indices of the first occurrence of every value of [x]; [seen]
    holds the keys of [seen_x]. *)
Fixpoint unique_from (x : list Q) (i : nat) (seen : list Q) : list nat :=
  match x with
  | [] => []
  | xi :: rest =>
      if existsb (Qeq_bool xi) seen then unique_from rest (S i) seen
      else i :: unique_from rest (S i) (seen ++ [xi])
  end.

(** [np.argsort(a)].  The values sorted here are pairwise different, so
    every sorting algorithm gives this permutation. *)
Definition argsort (a : list Q) : list nat :=
  sorted_by (fun i => nth i a 0) (seq 0 (length a)).

(** [np.linspace(start, stop, num)]: [num] evenly spaced samples, the
    last one [stop] itself. *)
Definition linspace (start stop : Q) (num : nat) : list Q :=
  match num with
  | 0%nat => []
  | 1%nat => [start]
  | _ =>
      let step := (stop - start) / inject_Z (Z.of_nat (num - 1)) in
      map (fun i => start + inject_Z (Z.of_nat i) * step) (seq 0 (num - 1))
        ++ [stop]
  end.

(** [int(v)] of a float: truncation towards zero. *)
Definition py_int (v : Q) : Z :=
  if Qle_bool 0 v then Qfloor v else Qceiling v.

(** The window of the Savitzky-Golay filter, lines 1318 to 1323. *)
Definition sg_window_length (smoothness : Q) (len_x_smooth : nat) : Z :=
  let window_length := py_int smoothness in
  let window_length :=
    if (window_length mod 2 =? 0)%Z then (window_length + 1)%Z
    else window_length in
  let window_length := Z.min window_length (Z.of_nat len_x_smooth - 1) in
  if (window_length <? 3)%Z then 3%Z else window_length.

Definition sg_polyorder (window_length : Z) : Z := Z.min 3 (window_length - 1).

(** The chain [if algorithm == "PCHIP": ... elif ...] that computes
    [y_smooth].  Its closing [else: return x, y] cannot be reached:
    [get_smooth_algorithm] returns one of the seven names. *)
Definition apply_algorithm (sp : routines) (algorithm : smooth_algorithm)
    (smoothness : Q) (x_sorted y_sorted x_smooth : list Q) : option (list Q) :=
  match algorithm with
  | PCHIP => sp_PchipInterpolator sp x_sorted y_sorted x_smooth
  | Akima => sp_Akima1DInterpolator sp x_sorted y_sorted x_smooth
  | Bezier =>
      let control_ratio := smoothness / 100 in
      sp_bezier_curve sp x_sorted y_sorted x_smooth control_ratio
  | BSpline =>
      let s_param := smoothness * inject_Z (Z.of_nat (length x_sorted)) in
      sp_splrep_splev sp x_sorted y_sorted s_param x_smooth
  | SavitzkyGolay =>
      y_temp <- sp_make_interp_spline sp x_sorted y_sorted x_smooth ;;
      let window_length := sg_window_length smoothness (length x_smooth) in
      let polyorder := sg_polyorder window_length in
      sp_savgol_filter sp y_temp window_length polyorder
  | UnivariateSpline =>
      if Qeq_bool smoothness 0
      then sp_make_interp_spline sp x_sorted y_sorted x_smooth
      else
        let s_param := smoothness * inject_Z (Z.of_nat (length x_sorted)) in
        sp_UnivariateSpline sp x_sorted y_sorted s_param x_smooth
  | CubicSpline => sp_make_interp_spline sp x_sorted y_sorted x_smooth
  end.

(** The body of the [try] block: [None] is an exception.  [num_points]
    is the value read from the combo box, which replaces the argument of
    the same name. *)
Definition smooth_try (sp : routines) (algorithm : smooth_algorithm)
    (num_points : nat) (smoothness : Q) (x y : list Q)
  : option (list Q * list Q) :=
  if (length x <? 4)%nat then Some (x, y)
  else
    let unique_indices := unique_from x 0 [] in
    if (length unique_indices <? 4)%nat then Some (x, y)
    else
      x_unique <- take_indices x unique_indices ;;
      y_unique <- take_indices y unique_indices ;;
      let sort_indices := argsort x_unique in
      x_sorted <- take_indices x_unique sort_indices ;;
      y_sorted <- take_indices y_unique sort_indices ;;
      x_first <- nth_error x_sorted 0 ;;
      x_last <- nth_error x_sorted (length x_sorted - 1) ;;
      let x_smooth := linspace x_first x_last num_points in
      y_smooth <- apply_algorithm sp algorithm smoothness x_sorted y_sorted
                    x_smooth ;;
      Some (x_smooth, y_smooth).

(** [interpolate_smooth]: any exception gives back the input. *)
Definition interpolate_smooth (sp : routines) (algorithm : smooth_algorithm)
    (num_points : nat) (smoothness : Q) (x y : list Q) : list Q * list Q :=
  match smooth_try sp algorithm num_points smoothness x y with
  | Some result => result
  | None => (x, y)
  end.

(* ------------------------------------------------------------------ *)
(** ** Evaluation indices ([calculate_indices], [calculate_degradation]) *)

(** The dictionary [self.indices].  The two functions set a fixed
    family of keys, so the dictionary is a record with one optional
    field per key; a key that has not been set is [None].  The keys, in
    the order of the fields: peak displacement (positive, negative),
    peak force (positive, negative), residual deformation, total loop
    area, cumulative energy, secant stiffness, initial stiffness,
    equivalent viscous damping, mean loop energy, largest loop energy,
    positive strength degradation, negative strength degradation,
    stiffness degradation. *)
Record indices : Type := mk_indices {
  ix_peak_displacement : option (Q * Q);
  ix_peak_force : option (Q * Q);
  ix_residual_deformation : option Q;
  ix_total_loop_area : option Q;
  ix_cumulative_energy : option Q;
  ix_secant_stiffness : option Q;
  ix_initial_stiffness : option Q;
  ix_equivalent_damping : option Q;
  ix_mean_loop_energy : option Q;
  ix_max_loop_energy : option Q;
  ix_pos_strength_degradation : option Q;
  ix_neg_strength_degradation : option Q;
  ix_stiffness_degradation : option Q
}.

(** [self.indices[key] = v] for the three keys of [calculate_degradation]. *)
Definition set_pos_strength_degradation (v : Q) (ix : indices) : indices :=
  mk_indices (ix_peak_displacement ix) (ix_peak_force ix)
    (ix_residual_deformation ix) (ix_total_loop_area ix)
    (ix_cumulative_energy ix) (ix_secant_stiffness ix)
    (ix_initial_stiffness ix) (ix_equivalent_damping ix)
    (ix_mean_loop_energy ix) (ix_max_loop_energy ix)
    (Some v) (ix_neg_strength_degradation ix) (ix_stiffness_degradation ix).

Definition set_neg_strength_degradation (v : Q) (ix : indices) : indices :=
  mk_indices (ix_peak_displacement ix) (ix_peak_force ix)
    (ix_residual_deformation ix) (ix_total_loop_area ix)
    (ix_cumulative_energy ix) (ix_secant_stiffness ix)
    (ix_initial_stiffness ix) (ix_equivalent_damping ix)
    (ix_mean_loop_energy ix) (ix_max_loop_energy ix)
    (ix_pos_strength_degradation ix) (Some v) (ix_stiffness_degradation ix).

Definition set_stiffness_degradation (v : Q) (ix : indices) : indices :=
  mk_indices (ix_peak_displacement ix) (ix_peak_force ix)
    (ix_residual_deformation ix) (ix_total_loop_area ix)
    (ix_cumulative_energy ix) (ix_secant_stiffness ix)
    (ix_initial_stiffness ix) (ix_equivalent_damping ix)
    (ix_mean_loop_energy ix) (ix_max_loop_energy ix)
    (ix_pos_strength_degradation ix) (ix_neg_strength_degradation ix) (Some v).

(** [a[-1]]; [IndexError] on an empty sequence. *)
Definition py_last (a : list Q) : option Q :=
  match a with
  | [] => None
  | _ => Some (last a 0)
  end.

(** [sum(a)]: the additions start from 0 and run from the left. *)
Definition py_sum (a : list Q) : Q := fold_left Qplus a 0.

(** [np.mean(a)] of a non-empty list. *)
Definition np_mean (a : list Q) : Q :=
  py_sum a / inject_Z (Z.of_nat (length a)).

(** [np.pi]: the double nearest to pi, as the exact ratio it stands for. *)
Definition np_pi : Q := 884279719003555 # 281474976710656.

Definition is_positive_type (t : peak_type) : bool :=
  match t with positive => true | negative => false end.

Definition is_negative_type (t : peak_type) : bool :=
  match t with positive => false | negative => true end.

(** The block shared by the two directions of [calculate_degradation]:
    [forces = [abs(l['peak_force']) for l in loops]], then
    [(forces[0] - forces[-1]) / forces[0] * 100] when there are two
    loops or more and [forces[0] != 0]. *)
Definition strength_degradation (loops : list hysteresis_loop) : option Q :=
  if (2 <=? length loops)%nat then
    let forces := map (fun l => Qabs (l_peak_force l)) loops in
    if negb (Qeq_bool (nth 0 forces 0) 0)
    then Some ((nth 0 forces 0 - last forces 0) / nth 0 forces 0 * 100)
    else None
  else None.

(** [calculate_degradation]: it returns at once, leaving the dictionary
    as it is, when there are fewer than two loops. *)
Definition calculate_degradation (hysteresis_loops : list hysteresis_loop)
    (ix : indices) : indices :=
  if (length hysteresis_loops <? 2)%nat then ix
  else
    let pos_loops :=
      filter (fun l => is_positive_type (l_type l)) hysteresis_loops in
    let neg_loops :=
      filter (fun l => is_negative_type (l_type l)) hysteresis_loops in
    let ix := match strength_degradation pos_loops with
              | Some strength_deg => set_pos_strength_degradation strength_deg ix
              | None => ix
              end in
    let ix := match strength_degradation neg_loops with
              | Some strength_deg => set_neg_strength_degradation strength_deg ix
              | None => ix
              end in
    match ix_initial_stiffness ix, ix_secant_stiffness ix with
    | Some K0, Some Ks =>
        if negb (Qeq_bool K0 0)
        then set_stiffness_degradation ((K0 - Ks) / K0 * 100) ix
        else ix
    | _, _ => ix
    end.

(** The secant stiffness of lines 1871 to 1875: the last force of the
    positive skeleton branch over its last displacement. *)
Definition secant_stiffness (skeleton : option skeleton_curve) : option (option Q) :=
  match skeleton with
  | None => Some None
  | Some sk =>
      let pos_curve := sk_positive sk in
      if (1 <? length (br_disp pos_curve))%nat then
        max_disp <- py_last (br_disp pos_curve) ;;
        if negb (Qeq_bool max_disp 0) then
          max_force <- py_last (br_force pos_curve) ;;
          Some (Some (max_force / max_disp))
        else Some None
      else Some None
  end.

(** The search [for i in range(len(force))] for the first sample whose
    force and displacement both exceed their thresholds; [start_idx]
    stays 0 when there is none. *)
Fixpoint stiffness_start_from (displacement force : list Q)
    (disp_threshold force_threshold : Q) (idx : list nat) : option nat :=
  match idx with
  | [] => Some 0%nat
  | i :: rest =>
      fi <- nth_error force i ;;
      if Qgtb (Qabs fi) force_threshold then
        di <- nth_error displacement i ;;
        if Qgtb (Qabs di) disp_threshold then Some i
        else stiffness_start_from displacement force
               disp_threshold force_threshold rest
      else stiffness_start_from displacement force
             disp_threshold force_threshold rest
  end.

(** The window [(start_idx, end_idx)] of the initial-stiffness fit and
    the displacement threshold, lines 1878 to 1888. *)
Definition stiffness_window (displacement force : list Q)
  : option (nat * nat * Q) :=
  max_abs_disp <- np_max (np_abs displacement) ;;
  let disp_threshold := py_max (1 # 1000) (max_abs_disp * (1 # 1000)) in
  max_abs_force <- np_max (np_abs force) ;;
  let force_threshold := py_max (1 # 100) (max_abs_force * (1 # 1000)) in
  start_idx <- stiffness_start_from displacement force
                 disp_threshold force_threshold (range 0 (length force)) ;;
  let n := Nat.max 5 (Nat.min 20 (length displacement / 10)) in
  let end_idx := Nat.min (start_idx + n) (length displacement) in
  Some (start_idx, end_idx, disp_threshold).

(** The initial stiffness of lines 1877 to 1895.  [np_polyfit x y] is
    the slope [np.polyfit(x, y, 1)[0]], [None] when the routine raises. *)
Definition fitted_initial_stiffness (np_polyfit : list Q -> list Q -> option Q)
    (displacement force : list Q) : option (option Q) :=
  if (10 <? length displacement)%nat then
    w <- stiffness_window displacement force ;;
    let '(start_idx, end_idx, disp_threshold) := w in
    if (start_idx + 2 <? end_idx)%nat then
      let disp_range := slice displacement start_idx end_idx in
      let force_range := slice force start_idx end_idx in
      if (1 <? length disp_range)%nat then
        hi <- np_max disp_range ;;
        lo <- np_min disp_range ;;
        if Qgtb (hi - lo) disp_threshold then
          K_initial <- np_polyfit disp_range force_range ;;
          Some (Some K_initial)
        else Some None
      else Some None
    else Some None
  else Some None.

(** The equivalent viscous damping of lines 1897 to 1905. *)
Definition equivalent_damping (total_area : Q)
    (skeleton : option skeleton_curve) : option (option Q) :=
  if Qgtb total_area 0 then
    match skeleton with
    | None => Some None
    | Some sk =>
        let pos_curve := sk_positive sk in
        if (1 <? length (br_disp pos_curve))%nat then
          max_disp <- py_last (br_disp pos_curve) ;;
          max_force <- py_last (br_force pos_curve) ;;
          let S_OBE := (1 # 2) * Qabs (max_disp * max_force) * 2 in
          if Qgtb S_OBE 0
          then Some (Some (total_area / (2 * np_pi * S_OBE)))
          else Some None
        else Some None
    end
  else Some None.

(** [loop_areas = [loop['area'] for loop in loops if loop['area'] > 0]]. *)
Definition positive_areas (hysteresis_loops : list hysteresis_loop) : list Q :=
  filter (fun area => Qgtb area 0) (map l_area hysteresis_loops).

(** [calculate_indices] on the series it selects from [current_data]
    (the filtered one when present), the loops and the skeleton curve
    of the analyzer; [None] when a step raises.  The dictionary is
    built from empty, and [calculate_degradation] runs last. *)
Definition calculate_indices (np_polyfit : list Q -> list Q -> option Q)
    (displacement force : list Q) (hysteresis_loops : list hysteresis_loop)
    (skeleton : option skeleton_curve) : option indices :=
  max_pos_idx <- np_argmax displacement ;;
  max_neg_idx <- np_argmin displacement ;;
  let peak_displacement :=
    (nth max_pos_idx displacement 0, nth max_neg_idx displacement 0) in
  max_force_idx <- np_argmax force ;;
  min_force_idx <- np_argmin force ;;
  let peak_force := (nth max_force_idx force 0, nth min_force_idx force 0) in
  residual <- py_last displacement ;;
  let total_area := py_sum (map l_area hysteresis_loops) in
  K_sec <- secant_stiffness skeleton ;;
  K_initial <- fitted_initial_stiffness np_polyfit displacement force ;;
  he <- equivalent_damping total_area skeleton ;;
  let loop_areas := positive_areas hysteresis_loops in
  let mean_energy :=
    match loop_areas with [] => None | _ => Some (np_mean loop_areas) end in
  let max_energy :=
    match loop_areas with [] => None | _ => np_max loop_areas end in
  Some (calculate_degradation hysteresis_loops
          (mk_indices (Some peak_displacement) (Some peak_force) (Some residual)
             (Some total_area) (Some total_area) K_sec K_initial he
             mean_energy max_energy None None None)).


(* ------------------------------------------------------------------ *)
(** ** The loaded data and the analysis steps ([update_analysis]) *)

(** The dictionary [self.current_data] as the analysis steps use it:
    the entries ['displacement'] and ['force'], and the entries
    ['displacement_filtered'] and ['force_filtered'], which are absent
    ([None]) until [extract_hysteresis_loops] runs with the first-loop
    filter checked (lines 1630 to 1633) and which nothing removes or
    replaces afterwards but a later run with the filter checked. *)
Record loaded_data : Type := mk_loaded {
  cd_displacement : list Q;
  cd_force : list Q;
  cd_displacement_filtered : option (list Q);
  cd_force_filtered : option (list Q)
}.

(** The dictionary that [load_data] builds, lines 1510 to 1515: no
    filtered entry. *)
Definition loaded (displacement force : list Q) : loaded_data :=
  mk_loaded displacement force None None.

(** The two assignments of lines 1632 and 1633. *)
Definition set_filtered (displacement force : list Q) (cd : loaded_data)
    : loaded_data :=
  mk_loaded (cd_displacement cd) (cd_force cd) (Some displacement) (Some force).

(** [dict.get(key, default)] for an entry that may be absent. *)
Definition dict_get (entry : option (list Q)) (default : list Q) : list Q :=
  match entry with
  | Some v => v
  | None => default
  end.

(** The series that [extract_skeleton_curve] (lines 1718 to 1721) and
    [calculate_indices] (lines 1844 to 1847) read:
    [current_data.get('displacement_filtered',
    current_data['displacement'])] and the same for the force. *)
Definition current_series (cd : loaded_data) : list Q * list Q :=
  (dict_get (cd_displacement_filtered cd) (cd_displacement cd),
   dict_get (cd_force_filtered cd) (cd_force cd)).

(** The method [extract_hysteresis_loops] with the dictionary it
    updates: it works on copies of the loaded series, stores the
    filtered series when the filter is checked, and returns the
    dictionary with the loops. *)
Definition extract_hysteresis_loops_step (filter_first_loop : bool)
    (cd : loaded_data) : option (loaded_data * list hysteresis_loop) :=
  let displacement := cd_displacement cd in
  let force := cd_force cd in
  st <- (if filter_first_loop then
           series <- filter_first_loops displacement force ;;
           let '(displacement, force) := series in
           Some (set_filtered displacement force cd, displacement, force)
         else Some (cd, displacement, force)) ;;
  let '(cd, displacement, force) := st in
  peaks <- loop_peaks_from displacement force (inner_range displacement) ;;
  hysteresis_loops <- loops_between displacement force peaks ;;
  Some (cd, hysteresis_loops).

(** The first three steps of [update_analysis], lines 1614 to 1616:
    the loops, the skeleton curve and the indices, with the dictionary
    as the steps leave it; [None] when one of them raises. *)
Definition analysis_steps (np_polyfit : list Q -> list Q -> option Q)
    (filter_first_loop : bool) (method : skeleton_method) (cd : loaded_data)
    : option (loaded_data * list hysteresis_loop * skeleton_curve * indices) :=
  r <- extract_hysteresis_loops_step filter_first_loop cd ;;
  let '(cd, hysteresis_loops) := r in
  let '(displacement, force) := current_series cd in
  skeleton_curve <- extract_skeleton_curve method displacement force ;;
  ix <- calculate_indices np_polyfit displacement force hysteresis_loops
          (Some skeleton_curve) ;;
  Some (cd, hysteresis_loops, skeleton_curve, ix).

(** The dictionary after a run of [update_analysis], whether the run
    raises or not: the filtered entries are set as soon as
    [filter_first_loops] has returned, and nothing else is written. *)
Definition current_data_after (filter_first_loop : bool) (cd : loaded_data)
    : loaded_data :=
  if filter_first_loop then
    match filter_first_loops (cd_displacement cd) (cd_force cd) with
    | Some (displacement, force) => set_filtered displacement force cd
    | None => cd
    end
  else cd.

(** The dictionary of a file after it was loaded and analysed some
    number of times, with the settings [earlier] of the first-loop
    filter, the oldest first. *)
Definition current_data_of (earlier : list bool) (displacement force : list Q)
    : loaded_data :=
  fold_left (fun cd filter_first_loop => current_data_after filter_first_loop cd)
    earlier (loaded displacement force).


(* ------------------------------------------------------------------ *)
(** ** The file list and the undo history *)

(** An entry [{'path': ..., 'name': ...}] of [self.data_files]. *)
Record data_file : Type := mk_file {
  df_path : String.string;
  df_name : String.string
}.

(** The part of the analyzer that the file operations keep: the list
    [data_files], the undo stack [history] and the items of the list
    widget [file_list].  A snapshot [{'data_files': ..., 'current_data':
    ...}] of the history is modelled by its ['data_files'] entry.  The
    attribute [current_data] is left out: it is replaced by the handlers
    of the widget's signals while these functions run, and none of the
    three fields below is computed from it. *)
Record analyzer : Type := mk_analyzer {
  data_files : list data_file;
  history : list (list data_file);
  file_list : list String.string
}.

(** The attributes as [__init__] sets them. *)
Definition initial : analyzer := mk_analyzer [] [] [].

(** [a[-1]] of a list; [IndexError] on an empty one. *)
Definition last_item {A : Type} (a : list A) : option A :=
  nth_error a (length a - 1).

(** [a.pop(i)] for [0 <= i < len(a)], and [takeItem(i)] of the list
    widget, which removes nothing when [i] is not a row. *)
Definition py_pop {A : Type} (a : list A) (i : nat) : list A :=
  firstn i a ++ skipn (S i) a.

(** [save_state]: the snapshot is appended, and the oldest one dropped
    when the stack has grown beyond 30. *)
Definition save_state (a : analyzer) : analyzer :=
  let state := data_files a in
  let history := history a ++ [state] in
  let history := if (30 <? length history)%nat then tl history else history in
  mk_analyzer (data_files a) history (file_list a).

(** One pass of the loop of [import_files]; [path_name] is
    [Path(file).name]. *)
Definition import_step (path_name : String.string -> String.string)
    (st : list data_file * list String.string) (file : String.string)
  : list data_file * list String.string :=
  let '(data_files, file_list) := st in
  if existsb (String.eqb file) (map df_path data_files) then st
  else (data_files ++ [mk_file file (path_name file)],
        file_list ++ [path_name file]).

(** [import_files], for the list [files] that the dialog returns. *)
Definition import_files (path_name : String.string -> String.string)
    (files : list String.string) (a : analyzer) : analyzer :=
  match files with
  | [] => a
  | _ =>
      let '(data_files, file_list) :=
        fold_left (import_step path_name) files (data_files a, file_list a) in
      save_state (mk_analyzer data_files (history a) file_list)
  end.

(** [clear_files]; [reply_yes] is the answer to the confirmation. *)
Definition clear_files (reply_yes : bool) (a : analyzer) : analyzer :=
  match data_files a with
  | [] => a
  | _ => if reply_yes then save_state (mk_analyzer [] (history a) []) else a
  end.

(** [delete_selected]; [current_row] is [self.file_list.currentRow()].
    [None] is the [IndexError] of [self.data_files[current_row]]. *)
Definition delete_selected (current_row : Z) (a : analyzer) : option analyzer :=
  if (0 <=? current_row)%Z then
    let row := Z.to_nat current_row in
    deleted_file <- nth_error (data_files a) row ;;
    Some (save_state (mk_analyzer (py_pop (data_files a) row) (history a)
                        (py_pop (file_list a) row)))
  else Some a.

(** [undo]: with more than one snapshot, the last one is dropped and
    the one before it restored; the list widget is rebuilt. *)
Definition undo (a : analyzer) : option analyzer :=
  if (1 <? length (history a))%nat then
    let history := removelast (history a) in
    last_state <- last_item history ;;
    Some (mk_analyzer last_state history (map df_name last_state))
  else Some a.


(* ------------------------------------------------------------------ *)
(** ** The slider and the spin box of the Savitzky-Golay window *)

(** [on_slider_changed] when the algorithm is the Savitzky-Golay filter
    ([algo_index == 4]): the window length that is sent to the spin box
    for the slider position [value].  The slider runs from 0 to 100;
    there [3 + (value / 100) * 48] is a whole number only when [value]
    is a multiple of 25, in which case the floating-point operations
    are exact, so that truncating the exact rational truncates the
    computed float. *)
Definition on_slider_changed (value : Z) : Z :=
  let smooth_value := py_int (3 + (inject_Z value / 100) * 48) in
  if (smooth_value mod 2 =? 0)%Z then (smooth_value + 1)%Z else smooth_value.

(** [on_smoothness_changed] for the same algorithm: the value that the
    spin box shows afterwards and the position given to the slider.
    The spin box holds whole numbers from 3 to 51 (no decimals); there
    [(value - 3) / 48 * 100] is whole only when [value - 3] is a
    multiple of 12, where the floating-point operations are exact. *)
Definition on_smoothness_changed (value : Q) : Q * Z :=
  let value :=
    if (py_int value mod 2 =? 0)%Z then inject_Z (py_int value + 1)
    else value in
  (value, py_int ((value - 3) / 48 * 100)).


(* ------------------------------------------------------------------ *)
(** ** Zooming with the mouse wheel ([MplCanvas.on_scroll]) *)

(** [event.button]: ['up'], ['down'] or anything else. *)
Inductive scroll_button : Type := scroll_up | scroll_down | scroll_other.

(** The new limits of one axis, lines 108 to 115: the limits
    [cur_lim], the coordinate [data] of the mouse and the scale factor.
    The width of a matplotlib axis is not zero. *)
Definition zoomed (cur_lim : Q * Q) (data scale_factor : Q) : Q * Q :=
  let new_width := (snd cur_lim - fst cur_lim) * scale_factor in
  let rel := (snd cur_lim - data) / (snd cur_lim - fst cur_lim) in
  (data - new_width * (1 - rel), data + new_width * rel).

(** [on_scroll]: the limits of the two axes after the event; [inaxes]
    is [event.inaxes == self.ax]. *)
Definition on_scroll (inaxes : bool) (button : scroll_button)
    (xdata ydata : Q) (cur_xlim cur_ylim : Q * Q) : (Q * Q) * (Q * Q) :=
  if negb inaxes then (cur_xlim, cur_ylim)
  else
    match button with
    | scroll_up =>
        (zoomed cur_xlim xdata (9 # 10), zoomed cur_ylim ydata (9 # 10))
    | scroll_down =>
        (zoomed cur_xlim xdata (11 # 10), zoomed cur_ylim ydata (11 # 10))
    | scroll_other => (cur_xlim, cur_ylim)
    end.


(* ================================================================== *)
(** * Notions used by the properties *)

(** The signed trapezoidal integral of [force] with respect to
    [displacement], written on the two series directly; the loop area is
    compared with it below. *)
Fixpoint trapezoid_integral (displacement force : list Q) : Q :=
  match displacement, force with
  | d0 :: ((d1 :: _) as d'), f0 :: ((f1 :: _) as f') =>
      (1 # 2) * (f0 + f1) * (d1 - d0) + trapezoid_integral d' f'
  | _, _ => 0
  end.

(** [k] lies in the window the filter keeps around [group]. *)
Definition in_window (group : list nat) (k : nat) : bool :=
  (group_min group - 50 <=? k)%nat && (k <? group_min group + 50)%nat.

Definition in_some_window (groups : list (list nat)) (k : nat) : bool :=
  existsb (fun group => in_window group k) groups.

(** The kept indices as the specification words them: for each group
    the window [[first_peak - 50, first_peak + 50]], both ends included,
    clipped to the series. *)
Definition in_closed_window (group : list nat) (k : nat) : bool :=
  (group_min group - 50 <=? k)%nat && (k <=? group_min group + 50)%nat.

Definition spec_keep_list (displacement : list Q) : list nat :=
  filter (fun k => existsb (fun group => in_closed_window group k)
                     (peak_groups displacement))
    (seq 0 (length displacement)).

(** A group as the filter builds it from the peaks [peaks_indices] with
    values [peak_values]: the peak at position [i], then later peaks
    whose value is within the tolerance of the first one. *)
Definition group_of (peaks_indices : list nat) (peak_values : list Q)
    (group : list nat) : Prop :=
  exists i others,
    group = nth i peaks_indices 0%nat :: others /\
    (i < length peaks_indices)%nat /\
    Forall (fun m => exists j,
                (i < j < length peaks_indices)%nat /\
                m = nth j peaks_indices 0%nat /\
                Qabs (nth j peak_values 0 - nth i peak_values 0)
                  <= tolerance * nth i peak_values 0) others.

(** The displacement of a branch grows strictly in magnitude:
    [|l[i]| > |l[i-1]|] for every [i >= 1]. *)
Definition strictly_increasing_abs (l : list Q) : Prop :=
  forall i, (1 <= i < length l)%nat ->
            Qabs (nth (i - 1) l 0) < Qabs (nth i l 0).

(** A branch begins at displacement 0 and grows strictly in magnitude. *)
Definition skeleton_branch_ok (b : branch) : Prop :=
  nth_error (br_disp b) 0 = Some 0 /\ strictly_increasing_abs (br_disp b).

(** What the extraction loops maintain: the branch is well formed and
    its last displacement is the running extreme [m]. *)
Definition branch_inv (m : Q) (b : branch) : Prop :=
  skeleton_branch_ok b /\
  nth (length (br_disp b) - 1) (br_disp b) 0 = m.

(** Two samples of the cleaned series are near each other when their
    displacements differ by at most the tolerance. *)
Definition near (dc : list Q) (tol : Q) (i j : nat) : Prop :=
  Qabs (nth i dc 0 - nth j dc 0) <= tol.

(** Sample [i] has the largest [|force|] among the samples near it, and
    is the first one to have it. *)
Definition first_largest (dc fc : list Q) (tol : Q) (i : nat) : Prop :=
  forall j, (j < length dc)%nat -> near dc tol j i ->
            Qabs (nth j fc 0) <= Qabs (nth i fc 0) /\
            ((j < i)%nat -> Qabs (nth j fc 0) < Qabs (nth i fc 0)).

(** Nearness is transitive on the series: the samples then fall into
    groups of mutually near samples. *)
Definition groups_well_defined (dc : list Q) (tol : Q) : Prop :=
  forall i j k, (i < length dc)%nat -> (j < length dc)%nat ->
                (k < length dc)%nat ->
                near dc tol i j -> near dc tol j k -> near dc tol i k.

(** What the deduplication loop maintains in every case: the stored
    indices are earlier samples, each stored once. *)
Definition dict_inv (k : nat) (d : disp_dict) : Prop :=
  (forall e, In e d -> (snd e < k)%nat) /\ NoDup (map snd d).

(** What it maintains when the groups are well defined: each entry
    holds the displacement of its sample, which is the first largest
    among the samples seen so far; every sample seen has an entry near
    it; and no two entries are near each other. *)
Definition dedup_inv (dc fc : list Q) (tol : Q) (k : nat) (d : disp_dict) : Prop :=
  (forall e, In e d -> nth (snd e) dc 0 = fst e) /\
  (forall e j, In e d -> (j < k)%nat -> near dc tol j (snd e) ->
               Qabs (nth j fc 0) <= Qabs (nth (snd e) fc 0) /\
               ((j < snd e)%nat ->
                Qabs (nth j fc 0) < Qabs (nth (snd e) fc 0))) /\
  (forall j, (j < k)%nat -> exists e, In e d /\ near dc tol j (snd e)) /\
  (forall e1 e2, In e1 d -> In e2 d -> near dc tol (snd e1) (snd e2) -> e1 = e2).

(** The displacement series is ascending, as the specification words
    the order of the deduplicated output. *)
Definition ascending (l : list Q) : Prop :=
  forall i j, (i < j < length l)%nat -> nth i l 0 <= nth j l 0.

(** A sample exceeds twice a threshold in either channel. *)
Definition exceeds (disp_threshold force_threshold d f : Q) : bool :=
  Qgtb (Qabs d) (disp_threshold * 2) || Qgtb (Qabs f) (force_threshold * 2).

(** The index of the first sample of an aligned series that exceeds
    twice a threshold, when there is one. *)
Fixpoint first_exceeding (disp_threshold force_threshold : Q)
    (d f : list Q) : option nat :=
  match d, f with
  | x :: d', y :: f' =>
      if exceeds disp_threshold force_threshold x y then Some 0%nat
      else option_map S (first_exceeding disp_threshold force_threshold d' f')
  | _, _ => None
  end.

(** The re-zero step as the specification words it: the displacement of
    the first exceeding sample is subtracted from the whole series. *)
Definition spec_rezero (disp_threshold force_threshold : Q) (d f : list Q)
  : list Q * list Q :=
  match first_exceeding disp_threshold force_threshold d f with
  | Some i => (map (fun x => x - nth i d 0) d, f)
  | None => (d, f)
  end.

(** A series is clean relative to its own thresholds: every value is 0
    or at least the threshold of its channel in magnitude, two
    displacements differ by more than [0.5 * disp_threshold], and the
    first sample to exceed a doubled threshold, if any, is the first
    sample of the series. *)
Definition clean_series (d f : list Q) : Prop :=
  exists thr fthr,
    disp_threshold_of d = Some thr /\
    force_threshold_of f = Some fthr /\
    length d = length f /\
    (forall x, In x d -> x = 0 \/ thr <= Qabs x) /\
    (forall y, In y f -> y = 0 \/ fthr <= Qabs y) /\
    (forall i j, (i < j < length d)%nat ->
                 thr * (1 # 2) < Qabs (nth i d 0 - nth j d 0)) /\
    match first_exceeding thr fthr d f with
    | Some (S _) => False
    | _ => True
    end.

(** Stand-ins for the numerical routines, to run the smoother on
    examples: each one answers with as many zeros as there are
    abscissae. *)
Definition zero_routines : routines :=
  let zeros (x_new : list Q) : option (list Q) := Some (map (fun _ => 0) x_new) in
  mk_routines
    (fun _ _ x_new => zeros x_new)
    (fun _ _ x_new => zeros x_new)
    (fun _ _ x_new _ => zeros x_new)
    (fun _ _ _ x_new => zeros x_new)
    (fun _ _ x_new => zeros x_new)
    (fun y _ _ => zeros y)
    (fun _ _ _ x_new => zeros x_new).

(** A point of a branch is a sample of the series, with a displacement
    on the side [P] of the branch. *)
Definition sample_point (P : Q -> Prop) (displacement force : list Q)
    (pt : Q * Q) : Prop :=
  exists i, nth_error displacement i = Some (fst pt) /\
            nth_error force i = Some (snd pt) /\
            P (fst pt).

(** A branch made of the point [origin] followed by samples of the
    series. *)
Definition branch_from (origin : Q * Q) (P : Q -> Prop)
    (displacement force : list Q) (b : branch) : Prop :=
  exists pts,
    br_disp b = fst origin :: map fst pts /\
    br_force b = snd origin :: map snd pts /\
    Forall (sample_point P displacement force) pts.

(** A value lies between two others, in either order. *)
Definition between (a b v : Q) : Prop :=
  (a <= v /\ v <= b) \/ (b <= v /\ v <= a).

(** No two keys of the dictionary are equal. *)
Fixpoint keys_distinct (d : disp_dict) : Prop :=
  match d with
  | [] => True
  | e :: rest =>
      (forall e', In e' rest -> ~ fst e' == fst e) /\ keys_distinct rest
  end.

(** Every key of the dictionary is the displacement of the sample it
    is mapped to. *)
Definition keys_of_samples (dc : list Q) (d : disp_dict) : Prop :=
  forall e, In e d -> nth (snd e) dc 0 == fst e.

(** No two entries of a series are equal. *)
Definition pairwise_distinct (l : list Q) : Prop :=
  forall a b, (a < b < length l)%nat -> ~ nth a l 0 == nth b l 0.

(** What the grouping loop maintains when it reaches position [i]:
    the groups built so far hold, once each, the peaks at the positions
    below [i] and at the positions marked as used. *)
Definition grouping_inv (peaks_indices : list nat) (i : nat)
    (groups : list (list nat)) (used : list nat) : Prop :=
  NoDup (concat groups) /\
  (forall v, In v (concat groups) <->
             exists j, (j < length peaks_indices)%nat /\
                       v = nth j peaks_indices 0%nat /\
                       ((j < i)%nat \/ In j used)) /\
  (forall j, In j used -> (j < length peaks_indices)%nat).

(** The actions of the user on the file list. *)
Inductive action : Type :=
  | Import (files : list String.string)
  | Clear (reply_yes : bool)
  | Delete (current_row : Z)
  | Undo.

Definition run (path_name : String.string -> String.string)
    (act : action) (a : analyzer) : option analyzer :=
  match act with
  | Import files => Some (import_files path_name files a)
  | Clear reply_yes => Some (clear_files reply_yes a)
  | Delete current_row => delete_selected current_row a
  | Undo => undo a
  end.

(** A sequence of actions, the first one first. *)
Fixpoint run_all (path_name : String.string -> String.string)
    (acts : list action) (a : analyzer) : option analyzer :=
  match acts with
  | [] => Some a
  | act :: rest => a' <- run path_name act a ;; run_all path_name rest a'
  end.

(** No path twice, and every name is the name of its path. *)
Definition files_ok (path_name : String.string -> String.string)
    (l : list data_file) : Prop :=
  NoDup (map df_path l) /\
  Forall (fun f => df_name f = path_name (df_path f)) l.

(** What the file operations maintain. *)
Definition analyzer_inv (path_name : String.string -> String.string)
    (a : analyzer) : Prop :=
  file_list a = map df_name (data_files a) /\
  files_ok path_name (data_files a) /\
  (length (history a) <= 30)%nat /\
  Forall (files_ok path_name) (history a) /\
  match history a with
  | [] => data_files a = []
  | _ => last_item (history a) = Some (data_files a)
  end.


(** The action reaches the call of [save_state]. *)
Definition saves_state (act : action) (a : analyzer) : Prop :=
  match act with
  | Import files => files <> []
  | Clear reply_yes => reply_yes = true /\ data_files a <> []
  | Delete current_row => (0 <= current_row)%Z
  | Undo => False
  end.


(** Two paths for the examples. *)
Module Paths.
Import String.
Definition a_txt : string := "a.txt"%string.
Definition b_csv : string := "b.csv"%string.
End Paths.



(** A whole number raised by one when it is even. *)
Definition next_odd (w : Z) : Z := if Z.even w then (w + 1)%Z else w.

(** The test of the inner grouping loop for the peak at position [j]:
    it is not used yet and its value is within the tolerance of
    [peak_val]. *)
Definition joins (peak_values : list Q) (peak_val : Q) (used : list nat)
    (j : nat) : bool :=
  negb (mem j used)
  && Qle_bool (Qabs (nth j peak_values 0 - peak_val)) (tolerance * peak_val).

(** The rule of the grouping loop, on the positions of the peaks: the
    group [g] that follows the groups [pre] starts with the first peak
    that is in none of them, and goes on, in order, with exactly the
    later peaks that are in none of them and whose value is within the
    tolerance of the first one's. *)
Definition group_rule_pos (peaks_indices : list nat) (peak_values : list Q)
    (pre : list (list nat)) (g : list nat) : Prop :=
  exists i added,
    (i < length peaks_indices)%nat /\
    g = nth i peaks_indices 0%nat
        :: map (fun j => nth j peaks_indices 0%nat) added /\
    ~ In (nth i peaks_indices 0%nat) (concat pre) /\
    (forall j, (j < i)%nat -> In (nth j peaks_indices 0%nat) (concat pre)) /\
    StronglySorted lt added /\
    (forall j, In j added <->
               (i < j < length peaks_indices)%nat /\
               ~ In (nth j peaks_indices 0%nat) (concat pre) /\
               Qabs (nth j peak_values 0 - nth i peak_values 0)
               <= tolerance * nth i peak_values 0).

(** The same rule on the indices of the series: the first member of
    [g] is the first peak that no earlier group holds; the other
    members are, in index order, exactly the later peaks that no
    earlier group holds and whose magnitude is within 8% of the first
    member's. *)
Definition group_rule (displacement : list Q) (pre : list (list nat))
    (g : list nat) : Prop :=
  exists first others,
    g = first :: others /\
    In first (peaks_indices_of displacement) /\
    ~ In first (concat pre) /\
    (forall p, In p (peaks_indices_of displacement) -> (p < first)%nat ->
               In p (concat pre)) /\
    StronglySorted lt others /\
    (forall m, In m others <->
               In m (peaks_indices_of displacement) /\
               (first < m)%nat /\
               ~ In m (concat pre) /\
               Qabs (Qabs (nth m displacement 0)
                     - Qabs (nth first displacement 0))
               <= tolerance * Qabs (nth first displacement 0)).




(* ================================================================== *)
(** * Properties *)

(** ** The error monad and the comparisons *)

#[local] Arguments nth_error : simpl nomatch.
#[local] Arguments nth : simpl nomatch.

Lemma bind_Some {A B : Type} (m : option A) (k : A -> option B) (b : B) :
  bind m k = Some b <-> exists a, m = Some a /\ k a = Some b.
Proof.
  destruct m as [a|]; simpl; split.
  - intros H. exists a. split; [reflexivity | exact H].
  - intros [a' [Ha Hk]]. injection Ha as ->. exact Hk.
  - discriminate.
  - intros [a' [Ha _]]. discriminate.
Qed.

(** Case analysis on the scrutinee of a [bind] that is known to succeed. *)
Ltac inv_bind H :=
  match type of H with
  | bind ?m _ = Some _ =>
      let x := fresh "x" in
      let E := fresh "E" in
      destruct m as [x|] eqn:E; [simpl in H | discriminate H]
  end.

Lemma Qltb_lt (a b : Q) : Qltb a b = true <-> a < b.
Proof.
  unfold Qltb. rewrite negb_true_iff.
  destruct (Qle_bool b a) eqn:E.
  - apply Qle_bool_iff in E. split; [discriminate | lra].
  - split; [intros _ | reflexivity].
    destruct (Qlt_le_dec a b) as [H|H]; [exact H|].
    apply Qle_bool_iff in H. congruence.
Qed.

Lemma Qltb_ge (a b : Q) : Qltb a b = false <-> b <= a.
Proof.
  unfold Qltb. rewrite negb_false_iff. apply Qle_bool_iff.
Qed.

Lemma Qgtb_gt (a b : Q) : Qgtb a b = true <-> b < a.
Proof. apply Qltb_lt. Qed.

Lemma Qgtb_le (a b : Q) : Qgtb a b = false <-> a <= b.
Proof. apply Qltb_ge. Qed.

Lemma py_max_ge_l (a b : Q) : a <= py_max a b.
Proof.
  unfold py_max. destruct (Qltb a b) eqn:E.
  - apply Qltb_lt in E. lra.
  - lra.
Qed.

Lemma py_max_ge_r (a b : Q) : b <= py_max a b.
Proof.
  unfold py_max. destruct (Qltb a b) eqn:E.
  - lra.
  - apply Qltb_ge in E. exact E.
Qed.

(** ** Loop area *)

Lemma loop_area_from_shift (d0 f0 : Q) (d f : list Q) (idx : list nat) (acc : Q) :
  loop_area_from (d0 :: d) (f0 :: f) (map S idx) acc = loop_area_from d f idx acc.
Proof.
  revert acc. induction idx as [|i rest IH]; intros acc.
  - reflexivity.
  - cbn [loop_area_from map].
    change (nth_error (f0 :: f) (S i)) with (nth_error f i).
    change (nth_error (f0 :: f) (S (S i))) with (nth_error f (S i)).
    change (nth_error (d0 :: d) (S i)) with (nth_error d i).
    change (nth_error (d0 :: d) (S (S i))) with (nth_error d (S i)).
    destruct (nth_error f i); [|reflexivity].
    destruct (nth_error f (S i)); [|reflexivity].
    destruct (nth_error d (S i)); [|reflexivity].
    destruct (nth_error d i); [|reflexivity].
    cbn [bind]. apply IH.
Qed.

Lemma loop_area_from_trapezoid (d f : list Q) :
  forall acc r,
    loop_area_from d f (seq 0 (length d - 1)) acc = Some r ->
    r == acc + trapezoid_integral d f.
Proof.
  revert f. induction d as [|d0 d IH]; intros f acc r H.
  - simpl in H. injection H as <-. simpl. lra.
  - destruct d as [|d1 d'].
    + simpl in H. injection H as <-. destruct f; simpl; lra.
    + change (length (d0 :: d1 :: d') - 1)%nat with (S (length d')) in H.
      rewrite <- cons_seq, <- seq_shift in H.
      destruct f as [|f0 [|f1 f']]; try discriminate H.
      cbn [loop_area_from nth_error bind] in H.
      rewrite loop_area_from_shift in H.
      replace (length d') with (length (d1 :: d') - 1)%nat in H by (simpl; lia).
      apply IH in H. rewrite H.
      change (trapezoid_integral (d0 :: d1 :: d') (f0 :: f1 :: f'))
        with ((1 # 2) * (f0 + f1) * (d1 - d0)
              + trapezoid_integral (d1 :: d') (f1 :: f')).
      lra.
Qed.

Lemma calculate_loop_area_spec (d f : list Q) (a : Q) :
  calculate_loop_area d f = Some a ->
  0 <= a /\ a == Qabs (trapezoid_integral d f).
Proof.
  unfold calculate_loop_area. intros H. inv_bind H.
  injection H as <-. split.
  - apply Qabs_nonneg.
  - apply loop_area_from_trapezoid in E. rewrite E.
    apply Qabs_wd. lra.
Qed.

(** The area is defined whenever the force series is as long as the
    displacement series. *)
Lemma loop_area_from_total (d f : list Q) (idx : list nat) (acc : Q) :
  (length d <= length f)%nat ->
  Forall (fun i => (S i < length d)%nat) idx ->
  exists r, loop_area_from d f idx acc = Some r.
Proof.
  intros Hlen. revert acc.
  induction idx as [|i rest IH]; intros acc Hidx.
  - simpl. eauto.
  - inversion Hidx as [|? ? Hi Hrest]; subst. cbn [loop_area_from].
    destruct (nth_error f i) eqn:E1;
      [|apply nth_error_None in E1; lia].
    destruct (nth_error f (S i)) eqn:E2;
      [|apply nth_error_None in E2; lia].
    destruct (nth_error d (S i)) eqn:E3;
      [|apply nth_error_None in E3; lia].
    destruct (nth_error d i) eqn:E4;
      [|apply nth_error_None in E4; lia].
    simpl. apply IH. exact Hrest.
Qed.

Lemma calculate_loop_area_total (d f : list Q) :
  (length d <= length f)%nat -> exists a, calculate_loop_area d f = Some a.
Proof.
  intros Hlen. unfold calculate_loop_area.
  destruct (loop_area_from_total d f (seq 0 (length d - 1)) 0 Hlen) as [r Hr].
  - apply Forall_forall. intros i Hi. apply in_seq in Hi. lia.
  - rewrite Hr. simpl. eauto.
Qed.

(** ** Sets of indices and their sorted listing *)

Lemma mem_In (j : nat) (s : list nat) : mem j s = true <-> In j s.
Proof.
  unfold mem. rewrite existsb_exists. split.
  - intros [x [Hx E]]. apply Nat.eqb_eq in E. subst. exact Hx.
  - intros H. exists j. split; [exact H | apply Nat.eqb_refl].
Qed.

Lemma mem_not_In (j : nat) (s : list nat) : mem j s = false <-> ~ In j s.
Proof.
  rewrite <- mem_In. destruct (mem j s); split; intros H; congruence.
Qed.

Lemma set_update_In (items s : list nat) (k : nat) :
  In k (set_update s items) <-> In k s \/ In k items.
Proof.
  unfold set_update. revert s.
  induction items as [|x items IH]; intros s; simpl.
  - tauto.
  - rewrite IH. destruct (mem x s) eqn:E.
    + apply mem_In in E. split; [tauto|].
      intros [H|[H|H]]; subst; auto.
    + simpl. split; intros H; intuition auto.
Qed.

Lemma set_update_NoDup (items s : list nat) :
  NoDup s -> NoDup (set_update s items).
Proof.
  unfold set_update. revert s.
  induction items as [|x items IH]; intros s Hs; simpl.
  - exact Hs.
  - apply IH. destruct (mem x s) eqn:E.
    + exact Hs.
    + constructor; [apply mem_not_In; exact E | exact Hs].
Qed.

Lemma insert_sorted_In (k x : nat) (l : list nat) :
  In x (insert_sorted k l) <-> x = k \/ In x l.
Proof.
  induction l as [|y l IH]; simpl.
  - intuition auto.
  - destruct (k <=? y)%nat; simpl; [intuition auto|].
    rewrite IH. intuition auto.
Qed.

Lemma sorted_nat_In (x : nat) (s : list nat) : In x (sorted_nat s) <-> In x s.
Proof.
  induction s as [|y s IH]; simpl.
  - tauto.
  - rewrite insert_sorted_In, IH. intuition auto.
Qed.

Lemma insert_sorted_sorted (k : nat) (l : list nat) :
  StronglySorted lt l -> ~ In k l -> StronglySorted lt (insert_sorted k l).
Proof.
  induction l as [|y l IH]; intros Hs Hk; simpl.
  - constructor; constructor.
  - inversion Hs as [|? ? Hl Hy]; subst.
    destruct (k <=? y)%nat eqn:E.
    + apply Nat.leb_le in E.
      assert (k < y)%nat as Hlt by (simpl in Hk; lia).
      constructor; [exact Hs|].
      constructor; [exact Hlt|].
      eapply Forall_impl; [|exact Hy]. simpl. intros a Ha. lia.
    + apply Nat.leb_gt in E.
      constructor.
      * apply IH; [exact Hl | simpl in Hk; tauto].
      * apply Forall_forall. intros a Ha.
        apply insert_sorted_In in Ha. destruct Ha as [->|Ha]; [exact E|].
        rewrite Forall_forall in Hy. apply Hy. exact Ha.
Qed.

Lemma sorted_nat_sorted (s : list nat) :
  NoDup s -> StronglySorted lt (sorted_nat s).
Proof.
  induction s as [|y s IH]; intros Hs; simpl.
  - constructor.
  - inversion Hs; subst. apply insert_sorted_sorted.
    + apply IH. assumption.
    + rewrite sorted_nat_In. assumption.
Qed.

(** A strictly increasing list is determined by its elements. *)
Lemma sorted_lt_ext (l1 l2 : list nat) :
  StronglySorted lt l1 -> StronglySorted lt l2 ->
  (forall x, In x l1 <-> In x l2) -> l1 = l2.
Proof.
  revert l2. induction l1 as [|a l1 IH]; intros l2 H1 H2 Hext.
  - destruct l2 as [|b l2]; [reflexivity|].
    exfalso. apply (Hext b). left. reflexivity.
  - destruct l2 as [|b l2].
    + exfalso. apply (Hext a). left. reflexivity.
    + inversion H1 as [|? ? Hs1 Ha]; subst.
      inversion H2 as [|? ? Hs2 Hb]; subst.
      rewrite Forall_forall in Ha, Hb.
      assert (a = b) as ->.
      { assert (In a (b :: l2)) as Hab by (apply Hext; left; reflexivity).
        assert (In b (a :: l1)) as Hba by (apply Hext; left; reflexivity).
        destruct Hab as [E|Hab]; [auto|].
        destruct Hba as [E|Hba]; [auto|].
        apply Hb in Hab. apply Ha in Hba. lia. }
      f_equal. apply IH; [exact Hs1 | exact Hs2 |].
      intros x. split; intros Hx.
      * assert (In x (b :: l2)) as Hx' by (apply Hext; right; exact Hx).
        destruct Hx' as [E|Hx']; [|exact Hx'].
        subst. apply Ha in Hx. lia.
      * assert (In x (b :: l1)) as Hx' by (apply Hext; right; exact Hx).
        destruct Hx' as [E|Hx']; [|exact Hx'].
        subst. apply Hb in Hx. lia.
Qed.

Lemma seq_sorted (a n : nat) : StronglySorted lt (seq a n).
Proof.
  revert a. induction n as [|n IH]; intros a; simpl.
  - constructor.
  - constructor; [apply IH|].
    apply Forall_forall. intros x Hx. apply in_seq in Hx. lia.
Qed.

Lemma filter_sorted (p : nat -> bool) (l : list nat) :
  StronglySorted lt l -> StronglySorted lt (filter p l).
Proof.
  induction l as [|a l IH]; intros Hs; simpl.
  - constructor.
  - inversion Hs as [|? ? Hl Ha]; subst.
    destruct (p a).
    + constructor; [apply IH; exact Hl|].
      rewrite Forall_forall in *. intros x Hx.
      apply filter_In in Hx. apply Ha. tauto.
    + apply IH. exact Hl.
Qed.

(** Reading a series at a list of valid indices succeeds. *)
Lemma take_indices_nth (a : list Q) (idx : list nat) :
  Forall (fun i => (i < length a)%nat) idx ->
  take_indices a idx = Some (map (fun i => nth i a 0) idx).
Proof.
  induction idx as [|i rest IH]; intros H; simpl.
  - reflexivity.
  - inversion H as [|? ? Hi Hrest]; subst.
    rewrite (nth_error_nth' a 0 Hi). simpl.
    rewrite (IH Hrest). reflexivity.
Qed.

Lemma take_indices_length {A : Type} (a : list A) (idx : list nat) (r : list A) :
  take_indices a idx = Some r -> length r = length idx.
Proof.
  revert r. induction idx as [|i rest IH]; intros r H; simpl in H.
  - injection H as <-. reflexivity.
  - inv_bind H. inv_bind H. injection H as <-. simpl. f_equal. apply IH.
    reflexivity.
Qed.

(** ** The first-loop filter *)

Lemma window_In (len : nat) (group : list nat) (k : nat) :
  In k (window len group) <->
  (group_min group - 50 <= k < group_min group + 50)%nat /\ (k < len)%nat.
Proof.
  unfold window, range. rewrite in_seq. lia.
Qed.

Lemma in_window_spec (group : list nat) (k : nat) :
  in_window group k = true <->
  (group_min group - 50 <= k < group_min group + 50)%nat.
Proof.
  unfold in_window. rewrite andb_true_iff, Nat.leb_le, Nat.ltb_lt. tauto.
Qed.

Lemma keep_indices_from_In (len : nat) (groups : list (list nat)) :
  forall (s : list nat) (k : nat),
    In k (fold_left (fun s group =>
                       match group with
                       | [] => s
                       | _ => set_update s (window len group)
                       end) groups s) <->
    In k s \/ exists g, In g groups /\ g <> [] /\ In k (window len g).
Proof.
  induction groups as [|g groups IH]; intros s k; simpl.
  - split; [tauto|]. intros [H|[g [[] _]]]. exact H.
  - rewrite IH. destruct g as [|x g'].
    + split.
      * intros [H|[g [Hg Hk]]]; [tauto|]. right. exists g. tauto.
      * intros [H|[g [[<-|Hg] [Hne Hk]]]]; [tauto|congruence|].
        right. exists g. tauto.
    + rewrite set_update_In. split.
      * intros [[H|H]|[g [Hg Hk]]]; [tauto| |].
        -- right. exists (x :: g'). split; [tauto|]. split; [discriminate|exact H].
        -- right. exists g. tauto.
      * intros [H|[g [[<-|Hg] [Hne Hk]]]]; [tauto|tauto|].
        right. exists g. tauto.
Qed.

Lemma keep_indices_from_NoDup (len : nat) (groups : list (list nat)) :
  forall s : list nat,
    NoDup s ->
    NoDup (fold_left (fun s group =>
                        match group with
                        | [] => s
                        | _ => set_update s (window len group)
                        end) groups s).
Proof.
  induction groups as [|g groups IH]; intros s Hs; simpl.
  - exact Hs.
  - apply IH. destruct g; [exact Hs|]. apply set_update_NoDup. exact Hs.
Qed.

(** The kept indices, listed in order, are the indices of the series
    that lie in the window of some group. *)
Lemma keep_list_filter (len : nat) (groups : list (list nat)) :
  Forall (fun g => g <> []) groups ->
  sorted_nat (keep_indices_of len groups)
  = filter (in_some_window groups) (seq 0 len).
Proof.
  intros Hne. apply sorted_lt_ext.
  - apply sorted_nat_sorted. apply keep_indices_from_NoDup. constructor.
  - apply filter_sorted, seq_sorted.
  - intros k. rewrite sorted_nat_In. unfold keep_indices_of.
    rewrite keep_indices_from_In, filter_In, in_seq.
    unfold in_some_window. rewrite existsb_exists.
    rewrite Forall_forall in Hne. split.
    + intros [[]|[g [Hg [_ Hk]]]]. apply window_In in Hk.
      split; [lia|]. exists g. split; [exact Hg|].
      apply in_window_spec. tauto.
    + intros [Hk [g [Hg Hw]]]. right. exists g.
      split; [exact Hg|]. split; [apply Hne; exact Hg|].
      apply window_In. apply in_window_spec in Hw. lia.
Qed.

(** *** The groups *)

Lemma group_fold_spec (pi : list nat) (pv : list Q) (i : nat) (js : list nat) :
  Forall (fun j => (i < j < length pi)%nat) js ->
  forall group used group' used',
    fold_left (group_step pi pv (nth i pv 0)) js (group, used) = (group', used') ->
    exists extra,
      group' = group ++ extra /\
      Forall (fun m => exists j,
                  (i < j < length pi)%nat /\
                  m = nth j pi 0%nat /\
                  Qabs (nth j pv 0 - nth i pv 0) <= tolerance * nth i pv 0) extra.
Proof.
  induction js as [|j js IH]; intros Hjs group used group' used' H.
  - simpl in H. injection H as <- <-. exists []. rewrite app_nil_r.
    split; [reflexivity | constructor].
  - inversion Hjs as [|? ? Hj Hrest]; subst.
    cbn [fold_left] in H. unfold group_step at 2 in H.
    destruct (mem j used).
    + apply (IH Hrest) in H. exact H.
    + destruct (Qle_bool (Qabs (nth j pv 0 - nth i pv 0))
                  (tolerance * nth i pv 0)) eqn:E.
      * apply (IH Hrest) in H. destruct H as [extra [-> Hex]].
        exists (nth j pi 0%nat :: extra). rewrite <- app_assoc. simpl.
        split; [reflexivity|]. constructor; [|exact Hex].
        exists j. split; [exact Hj|]. split; [reflexivity|].
        apply Qle_bool_iff. exact E.
      * apply (IH Hrest) in H. exact H.
Qed.

Lemma groups_fold_spec (pi : list nat) (pv : list Q) (ids : list nat) :
  Forall (fun i => (i < length pi)%nat) ids ->
  forall groups used,
    Forall (group_of pi pv) groups ->
    Forall (group_of pi pv)
      (fst (fold_left (groups_step pi pv) ids (groups, used))).
Proof.
  induction ids as [|i ids IH]; intros His groups used Hg.
  - exact Hg.
  - inversion His as [|? ? Hi Hrest]; subst.
    cbn [fold_left]. unfold groups_step at 2.
    destruct (mem i used); [apply IH; assumption|].
    destruct (fold_left (group_step pi pv (nth i pv 0))
                (seq (S i) (length pi - S i)) ([nth i pi 0%nat], used))
      as [group used'] eqn:E.
    apply IH; [exact Hrest|].
    apply Forall_app. split; [exact Hg|].
    constructor; [|constructor].
    apply group_fold_spec in E.
    + destruct E as [extra [-> Hex]].
      exists i, extra. split; [reflexivity|]. split; [exact Hi | exact Hex].
    + apply Forall_forall. intros j Hj. apply in_seq in Hj. lia.
Qed.

Lemma peak_groups_spec (displacement : list Q) :
  Forall (group_of (peaks_indices_of displacement)
            (map (fun i => nth i (np_abs displacement) 0)
               (peaks_indices_of displacement)))
    (peak_groups displacement).
Proof.
  unfold peak_groups. apply groups_fold_spec.
  - apply Forall_forall. intros i Hi. apply in_seq in Hi. lia.
  - constructor.
Qed.

Lemma sorted_nth_lt (l : list nat) :
  StronglySorted lt l ->
  forall i j, (i < j < length l)%nat -> (nth i l 0 < nth j l 0)%nat.
Proof.
  induction 1 as [|a l Hs IH Ha]; intros i j Hij.
  - simpl in Hij. lia.
  - destruct j as [|j]; [lia|]. simpl in Hij.
    destruct i as [|i]; simpl.
    + rewrite Forall_forall in Ha. apply Ha. apply nth_In. lia.
    + apply IH. lia.
Qed.

Lemma fold_min_first (rest : list nat) (x : nat) :
  Forall (fun m => (x < m)%nat) rest -> fold_left Nat.min rest x = x.
Proof.
  induction rest as [|y rest IH]; intros H; simpl.
  - reflexivity.
  - inversion H; subst. rewrite Nat.min_l by lia. apply IH. assumption.
Qed.

Lemma peaks_indices_sorted (displacement : list Q) :
  StronglySorted lt (peaks_indices_of displacement).
Proof.
  unfold peaks_indices_of, inner_range. apply filter_sorted, seq_sorted.
Qed.

Lemma peaks_indices_In (displacement : list Q) (i : nat) :
  In i (peaks_indices_of displacement) <->
  (1 <= i < length displacement - 1)%nat /\
  Qabs (nth (i - 1) displacement 0) < Qabs (nth i displacement 0) /\
  Qabs (nth (i + 1) displacement 0) < Qabs (nth i displacement 0).
Proof.
  unfold peaks_indices_of, inner_range, strict_local_max, np_abs.
  rewrite filter_In, in_seq, andb_true_iff, !Qgtb_gt.
  change 0 with (Qabs 0) at 1 2 3 4.
  rewrite !map_nth. split; intros H; (split; [lia | tauto]).
Qed.

Lemma groups_fold_grows (pi : list nat) (pv : list Q) (ids : list nat) :
  forall groups used,
    (length groups
     <= length (fst (fold_left (groups_step pi pv) ids (groups, used))))%nat.
Proof.
  induction ids as [|i ids IH]; intros groups used.
  - simpl. lia.
  - cbn [fold_left]. unfold groups_step at 2.
    destruct (mem i used); [apply IH|].
    destruct (fold_left (group_step pi pv (nth i pv 0))
                (seq (S i) (length pi - S i)) ([nth i pi 0%nat], used))
      as [group used'].
    etransitivity; [|apply IH]. rewrite length_app. simpl. lia.
Qed.

Lemma peak_groups_nonempty (displacement : list Q) :
  peaks_indices_of displacement <> [] -> peak_groups displacement <> [].
Proof.
  intros Hne. unfold peak_groups.
  destruct (peaks_indices_of displacement) as [|p ps] eqn:E; [congruence|].
  cbn [length seq fold_left]. unfold groups_step at 2. cbn [mem existsb].
  match goal with
  | |- context [fold_left (group_step ?a ?b ?c) ?js ?st] =>
      destruct (fold_left (group_step a b c) js st) as [group used']
  end.
  match goal with
  | |- fst (fold_left ?f ?ids (?g, ?u)) <> [] =>
      pose proof (groups_fold_grows (p :: ps)
                    (map (fun i => nth i (np_abs displacement) 0) (p :: ps))
                    ids g u) as Hlen
  end.
  intros Hnil. rewrite Hnil in Hlen. simpl in Hlen. lia.
Qed.

(** Every group starts with its smallest index, which is a peak, and
    gathers later peaks whose magnitude is within 8% of the first. *)
Lemma peak_groups_shape (displacement : list Q) :
  Forall (fun g => exists first others,
              g = first :: others /\
              group_min g = first /\
              In first (peaks_indices_of displacement) /\
              Forall (fun m =>
                        In m (peaks_indices_of displacement) /\
                        (first < m)%nat /\
                        Qabs (Qabs (nth m displacement 0)
                              - Qabs (nth first displacement 0))
                        <= tolerance * Qabs (nth first displacement 0)) others)
    (peak_groups displacement).
Proof.
  pose proof (peak_groups_spec displacement) as H.
  pose proof (peaks_indices_sorted displacement) as Hs.
  set (pi := peaks_indices_of displacement) in *.
  eapply Forall_impl; [|exact H]. clear H.
  intros g [i [others [-> [Hi Ho]]]].
  assert (forall j, (j < length pi)%nat ->
            nth j (map (fun i => nth i (np_abs displacement) 0) pi) 0
            = Qabs (nth (nth j pi 0%nat) displacement 0)) as Hv.
  { intros j Hj.
    pose proof (map_nth (fun i => nth i (np_abs displacement) 0) pi 0%nat j)
      as Hm.
    cbv beta in Hm.
    rewrite (nth_indep _ 0 (nth 0%nat (np_abs displacement) 0))
      by (rewrite length_map; exact Hj).
    rewrite Hm. unfold np_abs.
    change 0 with (Qabs 0) at 1. rewrite map_nth. reflexivity. }
  assert (Forall (fun m => (nth i pi 0 < m)%nat) others) as Hlt.
  { eapply Forall_impl; [|exact Ho]. simpl.
    intros m [j [Hj [-> _]]]. apply sorted_nth_lt; [exact Hs | lia]. }
  exists (nth i pi 0%nat), others.
  split; [reflexivity|]. split; [apply fold_min_first; exact Hlt|].
  split; [apply nth_In; exact Hi|].
  apply Forall_forall. intros m Hm.
  rewrite Forall_forall in Ho, Hlt.
  destruct (Ho m Hm) as [j [Hj [-> Hc]]].
  split; [apply nth_In; lia|]. split; [apply Hlt; exact Hm|].
  rewrite (Hv j), (Hv i) in Hc by lia. exact Hc.
Qed.

(** ** Loop segmentation *)

Lemma loops_between_area (displacement force : list Q) (peaks : list peak) :
  forall loops,
    loops_between displacement force peaks = Some loops ->
    Forall (fun l => calculate_loop_area (l_displacement l) (l_force l)
                     = Some (l_area l)) loops.
Proof.
  induction peaks as [|p rest IH]; intros loops H.
  - simpl in H. injection H as <-. constructor.
  - destruct rest as [|q rest'].
    + simpl in H. injection H as <-. constructor.
    + cbn [loops_between] in H.
      destruct (2 <? length (slice displacement (p_index p) (p_index q + 1)))%nat.
      * inv_bind H. inv_bind H. injection H as <-.
        constructor; [|apply IH; assumption].
        simpl. exact E.
      * apply IH. exact H.
Qed.

Lemma loops_between_cons (displacement force : list Q) (p q : peak)
    (rest : list peak) :
  loops_between displacement force (p :: q :: rest)
  = let loop_disp := slice displacement (p_index p) (p_index q + 1) in
    let loop_force := slice force (p_index p) (p_index q + 1) in
    if (2 <? length loop_disp)%nat then
      area <- calculate_loop_area loop_disp loop_force ;;
      loops <- loops_between displacement force (q :: rest) ;;
      Some (mk_loop loop_disp loop_force (p_disp p) (p_force p) area (p_type p)
              :: loops)
    else loops_between displacement force (q :: rest).
Proof. reflexivity. Qed.

Lemma slice_length_le (a b : list Q) (start stop : nat) :
  (length a <= length b)%nat ->
  (length (slice a start stop) <= length (slice b start stop))%nat.
Proof.
  unfold slice. intros H. rewrite !length_firstn, !length_skipn. lia.
Qed.

Lemma loops_between_total (displacement force : list Q) (peaks : list peak) :
  (length displacement <= length force)%nat ->
  exists loops, loops_between displacement force peaks = Some loops.
Proof.
  intros Hlen. induction peaks as [|p rest IH].
  - simpl. eauto.
  - destruct rest as [|q rest'].
    + simpl. eauto.
    + rewrite loops_between_cons. cbv zeta. destruct IH as [loops IH].
      destruct (2 <? length (slice displacement (p_index p) (p_index q + 1)))%nat.
      * destruct (calculate_loop_area_total
                    (slice displacement (p_index p) (p_index q + 1))
                    (slice force (p_index p) (p_index q + 1))) as [a Ha].
        { apply slice_length_le. exact Hlen. }
        rewrite Ha. cbn [bind]. rewrite IH. cbn [bind]. eauto.
      * eauto.
Qed.

Lemma loop_peaks_total (displacement force : list Q) (idx : list nat) :
  Forall (fun i => (i < length force)%nat) idx ->
  exists peaks, loop_peaks_from displacement force idx = Some peaks.
Proof.
  induction idx as [|i rest IH]; intros H.
  - simpl. eauto.
  - inversion H as [|? ? Hi Hrest]; subst.
    destruct (IH Hrest) as [peaks Hp].
    cbn [loop_peaks_from]. rewrite (nth_error_nth' force 0 Hi), Hp.
    destruct (strict_local_max displacement i).
    + destruct (Qgtb (nth i displacement 0) 0); cbn [bind]; eauto.
    + destruct (strict_local_min displacement i); [|eauto].
      destruct (Qltb (nth i displacement 0) 0); cbn [bind]; eauto.
Qed.

Lemma peak_groups_no_empty (displacement : list Q) :
  Forall (fun g => g <> []) (peak_groups displacement).
Proof.
  eapply Forall_impl; [|apply peak_groups_shape].
  intros g [first [others [-> _]]]. discriminate.
Qed.

Lemma keep_list_of_filter (displacement : list Q) :
  keep_list_of displacement
  = filter (in_some_window (peak_groups displacement))
      (seq 0 (length displacement)).
Proof.
  unfold keep_list_of. apply keep_list_filter, peak_groups_no_empty.
Qed.

(** With at least one peak the filter returns the samples whose index
    lies in the window of some group, in index order. *)
Lemma filter_first_loops_result (displacement force : list Q) :
  length displacement = length force ->
  peaks_indices_of displacement <> [] ->
  filter_first_loops displacement force
  = Some (map (fun k => nth k displacement 0) (keep_list_of displacement),
          map (fun k => nth k force 0) (keep_list_of displacement)).
Proof.
  intros Hlen Hne. unfold filter_first_loops.
  destruct (peaks_indices_of displacement) as [|p ps] eqn:Ep; [congruence|].
  assert (exists k, In k (keep_list_of displacement)) as [k Hk].
  { pose proof (peak_groups_shape displacement) as Hshape.
    pose proof (peak_groups_nonempty displacement) as Hg.
    rewrite Ep in Hg.
    destruct (peak_groups displacement) as [|g gs] eqn:Eg;
      [exfalso; apply Hg; [discriminate | reflexivity]|].
    inversion Hshape as [|? ? [first [others [-> [Hmin [Hin _]]]]] _]; subst.
    exists first. rewrite keep_list_of_filter, Eg.
    apply filter_In. apply peaks_indices_In in Hin. split.
    - apply in_seq. lia.
    - cbn [in_some_window existsb]. apply orb_true_iff. left.
      apply in_window_spec. rewrite Hmin. lia. }
  destruct (keep_indices_of (length displacement) (peak_groups displacement))
    as [|k0 ks] eqn:Ek.
  { unfold keep_list_of in Hk. rewrite Ek in Hk. destruct Hk. }
  assert (Forall (fun i => (i < length displacement)%nat)
            (keep_list_of displacement)) as Hrange.
  { apply Forall_forall. intros i Hi. rewrite keep_list_of_filter in Hi.
    apply filter_In in Hi. destruct Hi as [Hi _]. apply in_seq in Hi. lia. }
  rewrite (take_indices_nth displacement _ Hrange). cbn [bind].
  rewrite Hlen in Hrange.
  rewrite (take_indices_nth force _ Hrange). reflexivity.
Qed.

Lemma filter_first_loops_lengths (displacement force d' f' : list Q) :
  length displacement = length force ->
  filter_first_loops displacement force = Some (d', f') ->
  length d' = length f'.
Proof.
  intros Hlen H.
  destruct (peaks_indices_of displacement) as [|p ps] eqn:Ep.
  - unfold filter_first_loops in H. rewrite Ep in H.
    injection H as <- <-. exact Hlen.
  - rewrite filter_first_loops_result in H by (congruence).
    injection H as <- <-. rewrite !length_map. reflexivity.
Qed.

Lemma filter_first_loops_total (displacement force : list Q) :
  length displacement = length force ->
  exists d' f', filter_first_loops displacement force = Some (d', f').
Proof.
  intros Hlen.
  destruct (peaks_indices_of displacement) as [|p ps] eqn:Ep.
  - unfold filter_first_loops. rewrite Ep. eauto.
  - rewrite filter_first_loops_result by congruence. eauto.
Qed.

Lemma extract_hysteresis_loops_total (filter_first_loop : bool)
    (displacement force : list Q) :
  length displacement = length force ->
  exists loops,
    extract_hysteresis_loops filter_first_loop displacement force = Some loops.
Proof.
  intros Hlen. unfold extract_hysteresis_loops.
  assert (exists d' f',
            (if filter_first_loop
             then filter_first_loops displacement force
             else Some (displacement, force)) = Some (d', f') /\
            length d' = length f') as [d' [f' [Hs Hlen']]].
  { destruct filter_first_loop.
    - destruct (filter_first_loops_total displacement force Hlen)
        as [d' [f' Hf]].
      exists d', f'. split; [exact Hf|].
      eapply filter_first_loops_lengths; eassumption.
    - exists displacement, force. split; [reflexivity | exact Hlen]. }
  rewrite Hs. cbn [bind].
  destruct (loop_peaks_total d' f' (inner_range d')) as [peaks Hp].
  { apply Forall_forall. intros i Hi. unfold inner_range in Hi.
    apply in_seq in Hi. lia. }
  rewrite Hp. cbn [bind].
  apply loops_between_total. lia.
Qed.

(** C3: for every input, every loop that segmentation returns has a
    non-negative area, the absolute value of the signed trapezoidal
    integral of force over displacement along the loop; and segmentation
    does return its loops for every series of aligned samples, with or
    without the first-loop filter. *)
Theorem loop_area_nonneg (filter_first_loop : bool) (displacement force : list Q) :
  (forall loops,
      extract_hysteresis_loops filter_first_loop displacement force = Some loops ->
      Forall (fun l =>
                0 <= l_area l /\
                calculate_loop_area (l_displacement l) (l_force l)
                = Some (l_area l) /\
                l_area l == Qabs (trapezoid_integral (l_displacement l)
                                    (l_force l)))
        loops) /\
  (length displacement = length force ->
   exists loops,
     extract_hysteresis_loops filter_first_loop displacement force = Some loops).
Proof.
  split; [|apply extract_hysteresis_loops_total].
  intros loops H. unfold extract_hysteresis_loops in H.
  inv_bind H. destruct x as [d' f']. inv_bind H.
  eapply Forall_impl; [|eapply loops_between_area; exact H].
  intros l Ha. cbv beta in Ha.
  destruct (calculate_loop_area_spec _ _ _ Ha) as [H0 Hq]. auto.
Qed.

(** [loop_area_nonneg] on the scenario of the specification: the loop
    between the two peaks has area 10. *)
Lemma loop_area_nonneg_witness :
  exists loops,
    extract_hysteresis_loops false
      [0; 2; 4; 2; 0; -(2); -(4); -(2); 0]
      [0; 10; 20; 15; 0; -(10); -(20); -(15); 0] = Some loops /\
    Forall (fun l => 0 <= l_area l) loops.
Proof.
  destruct (loop_area_nonneg false
              [0; 2; 4; 2; 0; -(2); -(4); -(2); 0]
              [0; 10; 20; 15; 0; -(10); -(20); -(15); 0]) as [Hok Htotal].
  destruct Htotal as [loops Hl]; [reflexivity|].
  exists loops. split; [exact Hl|].
  eapply Forall_impl; [|apply Hok; exact Hl].
  intros l [H0 _]. exact H0.
Defined.

(** C8, as stated, fails: on a series of 52 samples whose only peak is
    at index 1 the filter keeps the indices 0 to 50 and drops index
    51 = 1 + 50, which the closed window of the statement contains. *)
Lemma filter_window_closed_counterexample :
  let displacement := 0 :: 1 :: repeat 0 50 in
  peaks_indices_of displacement = [1%nat] /\
  keep_list_of displacement = seq 0 51 /\
  spec_keep_list displacement = seq 0 52 /\
  keep_list_of displacement <> spec_keep_list displacement /\
  filter_first_loops displacement displacement
  = Some (firstn 51 displacement, firstn 51 displacement).
Proof.
  cbv zeta.
  assert (keep_list_of (0 :: 1 :: repeat 0 50) = seq 0 51) as Hk
      by (vm_compute; reflexivity).
  assert (spec_keep_list (0 :: 1 :: repeat 0 50) = seq 0 52) as Hs
      by (vm_compute; reflexivity).
  split; [vm_compute; reflexivity|].
  split; [exact Hk|]. split; [exact Hs|].
  split; [rewrite Hk, Hs; discriminate|].
  vm_compute. reflexivity.
Qed.

(** ** Skeleton extraction *)

Lemma branch_inv_origin (f0 : Q) : branch_inv 0 (mk_branch [0] [f0]).
Proof.
  split; [split|].
  - reflexivity.
  - intros i Hi. simpl in Hi. lia.
  - reflexivity.
Qed.

Lemma branch_inv_append (m d f : Q) (b : branch) :
  branch_inv m b -> Qabs m < Qabs d -> branch_inv d (branch_append b d f).
Proof.
  intros [[H0 Hinc] Hlast] Hlt.
  destruct b as [l lf]. simpl in *.
  assert (length l <> 0)%nat as Hne by (destruct l; [discriminate | simpl; lia]).
  split; [split|]; simpl.
  - destruct l; [discriminate | exact H0].
  - intros i Hi. rewrite length_app in Hi. simpl in Hi.
    destruct (Nat.eq_dec i (length l)) as [->|Hn].
    + rewrite (app_nth1 l [d] 0) by lia.
      rewrite (app_nth2 l [d] 0) by lia.
      rewrite Nat.sub_diag. simpl. rewrite Hlast. exact Hlt.
    + rewrite !(app_nth1 l [d] 0) by lia. apply Hinc. lia.
  - rewrite length_app. simpl.
    rewrite (app_nth2 l [d] 0) by lia.
    replace (length l + 1 - 1 - length l)%nat with 0%nat by lia. reflexivity.
Qed.

Lemma pos_envelope_inv (displacement force : list Q) (thr fthr : Q) :
  0 < thr ->
  forall idx m b r,
    0 <= m -> branch_inv m b ->
    pos_envelope_from displacement force thr fthr idx m b = Some r ->
    skeleton_branch_ok r.
Proof.
  intros Hthr. induction idx as [|i rest IH]; intros m b r Hm Hb H.
  - simpl in H. injection H as <-. apply Hb.
  - cbn [pos_envelope_from] in H.
    destruct (Qgtb (nth i displacement 0) thr
              && Qgtb (nth i displacement 0) (m + thr * (1 # 10))) eqn:E.
    + apply andb_true_iff in E. destruct E as [E1 E2].
      apply Qgtb_gt in E1, E2.
      inv_bind H.
      destruct (Qgtb (Qabs x) fthr).
      * refine (IH _ _ _ _ _ H); [lra|].
        apply (branch_inv_append m); [exact Hb|].
        rewrite !Qabs_pos by lra. lra.
      * eapply IH; eassumption.
    + eapply IH; eassumption.
Qed.

Lemma neg_envelope_inv (displacement force : list Q) (thr fthr : Q) :
  0 < thr ->
  forall idx m b r,
    m <= 0 -> branch_inv m b ->
    neg_envelope_from displacement force thr fthr idx m b = Some r ->
    skeleton_branch_ok r.
Proof.
  intros Hthr. induction idx as [|i rest IH]; intros m b r Hm Hb H.
  - simpl in H. injection H as <-. apply Hb.
  - cbn [neg_envelope_from] in H.
    destruct (Qltb (nth i displacement 0) (- thr)
              && Qltb (nth i displacement 0) (m - thr * (1 # 10))) eqn:E.
    + apply andb_true_iff in E. destruct E as [E1 E2].
      apply Qltb_lt in E1, E2.
      inv_bind H.
      destruct (Qgtb (Qabs x) fthr).
      * refine (IH _ _ _ _ _ H); [lra|].
        apply (branch_inv_append m); [exact Hb|].
        rewrite !Qabs_neg by lra. lra.
      * eapply IH; eassumption.
    + eapply IH; eassumption.
Qed.

Lemma link_pos_inv (thr : Q) :
  0 < thr ->
  forall peaks m b,
    0 <= m -> branch_inv m b ->
    skeleton_branch_ok (snd (fold_left (link_pos thr) peaks (m, b))).
Proof.
  intros Hthr. induction peaks as [|p rest IH]; intros m b Hm Hb.
  - apply Hb.
  - cbn [fold_left]. unfold link_pos at 2.
    destruct (Qgtb (p_disp p) (m + thr * (1 # 10))) eqn:E.
    + apply Qgtb_gt in E. apply IH; [lra|].
      apply (branch_inv_append m); [exact Hb|].
      rewrite !Qabs_pos by lra. lra.
    + apply IH; assumption.
Qed.

Lemma link_neg_inv (thr : Q) :
  0 < thr ->
  forall peaks m b,
    branch_inv m b ->
    skeleton_branch_ok (snd (fold_left (link_neg thr) peaks (m, b))).
Proof.
  intros Hthr. induction peaks as [|p rest IH]; intros m b Hb.
  - apply Hb.
  - cbn [fold_left]. unfold link_neg at 2.
    destruct (Qgtb (Qabs (p_disp p)) (Qabs m + thr * (1 # 10))) eqn:E.
    + apply Qgtb_gt in E. apply IH.
      apply (branch_inv_append m); [exact Hb | lra].
    + apply IH; assumption.
Qed.

Lemma threshold_pos (floor v : Q) : 0 < floor -> 0 < py_max floor v.
Proof.
  intros H. pose proof (py_max_ge_l floor v). lra.
Qed.

(** *** The extractions return *)

Lemma np_max_total (a : list Q) : a <> [] -> exists m, np_max a = Some m.
Proof.
  destruct a; [congruence|]. simpl. eauto.
Qed.

Lemma np_abs_nonempty (a : list Q) : a <> [] -> np_abs a <> [].
Proof.
  destruct a; [congruence | discriminate].
Qed.

Lemma pos_envelope_total (displacement force : list Q) (thr fthr : Q) :
  forall idx m b,
    Forall (fun i => (i < length force)%nat) idx ->
    exists r, pos_envelope_from displacement force thr fthr idx m b = Some r.
Proof.
  induction idx as [|i rest IH]; intros m b H.
  - simpl. eauto.
  - inversion H as [|? ? Hi Hrest]; subst. cbn [pos_envelope_from].
    rewrite (nth_error_nth' force 0 Hi). cbn [bind].
    destruct (_ && _); [|apply IH; exact Hrest].
    destruct (Qgtb _ fthr); apply IH; exact Hrest.
Qed.

Lemma neg_envelope_total (displacement force : list Q) (thr fthr : Q) :
  forall idx m b,
    Forall (fun i => (i < length force)%nat) idx ->
    exists r, neg_envelope_from displacement force thr fthr idx m b = Some r.
Proof.
  induction idx as [|i rest IH]; intros m b H.
  - simpl. eauto.
  - inversion H as [|? ? Hi Hrest]; subst. cbn [neg_envelope_from].
    rewrite (nth_error_nth' force 0 Hi). cbn [bind].
    destruct (_ && _); [|apply IH; exact Hrest].
    destruct (Qgtb _ fthr); apply IH; exact Hrest.
Qed.

Lemma all_peaks_total (displacement force : list Q) (thr : Q) (idx : list nat) :
  Forall (fun i => (i < length force)%nat) idx ->
  exists peaks,
    all_peaks_from displacement force thr idx = Some peaks /\
    Forall (fun p => In (p_index p) idx) peaks.
Proof.
  induction idx as [|i rest IH]; intros H.
  - simpl. eauto.
  - inversion H as [|? ? Hi Hrest]; subst.
    destruct (IH Hrest) as [peaks [Hp Hin]].
    assert (Forall (fun p => In (p_index p) (i :: rest)) peaks) as Hin'.
    { eapply Forall_impl; [|exact Hin]. simpl. auto. }
    cbn [all_peaks_from]. rewrite (nth_error_nth' force 0 Hi), Hp. cbn [bind].
    destruct (_ && _).
    + eexists. split; [reflexivity|]. constructor; [left; reflexivity | exact Hin'].
    + destruct (_ && _).
      * eexists. split; [reflexivity|].
        constructor; [left; reflexivity | exact Hin'].
      * eauto.
Qed.

Lemma crossing_total (displacement force : list Q) (idx : list nat) :
  Forall (fun j => (j + 1 < length displacement)%nat
                   /\ (j + 1 < length force)%nat) idx ->
  exists r, crossing_from displacement force idx = Some r.
Proof.
  induction idx as [|j rest IH]; intros H.
  - simpl. eauto.
  - inversion H as [|? ? [Hd Hf] Hrest]; subst.
    destruct (IH Hrest) as [r Hr]. cbn [crossing_from].
    rewrite (nth_error_nth' displacement 0) by lia.
    rewrite (nth_error_nth' displacement 0 Hd).
    rewrite (nth_error_nth' force 0) by lia.
    rewrite (nth_error_nth' force 0 Hf).
    cbn [bind]. rewrite Hr.
    destruct (Qle_bool _ _); [|eauto].
    destruct (Qgtb _ _); [|eauto].
    destruct (negb _); eauto.
Qed.

Lemma common_y_intercept_total (displacement force : list Q) (peaks : list peak) :
  length displacement = length force ->
  Forall (fun p => In (p_index p) (inner_range displacement)) peaks ->
  exists r, common_y_intercept_of displacement force peaks = Some r.
Proof.
  intros Hlen Hin. unfold common_y_intercept_of.
  destruct (first_neg_peak_idx peaks) as [start_search|]; [|eauto].
  destruct (second_pos_peak_idx peaks) as [end_search|] eqn:E; [|eauto].
  apply crossing_total.
  unfold second_pos_peak_idx in E.
  destruct (nth_error (filter is_positive peaks) 1) as [p|] eqn:Ep;
    [|discriminate].
  injection E as <-.
  apply nth_error_In, filter_In in Ep. destruct Ep as [Ep _].
  rewrite Forall_forall in Hin. apply Hin in Ep.
  unfold inner_range in Ep. apply in_seq in Ep.
  apply Forall_forall. intros j Hj. unfold range in Hj. apply in_seq in Hj.
  lia.
Qed.

Lemma extract_skeleton_curve_ok (method : skeleton_method)
    (displacement force : list Q) (sk : skeleton_curve) :
  extract_skeleton_curve method displacement force = Some sk ->
  skeleton_branch_ok (sk_positive sk) /\ skeleton_branch_ok (sk_negative sk).
Proof.
  destruct method; simpl; intros H.
  - unfold extract_outer_envelope in H.
    inv_bind H. inv_bind H. inv_bind H. inv_bind H. injection H as <-. simpl.
    split.
    + eapply pos_envelope_inv; [| | |eassumption];
        [apply threshold_pos; reflexivity | lra | apply branch_inv_origin].
    + eapply neg_envelope_inv; [| | |eassumption];
        [apply threshold_pos; reflexivity | lra | apply branch_inv_origin].
  - unfold extract_peak_points in H.
    inv_bind H. inv_bind H. inv_bind H. injection H as <-. simpl.
    split.
    + apply link_pos_inv; [apply threshold_pos; reflexivity | lra |].
      destruct x1; apply branch_inv_origin.
    + apply link_neg_inv; [apply threshold_pos; reflexivity |].
      destruct x1; apply branch_inv_origin.
Qed.

Lemma extract_skeleton_curve_total (method : skeleton_method)
    (displacement force : list Q) :
  displacement <> [] ->
  length displacement = length force ->
  exists sk, extract_skeleton_curve method displacement force = Some sk.
Proof.
  intros Hne Hlen.
  assert (force <> []) as Hnf by (destruct displacement, force; simpl in *; congruence).
  destruct (np_max_total _ (np_abs_nonempty _ Hne)) as [md Hmd].
  destruct (np_max_total _ (np_abs_nonempty _ Hnf)) as [mf Hmf].
  assert (Forall (fun i => (i < length force)%nat) (seq 0 (length displacement)))
    as Hidx.
  { apply Forall_forall. intros i Hi. apply in_seq in Hi. lia. }
  destruct method; simpl.
  - unfold extract_outer_envelope. rewrite Hmd, Hmf. cbn [bind].
    set (thr := py_max (1 # 100) (md * (5 # 1000))).
    set (fthr := py_max (1 # 100) (mf * (1 # 100))).
    destruct (pos_envelope_total displacement force thr fthr _ 0
                (mk_branch [0] [0]) Hidx) as [pos Hpos].
    destruct (neg_envelope_total displacement force thr fthr _ 0
                (mk_branch [0] [0]) Hidx) as [neg Hneg].
    rewrite Hpos, Hneg. cbn [bind]. eauto.
  - unfold extract_peak_points. rewrite Hmd. cbn [bind].
    set (thr := py_max (1 # 100) (md * (1 # 100))).
    destruct (all_peaks_total displacement force thr (inner_range displacement))
      as [peaks [Hp Hin]].
    { apply Forall_forall. intros i Hi. unfold inner_range in Hi.
      apply in_seq in Hi. lia. }
    rewrite Hp. cbn [bind].
    destruct (common_y_intercept_total displacement force peaks Hlen Hin)
      as [c Hc].
    rewrite Hc. cbn [bind]. eauto.
Qed.

(** C1: for both extraction methods and every input, each branch of a
    returned skeleton begins at displacement 0 and its displacement
    grows strictly in magnitude, [|displacement[i]| > |displacement[i-1]|]
    for [i >= 1]; and the extraction does return a skeleton for every
    non-empty series of aligned samples. *)
Theorem skeleton_branches_increasing (method : skeleton_method)
    (displacement force : list Q) :
  (forall sk,
      extract_skeleton_curve method displacement force = Some sk ->
      skeleton_branch_ok (sk_positive sk) /\
      skeleton_branch_ok (sk_negative sk)) /\
  (displacement <> [] ->
   length displacement = length force ->
   exists sk, extract_skeleton_curve method displacement force = Some sk).
Proof.
  split.
  - intros sk. apply extract_skeleton_curve_ok.
  - apply extract_skeleton_curve_total.
Qed.

(** [skeleton_branches_increasing] on the scenario of the
    specification, by the peak-point method. *)
Lemma skeleton_branches_increasing_witness :
  exists sk,
    extract_skeleton_curve peak_points
      [0; 2; 4; 2; 0; -(2); -(4); -(2); 0]
      [0; 10; 20; 15; 0; -(10); -(20); -(15); 0] = Some sk /\
    skeleton_branch_ok (sk_positive sk) /\
    skeleton_branch_ok (sk_negative sk).
Proof.
  destruct (skeleton_branches_increasing peak_points
              [0; 2; 4; 2; 0; -(2); -(4); -(2); 0]
              [0; 10; 20; 15; 0; -(10); -(20); -(15); 0]) as [Hok Htotal].
  destruct Htotal as [sk Hsk]; [discriminate | reflexivity |].
  exists sk. split; [exact Hsk | apply Hok; exact Hsk].
Defined.

(** ** Preprocessing *)

(** *** The dictionary *)

Lemma dict_del_In (key : Q) (d : disp_dict) (e : Q * nat) :
  In e (dict_del key d) <-> In e d /\ ~ fst e == key.
Proof.
  unfold dict_del. rewrite filter_In, negb_true_iff.
  split; intros [H1 H2]; (split; [exact H1|]).
  - intros Heq. apply Qeq_bool_iff in Heq. congruence.
  - destruct (Qeq_bool (fst e) key) eqn:E; [|reflexivity].
    apply Qeq_bool_iff in E. contradiction.
Qed.

Lemma NoDup_map_filter {A B : Type} (g : A -> B) (p : A -> bool) (l : list A) :
  NoDup (map g l) -> NoDup (map g (filter p l)).
Proof.
  induction l as [|a l IH]; simpl; intros H.
  - constructor.
  - inversion H as [|? ? Hn Hl]; subst. destruct (p a); simpl.
    + constructor; [|apply IH; exact Hl].
      intros Hin. apply Hn. apply in_map_iff in Hin.
      destruct Hin as [x [Hx Hf]]. apply filter_In in Hf.
      apply in_map_iff. exists x. tauto.
    + apply IH. exact Hl.
Qed.

Lemma dict_set_In (key : Q) (v : nat) (d : disp_dict) (e : Q * nat) :
  In e (dict_set key v d) -> snd e = v \/ In e d.
Proof.
  induction d as [|[k w] d IH]; simpl.
  - intros [<-|[]]. left. reflexivity.
  - destruct (Qeq_bool k key); simpl.
    + intros [<-|H]; [left; reflexivity | right; right; exact H].
    + intros [<-|H]; [right; left; reflexivity|].
      destruct (IH H) as [Hv|Hin]; [left; exact Hv | right; right; exact Hin].
Qed.

Lemma dict_set_values (key : Q) (v : nat) (d : disp_dict) (x : nat) :
  In x (map snd (dict_set key v d)) -> x = v \/ In x (map snd d).
Proof.
  intros H. apply in_map_iff in H. destruct H as [e [<- He]].
  apply dict_set_In in He. destruct He as [Hv|Hin]; [left; exact Hv|].
  right. apply in_map. exact Hin.
Qed.

Lemma dict_set_NoDup (key : Q) (v : nat) (d : disp_dict) :
  NoDup (map snd d) -> ~ In v (map snd d) ->
  NoDup (map snd (dict_set key v d)).
Proof.
  induction d as [|[k w] d IH]; simpl; intros Hn Hv.
  - constructor; [intros [] | constructor].
  - inversion Hn as [|? ? Hw Hd]; subst.
    destruct (Qeq_bool k key); simpl.
    + constructor; [tauto | exact Hd].
    + constructor; [|apply IH; tauto].
      intros Hin. apply dict_set_values in Hin.
      destruct Hin as [->|Hin]; tauto.
Qed.

(** A key that is not in the dictionary is added last. *)
Lemma dict_set_new (key : Q) (v : nat) (d : disp_dict) :
  (forall e, In e d -> ~ fst e == key) ->
  dict_set key v d = d ++ [(key, v)].
Proof.
  induction d as [|[k w] d IH]; simpl; intros H.
  - reflexivity.
  - destruct (Qeq_bool k key) eqn:E.
    + apply Qeq_bool_iff in E. exfalso. apply (H (k, w)); [left; reflexivity|].
      exact E.
    + rewrite IH; [reflexivity|]. intros e He. apply H. right. exact He.
Qed.

Lemma find_similar_Some (tol cur : Q) (d : disp_dict) (e : Q * nat) :
  find_similar tol cur d = Some e -> In e d /\ Qabs (cur - fst e) <= tol.
Proof.
  unfold find_similar. intros H. apply find_some in H.
  destruct H as [Hin Hp]. apply Qle_bool_iff in Hp. tauto.
Qed.

Lemma find_similar_None (tol cur : Q) (d : disp_dict) :
  find_similar tol cur d = None ->
  forall e, In e d -> ~ Qabs (cur - fst e) <= tol.
Proof.
  unfold find_similar. intros H e He Hle.
  apply (find_none _ _ H) in He. apply Qle_bool_iff in Hle. congruence.
Qed.

(** *** The loop in every case *)

Lemma dict_inv_set (k : nat) (key : Q) (d : disp_dict) :
  dict_inv k d -> dict_inv (S k) (dict_set key k d).
Proof.
  intros [Hlt Hnd]. split.
  - intros e He. apply dict_set_In in He.
    destruct He as [->|He]; [lia|]. apply Hlt in He. lia.
  - apply dict_set_NoDup; [exact Hnd|].
    intros Hin. apply in_map_iff in Hin. destruct Hin as [e [He Hin]].
    apply Hlt in Hin. lia.
Qed.

Lemma dict_inv_del (k : nat) (key : Q) (d : disp_dict) :
  dict_inv k d -> dict_inv k (dict_del key d).
Proof.
  intros [Hlt Hnd]. split.
  - intros e He. apply dict_del_In in He. apply Hlt. tauto.
  - apply NoDup_map_filter. exact Hnd.
Qed.

Lemma dict_inv_weaken (k : nat) (d : disp_dict) :
  dict_inv k d -> dict_inv (S k) d.
Proof.
  intros [Hlt Hnd]. split; [|exact Hnd].
  intros e He. apply Hlt in He. lia.
Qed.

Lemma dedup_step_inv (dc fc : list Q) (tol : Q) (k : nat) (d : disp_dict) :
  length dc = length fc -> (k < length dc)%nat -> dict_inv k d ->
  exists d', dedup_step dc fc tol d k = Some d' /\ dict_inv (S k) d'.
Proof.
  intros Hlen Hk Hinv. unfold dedup_step.
  rewrite (nth_error_nth' dc 0 Hk). cbn [bind].
  rewrite (nth_error_nth' fc 0) by lia. cbn [bind].
  destruct (find_similar tol (nth k dc 0) d) as [[sd sidx]|] eqn:E.
  - apply find_similar_Some in E. destruct E as [Hin _].
    assert (sidx < length fc)%nat as Hs.
    { destruct Hinv as [Hlt _]. apply Hlt in Hin. simpl in Hin. lia. }
    rewrite (nth_error_nth' fc 0 Hs). cbn [bind].
    destruct (Qgtb _ _).
    + eexists. split; [reflexivity|].
      apply dict_inv_set, dict_inv_del. exact Hinv.
    + eexists. split; [reflexivity|]. apply dict_inv_weaken. exact Hinv.
  - eexists. split; [reflexivity|]. apply dict_inv_set. exact Hinv.
Qed.

Lemma dedup_from_inv (dc fc : list Q) (tol : Q) (m : nat) :
  length dc = length fc ->
  forall k d,
    (k + m <= length dc)%nat -> dict_inv k d ->
    exists d', dedup_from dc fc tol (seq k m) d = Some d' /\
               dict_inv (k + m) d'.
Proof.
  intros Hlen. induction m as [|m IH]; intros k d Hk Hinv.
  - simpl. exists d. rewrite Nat.add_0_r. split; [reflexivity | exact Hinv].
  - cbn [seq dedup_from].
    destruct (dedup_step_inv dc fc tol k d Hlen) as [d1 [H1 Hinv1]];
      [lia | exact Hinv |].
    rewrite H1. cbn [bind].
    destruct (IH (S k) d1) as [d' [H' Hinv']]; [lia | exact Hinv1 |].
    exists d'. split; [exact H'|].
    replace (k + S m)%nat with (S k + m)%nat by lia. exact Hinv'.
Qed.

(** The deduplicated indices come back in increasing order: the output
    keeps the time order of the samples. *)
Lemma unique_indices_sorted (dc fc : list Q) (tol : Q) :
  length dc = length fc ->
  exists idx,
    unique_indices_of dc fc tol = Some idx /\
    StronglySorted lt idx /\
    Forall (fun i => (i < length dc)%nat) idx.
Proof.
  intros Hlen. unfold unique_indices_of.
  destruct (dedup_from_inv dc fc tol (length dc) Hlen 0 [])
    as [d [Hd [Hlt Hnd]]].
  - lia.
  - split; [intros e [] | constructor].
  - rewrite Hd. cbn [bind]. eexists. split; [reflexivity|]. split.
    + apply sorted_nat_sorted. exact Hnd.
    + apply Forall_forall. intros i Hi. apply (proj1 (sorted_nat_In _ _)) in Hi.
      apply in_map_iff in Hi. destruct Hi as [e [<- He]].
      apply Hlt in He. lia.
Qed.

(** *** The loop when the groups are well defined *)

Section DedupGroups.

Variables (dc fc : list Q) (tol : Q).
Hypothesis Hlen : length dc = length fc.
Hypothesis Htol : 0 <= tol.
Hypothesis Hgroups : groups_well_defined dc tol.

Lemma near_refl (i : nat) : near dc tol i i.
Proof.
  unfold near. setoid_replace (nth i dc 0 - nth i dc 0) with 0 by ring.
  exact Htol.
Qed.

Lemma near_sym (i j : nat) : near dc tol i j -> near dc tol j i.
Proof.
  unfold near. rewrite (Qabs_Qminus (nth j dc 0)). auto.
Qed.

Lemma near_of_key (k : nat) (e : Q * nat) :
  nth (snd e) dc 0 = fst e ->
  (Qabs (nth k dc 0 - fst e) <= tol <-> near dc tol k (snd e)).
Proof.
  intros He. unfold near. rewrite He. tauto.
Qed.

Lemma near_of_Qeq (k : nat) (e : Q * nat) :
  nth (snd e) dc 0 = fst e -> fst e == nth k dc 0 -> near dc tol k (snd e).
Proof.
  intros He Heq. unfold near. rewrite He.
  setoid_replace (nth k dc 0 - fst e) with 0 by (rewrite Heq; ring).
  exact Htol.
Qed.

(** The sample [k] starts or takes over a group: the entries [d0]
    that remain are not near it, and the entries of [d] that were
    dropped are near it with a smaller force. *)
Lemma dedup_inv_add (k : nat) (d d0 : disp_dict) :
  (k < length dc)%nat ->
  dict_inv k d ->
  dedup_inv dc fc tol k d ->
  (forall e, In e d0 -> In e d) ->
  (forall e, In e d0 -> ~ near dc tol k (snd e)) ->
  (forall e, In e d ->
             In e d0 \/
             (near dc tol k (snd e) /\
              Qabs (nth (snd e) fc 0) < Qabs (nth k fc 0))) ->
  dedup_inv dc fc tol (S k) (d0 ++ [(nth k dc 0, k)]).
Proof.
  intros Hk [Hlt _] [I1 [I2 [I3 I4]]] Hsub Hfar Hdrop.
  assert (forall e, In e d -> (snd e < length dc)%nat) as Hrange.
  { intros e He. apply Hlt in He. lia. }
  split; [|split; [|split]].
  - intros e He. apply in_app_iff in He.
    destruct He as [He|[<-|[]]]; [apply I1, Hsub, He | reflexivity].
  - intros e j He Hj Hn. apply in_app_iff in He.
    destruct He as [He|[<-|[]]].
    + destruct (Nat.eq_dec j k) as [->|Hjk].
      * exfalso. apply (Hfar e He). exact Hn.
      * apply I2; [apply Hsub, He | lia | exact Hn].
    + cbn [snd] in *. destruct (Nat.eq_dec j k) as [->|Hjk].
      * split; [lra | lia].
      * destruct (I3 j) as [e [He Hje]]; [lia|].
        assert (near dc tol k (snd e)) as Hke.
        { apply (Hgroups k j (snd e)); [lia | lia | apply Hrange, He | |exact Hje].
          apply near_sym. exact Hn. }
        destruct (Hdrop e He) as [Hin|[_ Hf]].
        -- exfalso. apply (Hfar e Hin). exact Hke.
        -- destruct (I2 e j He) as [Hle _]; [lia | exact Hje |].
           split; [lra | intros _; lra].
  - intros j Hj. destruct (Nat.eq_dec j k) as [->|Hjk].
    + exists (nth k dc 0, k). split; [apply in_app_iff; right; left; reflexivity|].
      apply near_refl.
    + destruct (I3 j) as [e [He Hje]]; [lia|].
      destruct (Hdrop e He) as [Hin|[Hke _]].
      * exists e. split; [apply in_app_iff; left; exact Hin | exact Hje].
      * exists (nth k dc 0, k).
        split; [apply in_app_iff; right; left; reflexivity|].
        cbn [snd].
        apply (Hgroups j (snd e) k); [lia | apply Hrange, He | lia | exact Hje |].
        apply near_sym. exact Hke.
  - intros e1 e2 H1 H2 Hn. apply in_app_iff in H1, H2.
    destruct H1 as [H1|[<-|[]]]; destruct H2 as [H2|[<-|[]]].
    + apply I4; [apply Hsub, H1 | apply Hsub, H2 | exact Hn].
    + exfalso. apply (Hfar e1 H1). apply near_sym. exact Hn.
    + exfalso. apply (Hfar e2 H2). exact Hn.
    + reflexivity.
Qed.

(** The sample [k] joins the group of the entry [e0] without taking
    it over. *)
Lemma dedup_inv_keep (k : nat) (d : disp_dict) (e0 : Q * nat) :
  (k < length dc)%nat ->
  dict_inv k d ->
  dedup_inv dc fc tol k d ->
  In e0 d -> near dc tol k (snd e0) ->
  Qabs (nth k fc 0) <= Qabs (nth (snd e0) fc 0) ->
  dedup_inv dc fc tol (S k) d.
Proof.
  intros Hk [Hlt _] [I1 [I2 [I3 I4]]] H0 Hn0 Hf.
  assert (forall e, In e d -> (snd e < length dc)%nat) as Hrange.
  { intros e He. apply Hlt in He. lia. }
  split; [exact I1|]. split; [|split; [|exact I4]].
  - intros e j He Hj Hn. destruct (Nat.eq_dec j k) as [->|Hjk].
    + assert (e = e0) as ->.
      { apply I4; [exact He | exact H0 |].
        apply (Hgroups (snd e) k (snd e0));
          [apply Hrange, He | lia | apply Hrange, H0 | | exact Hn0].
        apply near_sym. exact Hn. }
      split; [exact Hf|]. intros Hlt0. apply Hlt in H0. lia.
    + apply I2; [exact He | lia | exact Hn].
  - intros j Hj. destruct (Nat.eq_dec j k) as [->|Hjk].
    + exists e0. split; [exact H0 | exact Hn0].
    + apply I3. lia.
Qed.

Lemma dedup_step_groups (k : nat) (d d' : disp_dict) :
  (k < length dc)%nat ->
  dict_inv k d ->
  dedup_inv dc fc tol k d ->
  dedup_step dc fc tol d k = Some d' ->
  dedup_inv dc fc tol (S k) d'.
Proof.
  intros Hk Hd Hinv H. unfold dedup_step in H.
  rewrite (nth_error_nth' dc 0 Hk) in H. cbn [bind] in H.
  rewrite (nth_error_nth' fc 0) in H by lia. cbn [bind] in H.
  pose proof Hinv as [I1 [I2 [I3 I4]]].
  pose proof Hd as [Hlt _].
  destruct (find_similar tol (nth k dc 0) d) as [[sd sidx]|] eqn:E.
  - apply find_similar_Some in E. destruct E as [Hin Hn].
    apply (near_of_key k (sd, sidx) (I1 _ Hin)) in Hn. cbn [snd] in Hn.
    assert (sidx < k)%nat as Hs by (apply (Hlt _ Hin)).
    rewrite (nth_error_nth' fc 0) in H by lia. cbn [bind] in H.
    destruct (Qgtb (Qabs (nth k fc 0)) (Qabs (nth sidx fc 0))) eqn:Ef.
    + apply Qgtb_gt in Ef. injection H as <-.
      assert (forall e, In e (dict_del sd d) -> ~ near dc tol k (snd e))
        as Hfar.
      { intros e He Hke. apply dict_del_In in He. destruct He as [He Hne].
        apply Hne. replace e with (sd, sidx); [reflexivity|].
        symmetry. apply I4; [exact He | exact Hin |]. cbn [snd].
        apply (Hgroups (snd e) k sidx);
          [apply (Hlt _) in He; lia | lia | lia | | exact Hn].
        apply near_sym. exact Hke. }
      rewrite dict_set_new.
      * apply (dedup_inv_add k d); try assumption.
        -- intros e He. apply dict_del_In in He. tauto.
        -- intros e He. destruct (Qeq_dec (fst e) sd) as [Heq|Hneq].
           ++ right. replace e with (sd, sidx); [cbn [snd]; tauto|].
              symmetry. apply I4; [exact He | exact Hin |]. cbn [snd].
              pose proof (I1 _ Hin) as Hsd. cbn [fst snd] in Hsd.
              unfold near. rewrite (I1 _ He), Hsd.
              setoid_replace (fst e - sd) with 0 by (rewrite Heq; ring).
              exact Htol.
           ++ left. apply dict_del_In. tauto.
      * intros e He Heq. apply (Hfar e He).
        apply near_of_Qeq; [|exact Heq].
        apply I1. apply dict_del_In in He. tauto.
    + apply Qgtb_le in Ef. injection H as <-.
      apply (dedup_inv_keep k d (sd, sidx)); assumption.
  - injection H as <-.
    pose proof (find_similar_None _ _ _ E) as Hnone.
    assert (forall e, In e d -> ~ near dc tol k (snd e)) as Hfar.
    { intros e He Hke. apply (Hnone e He).
      apply (near_of_key k e (I1 _ He)). exact Hke. }
    rewrite dict_set_new.
    + apply (dedup_inv_add k d); try assumption; auto.
    + intros e He Heq. apply (Hfar e He).
      apply near_of_Qeq; [apply I1; exact He | exact Heq].
Qed.

Lemma dedup_from_groups (m : nat) :
  forall k d d',
    (k + m <= length dc)%nat ->
    dict_inv k d -> dedup_inv dc fc tol k d ->
    dedup_from dc fc tol (seq k m) d = Some d' ->
    dedup_inv dc fc tol (k + m) d'.
Proof.
  induction m as [|m IH]; intros k d d' Hk Hd Hinv H.
  - simpl in H. injection H as <-. rewrite Nat.add_0_r. exact Hinv.
  - cbn [seq dedup_from] in H.
    destruct (dedup_step_inv dc fc tol k d Hlen) as [d1 [H1 Hd1]];
      [lia | exact Hd |].
    rewrite H1 in H. cbn [bind] in H.
    replace (k + S m)%nat with (S k + m)%nat by lia.
    apply (IH (S k) d1); [lia | exact Hd1 | | exact H].
    apply (dedup_step_groups k d); [lia | exact Hd | exact Hinv | exact H1].
Qed.

(** The indices kept are the first largest samples of the groups. *)
Lemma unique_indices_groups (idx : list nat) :
  unique_indices_of dc fc tol = Some idx ->
  forall i, In i idx <-> (i < length dc)%nat /\ first_largest dc fc tol i.
Proof.
  unfold unique_indices_of. intros H. inv_bind H. injection H as <-.
  rename x into d.
  destruct (dedup_from_inv dc fc tol (length dc) Hlen 0 [])
    as [d2 [Hd2 Hdict]];
    [lia | split; [intros e [] | constructor] |].
  rewrite E in Hd2. injection Hd2 as <-.
  assert (dedup_inv dc fc tol (0 + length dc) d) as Hinv.
  { apply (dedup_from_groups (length dc) 0 []); [lia | | | exact E].
    - split; [intros e [] | constructor].
    - split; [intros e []|]. split; [intros e j []|].
      split; [intros j Hj; lia | intros e1 e2 []]. }
  simpl in Hinv, Hdict. destruct Hinv as [I1 [I2 [I3 I4]]].
  destruct Hdict as [Hlt _].
  intros i. rewrite sorted_nat_In, in_map_iff. split.
  - intros [e [<- He]]. split; [apply Hlt; exact He|].
    intros j Hj Hn. apply I2; assumption.
  - intros [Hi Hfirst].
    destruct (I3 i Hi) as [e [He Hn]]. exists e. split; [|exact He].
    destruct (I2 e i He Hi Hn) as [Hle Hlt1].
    destruct (Hfirst (snd e)) as [Hle' Hlt2];
      [apply Hlt; exact He | apply near_sym; exact Hn |].
    destruct (Nat.lt_trichotomy (snd e) i) as [Hc|[Hc|Hc]].
    + apply Hlt2 in Hc. lra.
    + exact Hc.
    + apply Hlt1 in Hc. lra.
Qed.

End DedupGroups.

(** *** Snapping and thresholds *)

Lemma snap_prefix_map (thr : Q) (a : list Q) :
  snap_prefix thr (length a) a = Some (map (snap thr) a).
Proof.
  induction a as [|x a IH]; simpl.
  - reflexivity.
  - rewrite IH. reflexivity.
Qed.

Lemma disp_threshold_pos (displacement : list Q) (thr : Q) :
  disp_threshold_of displacement = Some thr -> 0 < thr.
Proof.
  unfold disp_threshold_of. intros H. inv_bind H. inv_bind H.
  injection H as <-. apply threshold_pos. reflexivity.
Qed.

Lemma force_threshold_pos (force : list Q) (thr : Q) :
  force_threshold_of force = Some thr -> 0 < thr.
Proof.
  unfold force_threshold_of. intros H. inv_bind H. inv_bind H.
  injection H as <-. apply threshold_pos. reflexivity.
Qed.

Lemma np_min_total (a : list Q) : a <> [] -> exists m, np_min a = Some m.
Proof.
  destruct a; [congruence|]. simpl. eauto.
Qed.

Lemma disp_threshold_total (displacement : list Q) :
  displacement <> [] -> exists thr, disp_threshold_of displacement = Some thr.
Proof.
  intros Hne. unfold disp_threshold_of.
  destruct (np_max_total _ (np_abs_nonempty _ Hne)) as [hi ->].
  destruct (np_min_total _ (np_abs_nonempty _ Hne)) as [lo ->].
  cbn [bind]. eauto.
Qed.

Lemma force_threshold_total (force : list Q) :
  force <> [] -> exists thr, force_threshold_of force = Some thr.
Proof.
  intros Hne. unfold force_threshold_of.
  destruct (np_max_total _ (np_abs_nonempty _ Hne)) as [hi ->].
  destruct (np_min_total _ (np_abs_nonempty _ Hne)) as [lo ->].
  cbn [bind]. eauto.
Qed.

(** The deduplicated series is the cleaned series read at the kept
    indices. *)
Lemma dedup_series_result (displacement force : list Q) (thr fthr : Q)
    (idx : list nat) :
  length displacement = length force ->
  unique_indices_of (map (snap thr) displacement) (map (snap fthr) force)
    (thr * (1 # 2)) = Some idx ->
  Forall (fun i => (i < length displacement)%nat) idx ->
  dedup_series displacement force thr fthr
  = Some (map (fun i => nth i (map (snap thr) displacement) 0) idx,
          map (fun i => nth i (map (snap fthr) force) 0) idx).
Proof.
  intros Hlen Hidx Hrange. unfold dedup_series.
  rewrite Hlen, snap_prefix_map. cbn [bind]. rewrite Hidx. cbn [bind].
  rewrite take_indices_nth by (rewrite length_map; exact Hrange).
  cbn [bind].
  rewrite take_indices_nth
    by (rewrite length_map, <- Hlen; exact Hrange).
  reflexivity.
Qed.

(** C2, as stated, fails twice over.  The deduplicated series keeps
    the time order of the samples and is not sorted by displacement:
    the displacements [5; 1] come back as [5; 1].  And samples are not
    kept by groups of near displacements when nearness is not
    transitive: of the displacements [1; 1.0004; 1.0008], with forces
    [3; 2; 1] and tolerance 0.0005, the first and the second are near,
    the second and the third are near, the first and the third are
    not; the samples 0 and 2 are kept, although sample 2 has a smaller
    force than sample 1, which is near it. *)
Lemma dedup_order_counterexample :
  (disp_threshold_of [5; 1] = Some (4 # 1000) /\
   force_threshold_of [1; 1] = Some (1 # 100) /\
   dedup_series [5; 1] [1; 1] (4 # 1000) (1 # 100) = Some ([5; 1], [1; 1]) /\
   preprocess_data [5; 1] [1; 1] = Some ([5; 1], [1; 1]) /\
   ~ ascending [5; 1]) /\
  (let displacement := [1; 10004 # 10000; 10008 # 10000] in
   let force := [3; 2; 1] in
   let dc := map (snap (1 # 1000)) displacement in
   let fc := map (snap (1 # 100)) force in
   let tol := (1 # 1000) * (1 # 2) in
   disp_threshold_of displacement = Some (1 # 1000) /\
   force_threshold_of force = Some (1 # 100) /\
   unique_indices_of dc fc tol = Some [0; 2]%nat /\
   dedup_series displacement force (1 # 1000) (1 # 100)
   = Some ([1; 10008 # 10000], [3; 1]) /\
   preprocess_data displacement force = Some ([1; 10008 # 10000], [3; 1]) /\
   near dc tol 0 1 /\ near dc tol 1 2 /\ ~ near dc tol 0 2 /\
   ~ groups_well_defined dc tol /\
   ~ first_largest dc fc tol 2).
Proof.
  split.
  - split; [vm_compute; reflexivity|].
    split; [vm_compute; reflexivity|].
    split; [vm_compute; reflexivity|].
    split; [vm_compute; reflexivity|].
    intros H. specialize (H 0%nat 1%nat). simpl in H.
    assert (5 <= 1) as Hle by (apply H; lia).
    revert Hle. apply Qlt_not_le. reflexivity.
  - cbv zeta.
    assert (near (map (snap (1 # 1000)) [1; 10004 # 10000; 10008 # 10000])
              ((1 # 1000) * (1 # 2)) 0 1) as N01
        by (vm_compute; discriminate).
    assert (near (map (snap (1 # 1000)) [1; 10004 # 10000; 10008 # 10000])
              ((1 # 1000) * (1 # 2)) 1 2) as N12
        by (vm_compute; discriminate).
    assert (~ near (map (snap (1 # 1000)) [1; 10004 # 10000; 10008 # 10000])
                ((1 # 1000) * (1 # 2)) 0 2) as N02
        by (intros H; vm_compute in H; apply H; reflexivity).
    split; [vm_compute; reflexivity|].
    split; [vm_compute; reflexivity|].
    split; [vm_compute; reflexivity|].
    split; [vm_compute; reflexivity|].
    split; [vm_compute; reflexivity|].
    split; [exact N01|]. split; [exact N12|]. split; [exact N02|].
    split.
    + intros H. apply N02. apply (H 0%nat 1%nat 2%nat); simpl; try lia;
        assumption.
    + intros H. destruct (H 1%nat) as [Hle _]; [simpl; lia | exact N12|].
      vm_compute in Hle. apply Hle. reflexivity.
Qed.

(** *** The re-zero step *)

Lemma first_exceeding_spec (thr fthr : Q) (d f : list Q) :
  length d = length f ->
  match first_exceeding thr fthr d f with
  | Some i =>
      (i < length d)%nat /\
      exceeds thr fthr (nth i d 0) (nth i f 0) = true /\
      forall j, (j < i)%nat -> exceeds thr fthr (nth j d 0) (nth j f 0) = false
  | None =>
      forall j, (j < length d)%nat ->
                exceeds thr fthr (nth j d 0) (nth j f 0) = false
  end.
Proof.
  revert f. induction d as [|x d IH]; intros f Hlen.
  - simpl. intros j Hj. lia.
  - destruct f as [|y f]; [discriminate|]. simpl in Hlen.
    cbn [first_exceeding].
    destruct (exceeds thr fthr x y) eqn:E.
    + split; [simpl; lia|]. split; [exact E|]. intros j Hj. lia.
    + specialize (IH f ltac:(lia)).
      destruct (first_exceeding thr fthr d f) as [i|]; cbn [option_map].
      * destruct IH as [Hi [He Hj]]. split; [simpl; lia|].
        split; [exact He|].
        intros [|j] Hlt; [exact E | apply Hj; lia].
      * intros [|j] Hlt; [exact E | apply IH; simpl in Hlt; lia].
Qed.

Lemma loading_start_first_exceeding (thr fthr : Q) (d : list Q) :
  forall f pd pf,
    length pd = length pf -> length d = length f ->
    loading_start_from (pd ++ d) (pf ++ f) thr fthr
      (seq (length pd) (length d))
    = Some (match first_exceeding thr fthr d f with
            | Some i => (length pd + i)%nat
            | None => 0%nat
            end).
Proof.
  induction d as [|x d IH]; intros f pd pf Hp Hlen.
  - reflexivity.
  - destruct f as [|y f]; [discriminate|]. simpl in Hlen.
    cbn [length seq loading_start_from first_exceeding].
    rewrite nth_error_app2, Nat.sub_diag by lia. cbn [nth_error bind].
    rewrite Hp at 2.
    rewrite nth_error_app2, Nat.sub_diag by lia. cbn [nth_error bind].
    unfold exceeds.
    destruct (Qgtb (Qabs x) (thr * 2)); cbn [orb].
    + rewrite Nat.add_0_r. reflexivity.
    + destruct (Qgtb (Qabs y) (fthr * 2)).
      * rewrite Nat.add_0_r. reflexivity.
      * specialize (IH f (pd ++ [x]) (pf ++ [y])).
        rewrite <- !app_assoc, !length_app in IH. cbn [app length] in IH.
        rewrite Nat.add_1_r in IH. rewrite IH by lia.
        destruct (first_exceeding thr fthr d f); cbn [option_map];
          [f_equal; lia | reflexivity].
Qed.

(** The re-zero step on an aligned series: a shift by the displacement
    of the first exceeding sample when that sample is not the first of
    the series, and no shift otherwise. *)
Lemma rezero_result (thr fthr : Q) (d f : list Q) :
  length d = length f ->
  rezero d f thr fthr
  = Some (match first_exceeding thr fthr d f with
          | Some (S i) => (map (fun x => x - nth (S i) d 0) d, f)
          | _ => (d, f)
          end).
Proof.
  intros Hlen. unfold rezero.
  pose proof (loading_start_first_exceeding thr fthr d f [] [] eq_refl Hlen)
    as Hl.
  cbn [app length] in Hl. rewrite Hl. cbn [bind].
  pose proof (first_exceeding_spec thr fthr d f Hlen) as Hs.
  destruct (first_exceeding thr fthr d f) as [[|i]|]; cbn [Nat.add Nat.ltb Nat.leb].
  - reflexivity.
  - destruct Hs as [Hi _]. rewrite (nth_error_nth' d 0 Hi). reflexivity.
  - reflexivity.
Qed.

Lemma dedup_series_lengths (displacement force : list Q) (thr fthr : Q)
    (dd ff : list Q) :
  dedup_series displacement force thr fthr = Some (dd, ff) ->
  length dd = length ff.
Proof.
  unfold dedup_series. intros H.
  inv_bind H. inv_bind H. inv_bind H. inv_bind H. injection H as <- <-.
  apply take_indices_length in E1, E2. congruence.
Qed.

(** C9, as stated, fails: when the first sample of the deduplicated
    series already exceeds a doubled threshold, its displacement is not
    subtracted. *)
Lemma rezero_first_sample_counterexample :
  disp_threshold_of [5; 6] = Some (1 # 1000) /\
  force_threshold_of [1; 1] = Some (1 # 100) /\
  dedup_series [5; 6] [1; 1] (1 # 1000) (1 # 100) = Some ([5; 6], [1; 1]) /\
  first_exceeding (1 # 1000) (1 # 100) [5; 6] [1; 1] = Some 0%nat /\
  spec_rezero (1 # 1000) (1 # 100) [5; 6] [1; 1] = ([0; 1], [1; 1]) /\
  rezero [5; 6] [1; 1] (1 # 1000) (1 # 100) = Some ([5; 6], [1; 1]) /\
  preprocess_data [5; 6] [1; 1] = Some ([5; 6], [1; 1]) /\
  preprocess_data [5; 6] [1; 1]
  <> Some (spec_rezero (1 # 1000) (1 # 100) [5; 6] [1; 1]).
Proof.
  repeat (split; [vm_compute; reflexivity|]).
  vm_compute. discriminate.
Qed.

(** C9, amended: the re-zero step finds the first sample of the
    deduplicated series whose [|displacement|] exceeds
    [2 * disp_threshold] or whose [|force|] exceeds
    [2 * force_threshold]; when that sample is not the first one of the
    series, its displacement is subtracted from the whole displacement
    series; when it is the first one, or when no sample exceeds, the
    series is returned unshifted. *)
Theorem rezero_shift (displacement force : list Q) (result : list Q * list Q) :
  preprocess_data displacement force = Some result ->
  exists thr fthr dd ff,
    disp_threshold_of displacement = Some thr /\
    force_threshold_of force = Some fthr /\
    dedup_series displacement force thr fthr = Some (dd, ff) /\
    match first_exceeding thr fthr dd ff with
    | Some i =>
        (i < length dd)%nat /\
        exceeds thr fthr (nth i dd 0) (nth i ff 0) = true /\
        (forall j, (j < i)%nat ->
                   exceeds thr fthr (nth j dd 0) (nth j ff 0) = false) /\
        result = match i with
                 | S _ => (map (fun x => x - nth i dd 0) dd, ff)
                 | O => (dd, ff)
                 end
    | None =>
        (forall j, (j < length dd)%nat ->
                   exceeds thr fthr (nth j dd 0) (nth j ff 0) = false) /\
        result = (dd, ff)
    end.
Proof.
  unfold preprocess_data. intros H.
  inv_bind H. inv_bind H. inv_bind H. destruct x1 as [dd ff].
  cbn [fst snd] in H.
  exists x, x0, dd, ff.
  split; [reflexivity|]. split; [reflexivity|]. split; [exact E1|].
  pose proof (dedup_series_lengths _ _ _ _ _ _ E1) as Hlen.
  rewrite (rezero_result x x0 dd ff Hlen) in H. injection H as <-.
  pose proof (first_exceeding_spec x x0 dd ff Hlen) as Hs.
  destruct (first_exceeding x x0 dd ff) as [i|].
  - destruct Hs as [Hi [He Hj]]. repeat (split; [assumption|]).
    destruct i; reflexivity.
  - split; [exact Hs | reflexivity].
Qed.

(** [rezero_shift] on a series whose second sample is the first to
    exceed: its displacement 1 is subtracted from the series. *)
Lemma rezero_shift_witness :
  exists thr fthr dd ff,
    disp_threshold_of [0; 1; 3; 7] = Some thr /\
    force_threshold_of [0; 0; 1; 2] = Some fthr /\
    dedup_series [0; 1; 3; 7] [0; 0; 1; 2] thr fthr = Some (dd, ff) /\
    match first_exceeding thr fthr dd ff with
    | Some i =>
        (i < length dd)%nat /\
        exceeds thr fthr (nth i dd 0) (nth i ff 0) = true /\
        (forall j, (j < i)%nat ->
                   exceeds thr fthr (nth j dd 0) (nth j ff 0) = false) /\
        ([- (1); 0; 2; 6], [0; 0; 1; 2])
        = match i with
          | S _ => (map (fun x => x - nth i dd 0) dd, ff)
          | O => (dd, ff)
          end
    | None =>
        (forall j, (j < length dd)%nat ->
                   exceeds thr fthr (nth j dd 0) (nth j ff 0) = false) /\
        ([- (1); 0; 2; 6], [0; 0; 1; 2]) = (dd, ff)
    end.
Proof.
  apply (rezero_shift [0; 1; 3; 7] [0; 0; 1; 2]).
  vm_compute. reflexivity.
Defined.

(** *** Preprocessing twice *)

Lemma snap_clean (thr : Q) (a : list Q) :
  (forall x, In x a -> x = 0 \/ thr <= Qabs x) -> map (snap thr) a = a.
Proof.
  induction a as [|x a IH]; intros H; simpl.
  - reflexivity.
  - rewrite IH by (intros y Hy; apply H; right; exact Hy). f_equal.
    unfold snap, is_near_zero.
    destruct (H x (or_introl eq_refl)) as [->|Hx].
    + destruct (Qltb (Qabs 0) thr); reflexivity.
    + apply Qltb_ge in Hx. rewrite Hx. reflexivity.
Qed.

Lemma take_indices_seq_app {A : Type} (a p : list A) :
  take_indices (p ++ a) (seq (length p) (length a)) = Some a.
Proof.
  revert p. induction a as [|x a IH]; intros p.
  - reflexivity.
  - cbn [length seq take_indices].
    rewrite nth_error_app2, Nat.sub_diag by lia. cbn [nth_error bind].
    specialize (IH (p ++ [x])).
    rewrite <- app_assoc, length_app in IH. cbn [app length] in IH.
    rewrite Nat.add_1_r in IH. rewrite IH. reflexivity.
Qed.

Lemma take_indices_all {A : Type} (a : list A) :
  take_indices a (seq 0 (length a)) = Some a.
Proof. apply (take_indices_seq_app a []). Qed.

(** When no two displacements are within the tolerance, nothing is
    dropped. *)
Lemma unique_indices_far (dc fc : list Q) (tol : Q) :
  length dc = length fc -> 0 <= tol ->
  (forall i j, (i < j < length dc)%nat ->
               tol < Qabs (nth i dc 0 - nth j dc 0)) ->
  unique_indices_of dc fc tol = Some (seq 0 (length dc)).
Proof.
  intros Hlen Htol Hfar.
  destruct (unique_indices_sorted dc fc tol Hlen) as [idx [Hidx [Hs Hr]]].
  rewrite Hidx. f_equal.
  assert (forall i j, (i < length dc)%nat -> (j < length dc)%nat ->
                      near dc tol i j -> i = j) as Hsingle.
  { intros i j Hi Hj Hn. unfold near in Hn.
    destruct (Nat.lt_trichotomy i j) as [Hc|[Hc|Hc]]; [|exact Hc|].
    - specialize (Hfar i j ltac:(lia)). lra.
    - specialize (Hfar j i ltac:(lia)).
      rewrite (Qabs_Qminus (nth j dc 0)) in Hfar. lra. }
  apply sorted_lt_ext; [exact Hs | apply seq_sorted |].
  intros i.
  rewrite (unique_indices_groups dc fc tol Hlen Htol) by
    (try exact Hidx;
     intros a b c Ha Hb Hc Hab Hbc;
     rewrite (Hsingle a b Ha Hb Hab); exact Hbc).
  rewrite in_seq. split.
  - intros [Hi _]. lia.
  - intros Hi. split; [lia|]. intros j Hj Hn.
    rewrite (Hsingle j i Hj ltac:(lia) Hn). split; [lra | lia].
Qed.

(** C7, as stated, fails: the thresholds are recomputed from the
    series, so a second pass can snap and merge samples that the first
    pass kept. *)
Lemma preprocess_not_idempotent :
  preprocess_data [0; 2000; 20015 # 10] [0; 1; 2]
  = Some ([- (2000); 0; 15 # 10], [0; 1; 2]) /\
  preprocess_data [- (2000); 0; 15 # 10] [0; 1; 2]
  = Some ([- (2000); 0], [0; 2]) /\
  preprocess_data [- (2000); 0; 15 # 10] [0; 1; 2]
  <> Some ([- (2000); 0; 15 # 10], [0; 1; 2]).
Proof.
  split; [vm_compute; reflexivity|].
  split; [vm_compute; reflexivity|].
  vm_compute. discriminate.
Qed.

(** C7, amended: preprocess leaves unchanged every series that is clean
    relative to its own thresholds (no non-zero value within its
    threshold of zero, no two displacements within
    [0.5 * disp_threshold], and no sample but the first one that is the
    first to exceed a doubled threshold).  A second application
    therefore leaves the output of the first unchanged whenever that
    output is such a series. *)
Theorem preprocess_stable_on_clean (d f : list Q) :
  clean_series d f -> preprocess_data d f = Some (d, f).
Proof.
  intros [thr [fthr [Hthr [Hfthr [Hlen [Hd [Hf [Hfar Hfirst]]]]]]]].
  unfold preprocess_data. rewrite Hthr, Hfthr. cbn [bind].
  assert (dedup_series d f thr fthr = Some (d, f)) as Hdedup.
  { unfold dedup_series.
    rewrite Hlen, snap_prefix_map. cbn [bind].
    rewrite (snap_clean thr d Hd), (snap_clean fthr f Hf).
    rewrite (unique_indices_far d f (thr * (1 # 2)) Hlen).
    - cbn [bind]. rewrite take_indices_all. cbn [bind].
      rewrite Hlen, take_indices_all. reflexivity.
    - apply disp_threshold_pos in Hthr. lra.
    - exact Hfar. }
  rewrite Hdedup. cbn [bind fst snd].
  rewrite (rezero_result thr fthr d f Hlen).
  destruct (first_exceeding thr fthr d f) as [[|i]|];
    [reflexivity | destruct Hfirst | reflexivity].
Qed.

(** [preprocess_stable_on_clean] on the output of
    [preprocess_data [0; 1; 3; 7] [0; 0; 1; 2]], which is clean: the
    second pass returns it unchanged. *)
Lemma preprocess_stable_on_clean_witness :
  preprocess_data [0; 1; 3; 7] [0; 0; 1; 2]
  = Some ([- (1); 0; 2; 6], [0; 0; 1; 2]) /\
  preprocess_data [- (1); 0; 2; 6] [0; 0; 1; 2]
  = Some ([- (1); 0; 2; 6], [0; 0; 1; 2]).
Proof.
  split; [vm_compute; reflexivity|].
  apply preprocess_stable_on_clean.
  exists (6 # 1000), (1 # 100).
  split; [vm_compute; reflexivity|].
  split; [vm_compute; reflexivity|].
  split; [reflexivity|].
  split.
  { intros x [<-|[<-|[<-|[<-|[]]]]];
      first [left; reflexivity | right; vm_compute; discriminate]. }
  split.
  { intros y [<-|[<-|[<-|[<-|[]]]]];
      first [left; reflexivity | right; vm_compute; discriminate]. }
  split.
  { intros i j Hij. simpl in Hij.
    destruct i as [|[|[|[|i]]]]; [| | | |lia];
      (destruct j as [|[|[|[|j]]]]; [| | | |lia]);
      first [lia | vm_compute; reflexivity]. }
  vm_compute. exact I.
Defined.

(** ** Ductility *)

(** *** [np.argmax], [np.argmin] and [np.max] *)

Lemma argmax_from_spec (a : list Q) :
  forall i best_i best,
    (best_i < i)%nat ->
    let k := argmax_from a i best_i best in
    (k < i + length a)%nat /\
    (k = best_i \/ (i <= k)%nat) /\
    (forall x, In x a -> x <= (if (k <? i)%nat then best else nth (k - i) a 0)) /\
    best <= (if (k <? i)%nat then best else nth (k - i) a 0).
Proof.
  induction a as [|x a IH]; intros i best_i best Hb; cbn [argmax_from length].
  - cbv zeta. split; [lia|]. split; [left; reflexivity|].
    split; [intros x []|].
    rewrite (proj2 (Nat.ltb_lt _ _) Hb). lra.
  - destruct (Qgtb x best) eqn:E.
    + apply Qgtb_gt in E.
      specialize (IH (S i) i x ltac:(lia)). cbv zeta in IH |- *.
      destruct IH as [H1 [H2 [H3 H4]]].
      set (k := argmax_from a (S i) i x) in *.
      split; [lia|]. split; [right; lia|].
      assert ((k <? i)%nat = false) as Hki by (apply Nat.ltb_ge; lia).
      rewrite Hki.
      destruct (k <? S i)%nat eqn:Hk.
      * apply Nat.ltb_lt in Hk. replace (k - i)%nat with 0%nat by lia.
        cbn [nth]. split; [|lra].
        intros y [<-|Hy]; [lra | apply H3; exact Hy].
      * apply Nat.ltb_ge in Hk.
        replace (k - i)%nat with (S (k - S i)) by lia. cbn [nth].
        split; [|lra].
        intros y [<-|Hy]; [lra | apply H3; exact Hy].
    + apply Qgtb_le in E.
      specialize (IH (S i) best_i best ltac:(lia)). cbv zeta in IH |- *.
      destruct IH as [H1 [H2 [H3 H4]]].
      set (k := argmax_from a (S i) best_i best) in *.
      split; [lia|]. split; [destruct H2; [left; assumption | right; lia]|].
      destruct (k <? S i)%nat eqn:Hk.
      * apply Nat.ltb_lt in Hk.
        assert (k = best_i) as Hkb by (destruct H2; [assumption | lia]).
        assert ((k <? i)%nat = true) as Hki by (apply Nat.ltb_lt; lia).
        rewrite Hki. split; [|lra].
        intros y [<-|Hy]; [lra | apply H3; exact Hy].
      * apply Nat.ltb_ge in Hk.
        assert ((k <? i)%nat = false) as Hki by (apply Nat.ltb_ge; lia).
        rewrite Hki.
        replace (k - i)%nat with (S (k - S i)) by lia. cbn [nth].
        split; [|exact H4].
        intros y [<-|Hy]; [lra | apply H3; exact Hy].
Qed.

(** [np.argmax] returns an index of the array, at a largest entry. *)
Lemma np_argmax_spec (a : list Q) (k : nat) :
  np_argmax a = Some k ->
  (k < length a)%nat /\ forall x, In x a -> x <= nth k a 0.
Proof.
  destruct a as [|x a]; [discriminate|]. cbn [np_argmax].
  intros H. injection H as <-.
  pose proof (argmax_from_spec a 1 0 x ltac:(lia)) as H. cbv zeta in H.
  destruct H as [H1 [H2 [H3 H4]]].
  set (k := argmax_from a 1 0 x) in *.
  split; [simpl; lia|].
  destruct (k <? 1)%nat eqn:Hk.
  - apply Nat.ltb_lt in Hk. replace k with 0%nat by lia. cbn [nth].
    intros y [<-|Hy]; [lra | apply H3; exact Hy].
  - apply Nat.ltb_ge in Hk. replace k with (S (k - 1)) by lia. cbn [nth].
    intros y [<-|Hy]; [exact H4 | apply H3; exact Hy].
Qed.

Lemma np_argmax_total (a : list Q) :
  a <> [] -> exists k, np_argmax a = Some k.
Proof.
  destruct a; [congruence|]. simpl. eauto.
Qed.

Lemma argmin_from_bound (a : list Q) :
  forall i best_i best,
    (best_i < i)%nat -> (argmin_from a i best_i best < i + length a)%nat.
Proof.
  induction a as [|x a IH]; intros i best_i best Hb; cbn [argmin_from length].
  - lia.
  - destruct (Qltb x best).
    + specialize (IH (S i) i x ltac:(lia)). lia.
    + specialize (IH (S i) best_i best ltac:(lia)). lia.
Qed.

Lemma np_argmin_spec (a : list Q) (k : nat) :
  np_argmin a = Some k -> (k < length a)%nat.
Proof.
  destruct a as [|x a]; [discriminate|]. cbn [np_argmin].
  intros H. injection H as <-.
  pose proof (argmin_from_bound a 1 0 x ltac:(lia)). simpl. lia.
Qed.

Lemma np_argmin_total (a : list Q) :
  a <> [] -> exists k, np_argmin a = Some k.
Proof.
  destruct a; [congruence|]. simpl. eauto.
Qed.

(** [abs(a[np.argmax(np.abs(a))])] is the largest magnitude of [a]. *)
Lemma abs_at_argmax_abs_spec (a : list Q) (u : Q) :
  abs_at_argmax_abs a = Some u ->
  (exists k, np_argmax (np_abs a) = Some k /\ (k < length a)%nat /\
             u = Qabs (nth k a 0)) /\
  forall x, In x a -> Qabs x <= u.
Proof.
  unfold abs_at_argmax_abs. intros H. inv_bind H. inv_bind H.
  injection H as <-. rename x into k.
  destruct (np_argmax_spec _ _ E) as [Hk Hmax].
  unfold np_abs in Hk. rewrite length_map in Hk.
  assert (x0 = nth k a 0) as ->.
  { apply (nth_error_nth a k 0) in E0. congruence. }
  split; [exists k; auto|].
  intros x Hx. specialize (Hmax (Qabs x)).
  unfold np_abs in Hmax. change 0 with (Qabs 0) in Hmax at 1.
  rewrite map_nth in Hmax. apply Hmax. apply in_map. exact Hx.
Qed.

Lemma abs_at_argmax_abs_total (a : list Q) :
  a <> [] -> exists u, abs_at_argmax_abs a = Some u.
Proof.
  intros Hne. unfold abs_at_argmax_abs.
  destruct (np_argmax_total _ (np_abs_nonempty _ Hne)) as [k Hk].
  rewrite Hk. cbn [bind].
  destruct (np_argmax_spec _ _ Hk) as [Hlt _].
  unfold np_abs in Hlt. rewrite length_map in Hlt.
  rewrite (nth_error_nth' a 0 Hlt). cbn [bind]. eauto.
Qed.

(** *** Quotients *)

Lemma div_Some (a b : Q) : ~ b == 0 -> div a b = Some (a / b).
Proof.
  intros H. unfold div. destruct (Qeq_bool b 0) eqn:E; [|reflexivity].
  apply Qeq_bool_iff in E. contradiction.
Qed.

Lemma ductility_ratio_spec (u y : Q) :
  ductility_ratio u y = Some (if Qgtb y 0 then u / y else 1).
Proof.
  unfold ductility_ratio. destruct (Qgtb y 0) eqn:E; [|reflexivity].
  apply Qgtb_gt in E. apply div_Some. lra.
Qed.

Lemma ratio_of_total (pts : points) : exists r, ratio_of pts = Some r.
Proof.
  destruct pts as [[u y]|]; simpl; [|eauto].
  rewrite ductility_ratio_spec. eauto.
Qed.

Lemma Qabs_gt_nonzero (x e : Q) : 0 <= e -> e < Qabs x -> ~ x == 0.
Proof.
  intros He H Hx. rewrite Hx in H. simpl in H. lra.
Qed.

(** *** Every method returns a coefficient *)

Lemma micro_nonneg : 0 <= micro.
Proof. unfold micro. apply Qlt_le_weak. reflexivity. Qed.

Lemma K0_from_total (disp force : list Q) (idx : list nat) :
  Forall (fun i => (i < length disp)%nat /\ (i < length force)%nat) idx ->
  forall K0, exists r, K0_from disp force idx K0 = Some r.
Proof.
  induction idx as [|i rest IH]; intros H K0.
  - simpl. eauto.
  - inversion H as [|? ? [Hd Hf] Hrest]; subst. cbn [K0_from].
    rewrite (nth_error_nth' disp 0 Hd). cbn [bind].
    destruct (Qgtb (Qabs (nth i disp 0)) micro) eqn:E; [|apply IH; exact Hrest].
    apply Qgtb_gt in E.
    rewrite (nth_error_nth' force 0 Hf). cbn [bind].
    rewrite div_Some by (eapply Qabs_gt_nonzero; [apply micro_nonneg | exact E]).
    cbn [bind]. destruct (Qgtb _ K0); apply IH; exact Hrest.
Qed.

Lemma initial_stiffness_total (disp force : list Q) :
  length disp = length force ->
  exists K0, initial_stiffness disp force = Some K0.
Proof.
  intros Hlen. unfold initial_stiffness. apply K0_from_total.
  apply Forall_forall. intros i Hi. unfold range in Hi. apply in_seq in Hi.
  lia.
Qed.

Lemma park_scan_total (disp force : list Q) (Ky : Q) (idx : list nat) :
  Forall (fun i => (i < length disp)%nat /\ (i < length force)%nat) idx ->
  exists pts, park_scan disp force Ky idx = Some pts.
Proof.
  induction idx as [|i rest IH]; intros H.
  - simpl. eauto.
  - inversion H as [|? ? [Hd Hf] Hrest]; subst. cbn [park_scan].
    rewrite (nth_error_nth' disp 0 Hd). cbn [bind].
    destruct (Qgtb (Qabs (nth i disp 0)) micro) eqn:E; [|apply IH; exact Hrest].
    apply Qgtb_gt in E.
    rewrite (nth_error_nth' force 0 Hf). cbn [bind].
    rewrite div_Some by (eapply Qabs_gt_nonzero; [apply micro_nonneg | exact E]).
    cbn [bind]. destruct (Qle_bool _ Ky); [|apply IH; exact Hrest].
    rewrite (nth_error_nth' disp 0) by lia. cbn [bind]. eauto.
Qed.

Lemma farthest_from_total (disp force : list Q) (max_disp max_force : Q)
    (idx : list nat) :
  ~ max_force * max_force + max_disp * max_disp == 0 ->
  Forall (fun i => (i < length disp)%nat /\ (i < length force)%nat) idx ->
  forall max_dist_sq yield_idx,
  exists k,
    farthest_from disp force max_disp max_force idx max_dist_sq yield_idx
    = Some k /\ (k = yield_idx \/ In k idx).
Proof.
  intros Hden. induction idx as [|i rest IH]; intros H m y.
  - simpl. eauto.
  - inversion H as [|? ? [Hd Hf] Hrest]; subst. cbn [farthest_from].
    rewrite (nth_error_nth' disp 0 Hd), (nth_error_nth' force 0 Hf).
    cbn [bind]. rewrite (div_Some _ _ Hden). cbn [bind].
    destruct (Qgtb _ m).
    + destruct (IH Hrest (Qabs (max_force * nth i disp 0
                                - max_disp * nth i force 0)
                          * Qabs (max_force * nth i disp 0
                                  - max_disp * nth i force 0)
                          / (max_force * max_force + max_disp * max_disp)) i)
        as [k [Hk Hin]].
      exists k. split; [exact Hk|]. right.
      destruct Hin as [->|Hin]; [left; reflexivity | right; exact Hin].
    + destruct (IH Hrest m y) as [k [Hk Hin]].
      exists k. split; [exact Hk|].
      destruct Hin as [->|Hin]; [left; reflexivity | right; right; exact Hin].
Qed.

Lemma sum_squares_nonzero (a b : Q) : ~ (Qabs b < micro) -> ~ a * a + b * b == 0.
Proof.
  intros Hb Hz. apply Hb. clear Hb.
  assert (0 <= a * a) as Ha by nra.
  assert (b * b <= 0) as Hbb by lra.
  assert (b == 0) as ->.
  { destruct (Qlt_le_dec b 0); [nra|].
    destruct (Qlt_le_dec 0 b); [nra | lra]. }
  reflexivity.
Qed.

Lemma ductility_points_total (method : ductility_method) (disp force : list Q) :
  disp <> [] -> length disp = length force ->
  exists pts, ductility_points method disp force = Some pts.
Proof.
  intros Hne Hlen.
  assert (force <> []) as Hnf by (destruct disp, force; simpl in *; congruence).
  destruct (abs_at_argmax_abs_total disp Hne) as [ud Hud].
  destruct (abs_at_argmax_abs_total force Hnf) as [uf Huf].
  destruct (calculate_loop_area_total disp force ltac:(lia)) as [area Harea].
  destruct (initial_stiffness_total disp force Hlen) as [K0 HK0].
  destruct method; cbn [ductility_points].
  - (* geometric *)
    unfold geometric_points.
    destruct (np_argmax_total _ (np_abs_nonempty _ Hnf)) as [k Hk].
    rewrite Hk. cbn [bind].
    destruct (np_argmax_spec _ _ Hk) as [Hlt _].
    rewrite (nth_error_nth' (np_abs force) 0 Hlt). cbn [bind].
    unfold np_abs in Hlt. rewrite length_map in Hlt.
    rewrite (nth_error_nth' disp 0) by lia. cbn [bind].
    match goal with
    | |- context [np_argmin ?l] =>
        assert (length l = (k + 1)%nat) as Hl
    end.
    { unfold np_abs, slice. rewrite !length_map, length_firstn, length_skipn.
      rewrite length_map. lia. }
    match goal with
    | |- context [np_argmin ?l] =>
        destruct (np_argmin_total l) as [y Hy];
        [intros Hnil; rewrite Hnil in Hl; simpl in Hl; lia|];
        rewrite Hy; apply np_argmin_spec in Hy
    end.
    cbn [bind]. rewrite (nth_error_nth' disp 0) by lia. cbn [bind]. eauto.
  - (* energy *)
    unfold energy_points. rewrite Harea, Hud, Huf. cbn [bind].
    destruct (Qgtb uf 0) eqn:E; [|eauto].
    apply Qgtb_gt in E. rewrite div_Some by lra. cbn [bind]. eauto.
  - (* park *)
    unfold park_points. destruct (length disp <? 3)%nat; [eauto|].
    rewrite HK0. cbn [bind]. destruct (Qeq_bool K0 0); [eauto|].
    apply park_scan_total. apply Forall_forall. intros i Hi.
    unfold range in Hi. apply in_seq in Hi. lia.
  - (* farthest *)
    unfold farthest_points.
    destruct (np_argmax_total _ (np_abs_nonempty _ Hne)) as [k Hk].
    rewrite Hk. cbn [bind].
    destruct (np_argmax_spec _ _ Hk) as [Hlt _].
    unfold np_abs in Hlt. rewrite length_map in Hlt.
    rewrite (nth_error_nth' disp 0 Hlt). cbn [bind].
    rewrite (nth_error_nth' force 0) by lia. cbn [bind].
    destruct (Qltb (Qabs (nth k disp 0)) micro) eqn:E; [eauto|].
    destruct (farthest_from_total disp force (nth k disp 0) (nth k force 0)
                (range 1 k)) with (max_dist_sq := 0) (yield_idx := 0%nat)
      as [y [Hy Hin]].
    + apply sum_squares_nonzero. intros Hc. apply Qltb_lt in Hc. congruence.
    + apply Forall_forall. intros i Hi. unfold range in Hi.
      apply in_seq in Hi. lia.
    + rewrite Hy. cbn [bind].
      assert (y < length disp)%nat as Hyl.
      { destruct Hin as [->|Hin]; [lia|].
        unfold range in Hin. apply in_seq in Hin. lia. }
      rewrite (nth_error_nth' disp 0 Hyl). cbn [bind]. eauto.
  - (* asce *)
    unfold asce_points.
    destruct (np_max_total _ (np_abs_nonempty _ Hnf)) as [mf Hmf].
    rewrite Hmf. cbn [bind].
    match goal with
    | |- context [np_argmin ?l] =>
        assert (length l = length force) as Hl
            by (unfold np_abs; rewrite !length_map; reflexivity);
        destruct (np_argmin_total l) as [y Hy];
        [intros Hnil; rewrite Hnil in Hl; destruct force; simpl in Hl;
         congruence|];
        rewrite Hy; apply np_argmin_spec in Hy
    end.
    cbn [bind]. rewrite (nth_error_nth' disp 0) by lia. cbn [bind].
    rewrite Hud. cbn [bind]. eauto.
  - (* eeep *)
    unfold eeep_points. rewrite Harea, Hud, Huf. cbn [bind].
    destruct (Qgtb uf 0) eqn:E; [|eauto].
    apply Qgtb_gt in E. rewrite div_Some by lra. cbn [bind]. eauto.
  - (* elastic yield *)
    unfold elastic_yield_points. rewrite HK0. cbn [bind].
    destruct (Qeq_bool K0 0) eqn:E0; [eauto|].
    rewrite Huf. cbn [bind].
    destruct (Qgtb K0 0) eqn:E.
    + apply Qgtb_gt in E. rewrite div_Some by lra. cbn [bind].
      rewrite Hud. cbn [bind]. eauto.
    + cbn [bind]. rewrite Hud. cbn [bind]. eauto.
Qed.

Lemma calc_ductility_points (method : ductility_method) (disp force : list Q) :
  calc_ductility method disp force
  = (pts <- ductility_points method disp force ;; ratio_of pts).
Proof. destruct method; reflexivity. Qed.

(** C4: for every branch and each of the seven methods, the ductility is
    exactly 1 whenever the yield displacement the method computes is
    [<= 0], and whenever the method stops before computing one (peak
    force not positive in the energy and EEEP methods, [K0 = 0] in the
    Park and elastic-yield methods, no yield point in the Park scan, a
    peak displacement below [1e-6] in the farthest-point method); and on
    every non-empty branch of aligned points every method returns a
    coefficient: no read is out of range and no divisor is zero. *)
Theorem ductility_degenerate_is_one (method : ductility_method)
    (disp force : list Q) :
  (forall max_disp yield_disp,
      ductility_points method disp force = Some (Some (max_disp, yield_disp)) ->
      yield_disp <= 0 ->
      calc_ductility method disp force = Some 1) /\
  (ductility_points method disp force = Some None ->
   calc_ductility method disp force = Some 1) /\
  (disp <> [] -> length disp = length force ->
   (forall max_force,
       method = energy \/ method = eeep ->
       abs_at_argmax_abs force = Some max_force -> max_force <= 0 ->
       calc_ductility method disp force = Some 1) /\
   (forall K0,
       method = park \/ method = elastic_yield ->
       initial_stiffness disp force = Some K0 -> K0 == 0 ->
       calc_ductility method disp force = Some 1) /\
   exists r, calc_ductility method disp force = Some r).
Proof.
  rewrite calc_ductility_points.
  split; [|split; [|intros Hne Hlen; split; [|split]]].
  - intros u y Hp Hy. rewrite Hp. cbn [bind ratio_of].
    unfold ductility_ratio. apply Qgtb_le in Hy. rewrite Hy. reflexivity.
  - intros Hp. rewrite Hp. reflexivity.
  - intros mf Hm Hmf Hle. apply Qgtb_le in Hle.
    destruct (abs_at_argmax_abs_total disp Hne) as [ud Hud].
    destruct (calculate_loop_area_total disp force ltac:(lia)) as [area Harea].
    destruct Hm as [-> | ->]; cbn [ductility_points];
      [unfold energy_points | unfold eeep_points];
      rewrite Harea, Hud, Hmf; cbn [bind]; rewrite Hle; reflexivity.
  - intros K0 Hm HK0 Hz. apply Qeq_bool_iff in Hz.
    destruct Hm as [-> | ->]; cbn [ductility_points].
    + unfold park_points. destruct (length disp <? 3)%nat; [reflexivity|].
      rewrite HK0. cbn [bind]. rewrite Hz. reflexivity.
    + unfold elastic_yield_points. rewrite HK0. cbn [bind]. rewrite Hz.
      reflexivity.
  - destruct (ductility_points_total method disp force Hne Hlen) as [pts Hp].
    rewrite Hp. cbn [bind]. apply ratio_of_total.
Qed.

(** [ductility_degenerate_is_one] on a branch whose forces are all
    zero: the geometric method finds a yield displacement of 0. *)
Lemma ductility_degenerate_is_one_witness :
  calc_ductility geometric [0; 1; 2] [0; 0; 0] = Some 1.
Proof.
  apply (proj1 (ductility_degenerate_is_one geometric [0; 1; 2] [0; 0; 0])
           0 0).
  - vm_compute. reflexivity.
  - apply Qle_refl.
Defined.

(** *** The ultimate displacement *)

Lemma park_scan_ultimate (disp force : list Q) (Ky : Q) (idx : list nat)
    (u y : Q) :
  park_scan disp force Ky idx = Some (Some (u, y)) ->
  u = Qabs (nth (length disp - 1) disp 0).
Proof.
  induction idx as [|i rest IH]; cbn [park_scan]; intros H.
  - discriminate.
  - inv_bind H. destruct (Qgtb (Qabs x) micro); [|apply IH; exact H].
    inv_bind H. inv_bind H.
    destruct (Qle_bool (Qabs x1) Ky); [|apply IH; exact H].
    inv_bind H. injection H as <- _.
    apply (nth_error_nth disp _ 0) in E2. congruence.
Qed.

(** On a branch whose displacement grows strictly in magnitude the
    last sample has the largest magnitude. *)
Lemma increasing_abs_last_max (l : list Q) :
  strictly_increasing_abs l ->
  forall x, In x l -> Qabs x <= Qabs (nth (length l - 1) l 0).
Proof.
  intros Hinc.
  assert (forall n i, (i + n < length l)%nat ->
                      Qabs (nth i l 0) <= Qabs (nth (i + n) l 0)) as Hstep.
  { induction n as [|n IH]; intros i Hi.
    - rewrite Nat.add_0_r. apply Qle_refl.
    - specialize (IH i ltac:(lia)).
      specialize (Hinc (i + S n)%nat ltac:(lia)).
      replace (i + S n - 1)%nat with (i + n)%nat in Hinc by lia. lra. }
  intros x Hx. apply (In_nth l x 0) in Hx. destruct Hx as [i [Hi <-]].
  specialize (Hstep (length l - 1 - i)%nat i ltac:(lia)).
  replace (i + (length l - 1 - i))%nat with (length l - 1)%nat in Hstep by lia.
  exact Hstep.
Qed.

(** C5, as stated, fails: on a branch whose force peaks before the last
    point the geometric method takes the displacement at the peak force
    as ultimate displacement, not the largest displacement. *)
Lemma geometric_ultimate_counterexample :
  skeleton_branch_ok (mk_branch [0; 1; 2; 3] [0; 10; 8; 5]) /\
  ductility_points geometric [0; 1; 2; 3] [0; 10; 8; 5] = Some (Some (1, 1)) /\
  abs_at_argmax_abs [0; 1; 2; 3] = Some 3 /\
  calc_ductility geometric [0; 1; 2; 3] [0; 10; 8; 5] = Some 1 /\
  ~ 1 == 3 / 1.
Proof.
  split.
  { split; [reflexivity|]. intros i Hi. simpl in Hi.
    destruct i as [|[|[|[|i]]]]; try lia; vm_compute; reflexivity. }
  split; [vm_compute; reflexivity|].
  split; [vm_compute; reflexivity|].
  split; [vm_compute; reflexivity|].
  intros H. vm_compute in H. discriminate.
Qed.

(** C5, amended: whenever a method computes its two displacements, the
    ductility it returns is [ultimate / yield] when [yield > 0] and 1
    otherwise, and it is 1 when the method stops before computing them.
    The ultimate displacement is [|displacement|] at the sample of
    largest magnitude in the energy, farthest-point, ASCE, EEEP and
    elastic-yield methods; in the Park method it is [|displacement|] of
    the last sample, which is the sample of largest magnitude on a
    branch whose displacement grows strictly in magnitude; in the
    geometric method it is [|displacement|] at the sample of largest
    [|force|]. *)
Theorem ductility_ultimate_over_yield (method : ductility_method)
    (disp force : list Q) :
  (forall u y,
      ductility_points method disp force = Some (Some (u, y)) ->
      calc_ductility method disp force = Some (if Qgtb y 0 then u / y else 1) /\
      match method with
      | geometric =>
          exists k, np_argmax (np_abs force) = Some k /\ u = Qabs (nth k disp 0)
      | park =>
          u = Qabs (nth (length disp - 1) disp 0) /\
          (strictly_increasing_abs disp -> forall x, In x disp -> Qabs x <= u)
      | _ =>
          abs_at_argmax_abs disp = Some u /\ forall x, In x disp -> Qabs x <= u
      end) /\
  (ductility_points method disp force = Some None ->
   calc_ductility method disp force = Some 1).
Proof.
  rewrite calc_ductility_points. split.
  - intros u y Hp. split.
    { rewrite Hp. cbn [bind ratio_of]. apply ductility_ratio_spec. }
    destruct method; cbn [ductility_points] in Hp.
    + unfold geometric_points in Hp.
      inv_bind Hp. inv_bind Hp. inv_bind Hp. inv_bind Hp. inv_bind Hp.
      injection Hp as <- _. exists x. split; [reflexivity|].
      apply (nth_error_nth disp _ 0) in E1. congruence.
    + unfold energy_points in Hp.
      inv_bind Hp. inv_bind Hp. inv_bind Hp.
      destruct (Qgtb x1 0); [|discriminate].
      inv_bind Hp. injection Hp as <- _.
      split; [reflexivity | apply abs_at_argmax_abs_spec; exact E0].
    + unfold park_points in Hp.
      destruct (length disp <? 3)%nat; [discriminate|].
      inv_bind Hp. destruct (Qeq_bool x 0); [discriminate|].
      apply park_scan_ultimate in Hp. split; [exact Hp|].
      intros Hinc. rewrite Hp. apply increasing_abs_last_max. exact Hinc.
    + unfold farthest_points in Hp.
      inv_bind Hp. inv_bind Hp. inv_bind Hp.
      destruct (Qltb (Qabs x0) micro); [discriminate|].
      inv_bind Hp. inv_bind Hp. injection Hp as <- _.
      assert (abs_at_argmax_abs disp = Some (Qabs x0)) as Hu.
      { unfold abs_at_argmax_abs. rewrite E. cbn [bind]. rewrite E0.
        reflexivity. }
      split; [exact Hu | apply abs_at_argmax_abs_spec; exact Hu].
    + unfold asce_points in Hp.
      inv_bind Hp. inv_bind Hp. inv_bind Hp. inv_bind Hp.
      injection Hp as <- _.
      split; [reflexivity | apply abs_at_argmax_abs_spec; exact E2].
    + unfold eeep_points in Hp.
      inv_bind Hp. inv_bind Hp. inv_bind Hp.
      destruct (Qgtb x0 0); [|discriminate].
      inv_bind Hp. injection Hp as <- _.
      split; [reflexivity | apply abs_at_argmax_abs_spec; exact E1].
    + unfold elastic_yield_points in Hp.
      inv_bind Hp. destruct (Qeq_bool x 0); [discriminate|].
      inv_bind Hp. inv_bind Hp. inv_bind Hp. injection Hp as <- _.
      split; [reflexivity | apply abs_at_argmax_abs_spec; exact E2].
  - intros Hp. rewrite Hp. reflexivity.
Qed.

(** [ductility_ultimate_over_yield] with the ASCE method on a softening
    branch: ultimate displacement 3, yield displacement 1. *)
Lemma ductility_ultimate_over_yield_witness :
  calc_ductility asce [0; 1; 2; 3] [0; 10; 12; 13] = Some (3 / 1) /\
  abs_at_argmax_abs [0; 1; 2; 3] = Some 3.
Proof.
  destruct (proj1 (ductility_ultimate_over_yield asce [0; 1; 2; 3]
                     [0; 10; 12; 13]) 3 1) as [Hr [Hu _]].
  - vm_compute. reflexivity.
  - split; [exact Hr | exact Hu].
Defined.

(** ** Smoothing *)

(** *** Sorting by a key *)

Lemma insert_by_perm {A : Type} (key : A -> Q) (p : A) (l : list A) :
  Permutation (insert_by key p l) (p :: l).
Proof.
  induction l as [|x l IH]; simpl.
  - apply Permutation_refl.
  - destruct (Qle_bool (key p) (key x)).
    + apply Permutation_refl.
    + etransitivity; [apply perm_skip, IH | apply perm_swap].
Qed.

Lemma sorted_by_perm {A : Type} (key : A -> Q) (l : list A) :
  Permutation (sorted_by key l) l.
Proof.
  induction l as [|x l IH]; simpl.
  - apply Permutation_refl.
  - etransitivity; [apply insert_by_perm | apply perm_skip, IH].
Qed.

Lemma insert_by_sorted {A : Type} (key : A -> Q) (p : A) (l : list A) :
  StronglySorted (fun a b => key a <= key b) l ->
  StronglySorted (fun a b => key a <= key b) (insert_by key p l).
Proof.
  induction l as [|x l IH]; intros Hs; simpl.
  - constructor; constructor.
  - inversion Hs as [|? ? Hl Hx]; subst.
    destruct (Qle_bool (key p) (key x)) eqn:E.
    + apply Qle_bool_iff in E. constructor; [exact Hs|].
      constructor; [exact E|].
      eapply Forall_impl; [|exact Hx]. simpl. intros a Ha. lra.
    + assert (key x <= key p) as Hxp.
      { destruct (Qlt_le_dec (key x) (key p)) as [H|H]; [lra|].
        apply Qle_bool_iff in H. congruence. }
      constructor; [apply IH; exact Hl|].
      eapply Permutation_Forall;
        [apply Permutation_sym, insert_by_perm|].
      constructor; assumption.
Qed.

Lemma sorted_by_sorted {A : Type} (key : A -> Q) (l : list A) :
  StronglySorted (fun a b => key a <= key b) (sorted_by key l).
Proof.
  induction l as [|x l IH]; simpl.
  - constructor.
  - apply insert_by_sorted, IH.
Qed.

(** In a list sorted by [<=] the first entry is the smallest and the
    last one the largest. *)
Lemma sorted_first_last (l : list Q) :
  StronglySorted Qle l ->
  forall v, In v l ->
            nth 0 l 0 <= v /\ v <= nth (length l - 1) l 0.
Proof.
  induction 1 as [|a l Hs IH Ha]; intros v Hv.
  - destruct Hv.
  - rewrite Forall_forall in Ha.
    destruct l as [|b l].
    + destruct Hv as [<-|[]]. simpl. split; apply Qle_refl.
    + replace (length (a :: b :: l) - 1)%nat with (S (length (b :: l) - 1))
        by (simpl; lia).
      cbn [nth].
      destruct Hv as [<-|Hv].
      * split; [apply Qle_refl|].
        apply Ha. apply nth_In. simpl. lia.
      * split; [apply Ha; exact Hv | apply IH; exact Hv].
Qed.

Lemma sorted_map_key {A : Type} (key : A -> Q) (l : list A) :
  StronglySorted (fun a b => key a <= key b) l ->
  StronglySorted Qle (map key l).
Proof.
  induction 1 as [|a l Hs IH Ha]; simpl; constructor.
  - exact IH.
  - apply Forall_map. exact Ha.
Qed.

(** *** The usable points *)

Lemma unique_from_spec (x : list Q) :
  forall i seen,
    (forall k, In k (unique_from x i seen) -> (i <= k < i + length x)%nat) /\
    (forall v, In v x ->
               existsb (Qeq_bool v) seen = true \/
               exists k, In k (unique_from x i seen) /\ nth (k - i) x 0 == v).
Proof.
  induction x as [|xi rest IH]; intros i seen; cbn [unique_from length].
  - split; [intros k [] | intros v []].
  - destruct (existsb (Qeq_bool xi) seen) eqn:E.
    + destruct (IH (S i) seen) as [H1 H2]. split.
      * intros k Hk. apply H1 in Hk. lia.
      * intros v [<-|Hv]; [left; exact E|].
        destruct (H2 v Hv) as [Hs|[k [Hk Hq]]]; [left; exact Hs|].
        right. exists k. split; [exact Hk|].
        specialize (H1 k Hk).
        replace (k - i)%nat with (S (k - S i)) by lia. exact Hq.
    + destruct (IH (S i) (seen ++ [xi])) as [H1 H2]. split.
      * intros k [<-|Hk]; [lia|]. apply H1 in Hk. lia.
      * intros v Hv.
        assert (exists k, In k (i :: unique_from rest (S i) (seen ++ [xi]))
                          /\ nth (k - i) (xi :: rest) 0 == xi) as Hhead.
        { exists i. split; [left; reflexivity|].
          rewrite Nat.sub_diag. reflexivity. }
        destruct Hv as [<-|Hv]; [right; exact Hhead|].
        destruct (H2 v Hv) as [Hs|[k [Hk Hq]]].
        -- rewrite existsb_app in Hs. apply orb_true_iff in Hs.
           destruct Hs as [Hs|Hs]; [left; exact Hs|].
           simpl in Hs. rewrite orb_false_r in Hs.
           apply Qeq_bool_iff in Hs. right.
           destruct Hhead as [k [Hk Hq]]. exists k. split; [exact Hk|].
           rewrite Hq, Hs. reflexivity.
        -- right. exists k. split; [right; exact Hk|].
           specialize (H1 k Hk).
           replace (k - i)%nat with (S (k - S i)) by lia. exact Hq.
Qed.

(** *** [np.linspace] *)

Lemma linspace_length (start stop : Q) (num : nat) :
  length (linspace start stop num) = num.
Proof.
  destruct num as [|[|n]]; cbn [linspace]; [reflexivity | reflexivity|].
  rewrite length_app, length_map, length_seq. simpl. lia.
Qed.


Lemma existsb_Qeq_compat (a b : Q) (seen : list Q) :
  a == b -> existsb (Qeq_bool a) seen = existsb (Qeq_bool b) seen.
Proof.
  intros Hab. induction seen as [|s seen IH]; simpl; [reflexivity|].
  rewrite IH. f_equal.
  destruct (Qeq_bool a s) eqn:Ea, (Qeq_bool b s) eqn:Eb; try reflexivity.
  - apply Qeq_bool_iff in Ea. rewrite Hab in Ea.
    apply Qeq_bool_iff in Ea. congruence.
  - apply Qeq_bool_iff in Eb. rewrite <- Hab in Eb.
    apply Qeq_bool_iff in Eb. congruence.
Qed.

(** The usable points are the first occurrences: an index is kept when
    no earlier point, and no key seen before, has its abscissa. *)
Lemma unique_from_first (x : list Q) :
  forall i seen k,
    In k (unique_from x i seen) <->
    (i <= k < i + length x)%nat /\
    existsb (Qeq_bool (nth (k - i) x 0)) seen = false /\
    (forall j, (i <= j < k)%nat -> ~ nth (j - i) x 0 == nth (k - i) x 0).
Proof.
  induction x as [|xi rest IH]; intros i seen k; cbn [unique_from length].
  - split; [intros [] | intros [Hk _]; lia].
  - destruct (existsb (Qeq_bool xi) seen) eqn:E.
    + rewrite IH. split.
      * intros [Hk [Hs Hj]].
        replace (k - i)%nat with (S (k - S i)) by lia. cbn [nth].
        split; [lia|]. split; [exact Hs|].
        intros j Hjr. destruct (Nat.eq_dec j i) as [->|Hne].
        -- rewrite Nat.sub_diag. cbn [nth]. intros Hq.
           rewrite (existsb_Qeq_compat _ _ seen Hq) in E. congruence.
        -- replace (j - i)%nat with (S (j - S i)) by lia. cbn [nth].
           apply Hj. lia.
      * intros [Hk [Hs Hj]].
        destruct (Nat.eq_dec k i) as [->|Hne].
        { rewrite Nat.sub_diag in Hs. cbn [nth] in Hs. congruence. }
        replace (k - i)%nat with (S (k - S i)) in Hs, Hj by lia.
        cbn [nth] in Hs, Hj.
        split; [lia|]. split; [exact Hs|].
        intros j Hjr. specialize (Hj j ltac:(lia)).
        replace (j - i)%nat with (S (j - S i)) in Hj by lia. exact Hj.
    + cbn [In]. rewrite IH. split.
      * intros [<-|[Hk [Hs Hj]]].
        { rewrite Nat.sub_diag. cbn [nth].
          split; [lia|]. split; [exact E|]. intros j Hjr. lia. }
        replace (k - i)%nat with (S (k - S i)) by lia. cbn [nth].
        rewrite existsb_app in Hs. apply orb_false_iff in Hs.
        destruct Hs as [Hs Hx]. simpl in Hx. rewrite orb_false_r in Hx.
        split; [lia|]. split; [exact Hs|].
        intros j Hjr. destruct (Nat.eq_dec j i) as [->|Hne].
        -- rewrite Nat.sub_diag. cbn [nth]. intros Hq.
           symmetry in Hq. apply Qeq_bool_iff in Hq. congruence.
        -- replace (j - i)%nat with (S (j - S i)) by lia. cbn [nth].
           apply Hj. lia.
      * intros [Hk [Hs Hj]].
        destruct (Nat.eq_dec k i) as [->|Hne]; [left; reflexivity|].
        right.
        pose proof (Hj i ltac:(lia)) as Hi.
        rewrite Nat.sub_diag in Hi.
        replace (k - i)%nat with (S (k - S i)) in Hs, Hj, Hi by lia.
        cbn [nth] in Hs, Hj, Hi.
        split; [lia|]. split.
        -- rewrite existsb_app. apply orb_false_iff. split; [exact Hs|].
           simpl. rewrite orb_false_r.
           destruct (Qeq_bool (nth (k - S i) rest 0) xi) eqn:Eq;
             [|reflexivity].
           apply Qeq_bool_iff in Eq. exfalso. apply Hi. symmetry. exact Eq.
        -- intros j Hjr. specialize (Hj j ltac:(lia)).
           replace (j - i)%nat with (S (j - S i)) in Hj by lia. exact Hj.
Qed.

Lemma unique_from_length (x : list Q) :
  forall i seen, (length (unique_from x i seen) <= length x)%nat.
Proof.
  induction x as [|xi rest IH]; intros i seen; cbn [unique_from length].
  - lia.
  - destruct (existsb (Qeq_bool xi) seen).
    + specialize (IH (S i) seen). lia.
    + specialize (IH (S i) (seen ++ [xi])). simpl. lia.
Qed.

(** With at least four usable points and aligned series the [try]
    block reaches the smoothing routine, on abscissae evenly spaced
    between the smallest and the largest [x]. *)
Lemma smooth_try_reaches_routine (sp : routines) (algorithm : smooth_algorithm)
    (num_points : nat) (smoothness : Q) (x y : list Q) :
  (4 <= length (unique_from x 0 []))%nat ->
  length x = length y ->
  exists x_sorted y_sorted x_min x_max,
    In x_min x /\ In x_max x /\
    (forall v, In v x -> x_min <= v <= x_max) /\
    smooth_try sp algorithm num_points smoothness x y
    = (y_smooth <- apply_algorithm sp algorithm smoothness x_sorted y_sorted
                     (linspace x_min x_max num_points) ;;
       Some (linspace x_min x_max num_points, y_smooth)).
Proof.
  intros Husable Hlen. unfold smooth_try.
  pose proof (unique_from_length x 0 []) as Hul.
  assert ((length x <? 4)%nat = false) as -> by (apply Nat.ltb_ge; lia).
  assert ((length (unique_from x 0 []) <? 4)%nat = false) as ->
      by (apply Nat.ltb_ge; lia).
  set (ui := unique_from x 0 []) in *.
  destruct (unique_from_spec x 0 []) as [Hrange Hcover]. fold ui in Hrange, Hcover.
  assert (Forall (fun i => (i < length x)%nat) ui) as Hui.
  { apply Forall_forall. intros k Hk. apply Hrange in Hk. lia. }
  rewrite (take_indices_nth x ui Hui). cbn [bind].
  rewrite Hlen in Hui. rewrite (take_indices_nth y ui Hui). cbn [bind].
  rewrite <- Hlen in Hui.
  set (xu := map (fun i => nth i x 0) ui).
  set (yu := map (fun i => nth i y 0) ui).
  assert (length xu = length ui) as Hxu by (subst xu; apply length_map).
  assert (length yu = length ui) as Hyu by (subst yu; apply length_map).
  pose proof (sorted_by_perm (fun i => nth i xu 0) (seq 0 (length xu))) as Hperm.
  pose proof (sorted_by_sorted (fun i => nth i xu 0) (seq 0 (length xu))) as Hsorted.
  fold (argsort xu) in Hperm, Hsorted.
  set (si := argsort xu) in *.
  assert (forall i, In i si <-> (i < length xu)%nat) as Hsi.
  { intros i. split; intros Hi.
    - apply (Permutation_in _ Hperm) in Hi. apply in_seq in Hi. lia.
    - apply (Permutation_in _ (Permutation_sym Hperm)). apply in_seq. lia. }
  assert (Forall (fun i => (i < length xu)%nat) si) as Hsi'.
  { apply Forall_forall. intros i Hi. apply Hsi. exact Hi. }
  rewrite (take_indices_nth xu si Hsi'). cbn [bind].
  rewrite Hxu, <- Hyu in Hsi'.
  rewrite (take_indices_nth yu si Hsi'). cbn [bind].
  set (xs := map (fun i => nth i xu 0) si).
  set (ys := map (fun i => nth i yu 0) si).
  assert (length xs = length xu) as Hxs.
  { subst xs. rewrite length_map.
    rewrite (Permutation_length Hperm). apply length_seq. }
  assert (StronglySorted Qle xs) as Hxs_sorted
      by (subst xs; apply sorted_map_key; exact Hsorted).
  assert (forall v, In v xs -> In v x) as Hxs_x.
  { intros v Hv. subst xs. apply in_map_iff in Hv.
    destruct Hv as [i [<- Hi]]. apply Hsi in Hi.
    assert (In (nth i xu 0) xu) as Hin by (apply nth_In; exact Hi).
    subst xu. apply in_map_iff in Hin. destruct Hin as [k [<- Hk]].
    apply nth_In. apply Hrange in Hk. lia. }
  assert (forall v, In v x -> exists u, In u xs /\ u == v) as Hx_xs.
  { intros v Hv. destruct (Hcover v Hv) as [Hs|[k [Hk Hq]]];
      [simpl in Hs; discriminate|].
    rewrite Nat.sub_0_r in Hq.
    exists (nth k x 0). split; [|exact Hq].
    assert (In (nth k x 0) xu) as Hin
        by (subst xu; apply (in_map (fun i => nth i x 0)); exact Hk).
    apply (In_nth xu _ 0) in Hin. destruct Hin as [j [Hj Hjq]].
    rewrite <- Hjq. subst xs.
    apply (in_map (fun i => nth i xu 0)). apply Hsi. exact Hj. }
  rewrite (nth_error_nth' xs 0) by lia. cbn [bind].
  rewrite (nth_error_nth' xs 0) by lia. cbn [bind].
  exists xs, ys, (nth 0 xs 0), (nth (length xs - 1) xs 0).
  split; [apply Hxs_x, nth_In; lia|].
  split; [apply Hxs_x, nth_In; lia|].
  split; [|reflexivity].
  intros v Hv. destruct (Hx_xs v Hv) as [u [Hu Hq]].
  destruct (sorted_first_last xs Hxs_sorted u Hu) as [H1 H2].
  rewrite <- Hq. split; assumption.
Qed.

(** *** The Savitzky-Golay window *)

Lemma sg_window_arith (w0 n : Z) :
  (n mod 2 = 0)%Z -> (4 <= n)%Z ->
  let w1 := if (w0 mod 2 =? 0)%Z then (w0 + 1)%Z else w0 in
  let w2 := Z.min w1 (n - 1) in
  let w := if (w2 <? 3)%Z then 3%Z else w2 in
  (w mod 2 = 1)%Z /\ (3 <= w < n)%Z.
Proof.
  intros Hn H4. cbv zeta.
  destruct (w0 mod 2 =? 0)%Z eqn:E0;
    [apply Z.eqb_eq in E0 | apply Z.eqb_neq in E0];
    match goal with
    | |- context [Z.min ?a ?b] =>
        destruct (Z.min_spec a b) as [[Hlt ->]|[Hge ->]]
    end;
    match goal with
    | |- context [(?a <? 3)%Z] =>
        destruct (a <? 3)%Z eqn:E3;
        [apply Z.ltb_lt in E3 | apply Z.ltb_ge in E3]
    end;
    (split; [|lia]);
    Z.div_mod_to_equations; lia.
Qed.

Lemma py_int_inject_Z (p : Z) : py_int (inject_Z p) = p.
Proof.
  unfold py_int. destruct (Qle_bool 0 (inject_Z p));
    [apply Qfloor_Z | apply Qceiling_Z].
Qed.

(** C10: in Savitzky-Golay smoothing, for every parameter value and
    every number of points the combo box offers, the window handed to
    the filter is odd, at least 3 and strictly less than [num_points];
    the polynomial order is [min(3, window - 1)]; and the parameter 6
    gives the window 7.  The window is the parameter, cut to a whole
    number and raised by one when that number is even, then brought
    into the range from 3 to [num_points - 1]: every even whole
    parameter [p] with [2 <= p < num_points - 1] gives the window
    [p + 1], and every odd one with [3 <= p <= num_points - 1] gives
    [p] itself. *)
Theorem sg_window_odd (smoothness : Q) (num_points : nat) :
  In num_points interp_points_items ->
  let window := sg_window_length smoothness num_points in
  Z.odd window = true /\
  (3 <= window < Z.of_nat num_points)%Z /\
  sg_window_length 6 num_points = 7%Z /\
  (forall sp x_sorted y_sorted x_min x_max,
    apply_algorithm sp SavitzkyGolay smoothness x_sorted y_sorted
      (linspace x_min x_max num_points)
    = (y_temp <- sp_make_interp_spline sp x_sorted y_sorted
                   (linspace x_min x_max num_points) ;;
       sp_savgol_filter sp y_temp window (Z.min 3 (window - 1)))) /\
  window = Z.max 3 (Z.min (next_odd (py_int smoothness))
                      (Z.of_nat num_points - 1)) /\
  (forall p : Z,
      Z.even p = true -> (2 <= p < Z.of_nat num_points - 1)%Z ->
      sg_window_length (inject_Z p) num_points = (p + 1)%Z) /\
  (forall p : Z,
      Z.odd p = true -> (3 <= p <= Z.of_nat num_points - 1)%Z ->
      sg_window_length (inject_Z p) num_points = p).
Proof.
  intros Hn window.
  assert ((Z.of_nat num_points mod 2 = 0)%Z /\ (4 <= Z.of_nat num_points)%Z)
    as [Heven H4].
  { unfold interp_points_items in Hn.
    destruct Hn as [<-|[<-|[<-|[<-|[<-|[]]]]]]; split; (reflexivity || lia). }
  pose proof (sg_window_arith (py_int smoothness) (Z.of_nat num_points)
                Heven H4) as Hw.
  cbv zeta in Hw. fold (sg_window_length smoothness num_points) in Hw.
  fold window in Hw. destruct Hw as [Hodd Hrange].
  assert (forall s,
             sg_window_length s num_points
             = Z.max 3 (Z.min (next_odd (py_int s)) (Z.of_nat num_points - 1)))
    as Hclosed.
  { intros s. unfold sg_window_length, next_odd.
    rewrite Zmod_even.
    destruct (Z.even (py_int s)); cbn [Z.eqb];
      match goal with
      | |- context [(?a <? 3)%Z] =>
          destruct (a <? 3)%Z eqn:E3;
          [apply Z.ltb_lt in E3 | apply Z.ltb_ge in E3]
      end; lia. }
  split.
  { pose proof (Zmod_odd window) as Hm. rewrite Hodd in Hm.
    destruct (Z.odd window); [reflexivity | discriminate]. }
  split; [exact Hrange|].
  split.
  { unfold interp_points_items in Hn.
    destruct Hn as [<-|[<-|[<-|[<-|[<-|[]]]]]]; vm_compute; reflexivity. }
  split.
  { intros sp xs ys a b. cbn [apply_algorithm].
    rewrite linspace_length. reflexivity. }
  split; [apply Hclosed|].
  split.
  - intros p Hp Hr. rewrite Hclosed, py_int_inject_Z. unfold next_odd.
    rewrite Hp. lia.
  - intros p Hp Hr. rewrite Hclosed, py_int_inject_Z. unfold next_odd.
    rewrite <- Z.negb_odd, Hp. cbn [negb]. lia.
Qed.

(** [sg_window_odd] for 300 points: the parameter 6 gives the window 7,
    the parameter 20 the window 21, and 21 stays 21. *)
Lemma sg_window_odd_witness :
  Z.odd (sg_window_length 6 300) = true /\
  (3 <= sg_window_length 6 300 < 300)%Z /\
  sg_window_length 6 300 = 7%Z /\
  sg_window_length (inject_Z 20) 300 = 21%Z /\
  sg_window_length (inject_Z 21) 300 = 21%Z.
Proof.
  destruct (sg_window_odd 6 300) as [H1 [H2 [H3 [_ [_ [H6 H7]]]]]].
  - unfold interp_points_items. simpl. tauto.
  - split; [exact H1|]. split; [exact H2|]. split; [exact H3|].
    split; [apply (H6 20%Z); [reflexivity | cbn; lia]
           | apply (H7 21%Z); [reflexivity | cbn; lia]].
Defined.

(* ================================================================== *)
(** * Further properties of the analysis functions *)

(** ** The loops of the segmentation *)

Lemma loop_peaks_shape (displacement force : list Q) (idx : list nat) :
  forall peaks,
    loop_peaks_from displacement force idx = Some peaks ->
    Forall (fun p =>
              p_disp p = nth (p_index p) displacement 0 /\
              nth_error force (p_index p) = Some (p_force p) /\
              match p_type p with
              | positive => 0 < p_disp p
              | negative => p_disp p < 0
              end) peaks.
Proof.
  induction idx as [|i rest IH]; intros peaks H; cbn [loop_peaks_from] in H.
  - injection H as <-. constructor.
  - destruct (strict_local_max displacement i).
    + destruct (Qgtb (nth i displacement 0) 0) eqn:E; [|apply IH; exact H].
      inv_bind H. inv_bind H. injection H as <-.
      constructor; [|apply IH; reflexivity].
      cbn [p_disp p_index p_force p_type]. apply Qgtb_gt in E. auto.
    + destruct (strict_local_min displacement i); [|apply IH; exact H].
      destruct (Qltb (nth i displacement 0) 0) eqn:E; [|apply IH; exact H].
      inv_bind H. inv_bind H. injection H as <-.
      constructor; [|apply IH; reflexivity].
      cbn [p_disp p_index p_force p_type]. apply Qltb_lt in E. auto.
Qed.

Lemma slice_head (a : list Q) (start stop : nat) :
  (0 < length (slice a start stop))%nat ->
  nth 0 (slice a start stop) 0 = nth start a 0.
Proof.
  unfold slice. intros H. rewrite length_firstn in H.
  rewrite nth_firstn.
  assert ((0 <? stop - start)%nat = true) as -> by (apply Nat.ltb_lt; lia).
  rewrite nth_skipn, Nat.add_0_r. reflexivity.
Qed.

Lemma loops_between_shape (displacement force : list Q) (peaks : list peak) :
  Forall (fun p =>
            p_disp p = nth (p_index p) displacement 0 /\
            nth_error force (p_index p) = Some (p_force p) /\
            match p_type p with
            | positive => 0 < p_disp p
            | negative => p_disp p < 0
            end) peaks ->
  forall loops,
    loops_between displacement force peaks = Some loops ->
    Forall (fun l =>
              (3 <= length (l_displacement l))%nat /\
              nth 0 (l_displacement l) 0 = l_peak_disp l /\
              nth 0 (l_force l) 0 = l_peak_force l /\
              match l_type l with
              | positive => 0 < l_peak_disp l
              | negative => l_peak_disp l < 0
              end) loops.
Proof.
  induction 1 as [|p rest [Hd [Hf Hsign]] Hrest IH]; intros loops H.
  - simpl in H. injection H as <-. constructor.
  - destruct rest as [|q rest'].
    + simpl in H. injection H as <-. constructor.
    + rewrite loops_between_cons in H. cbv zeta in H.
      destruct (2 <? length (slice displacement (p_index p) (p_index q + 1)))%nat
        eqn:E; [|apply IH; exact H].
      apply Nat.ltb_lt in E.
      inv_bind H. inv_bind H. injection H as <-.
      constructor; [|apply IH; exact E1].
      cbn [l_displacement l_force l_peak_disp l_peak_force l_type].
      split; [lia|].
      split; [rewrite slice_head by lia; symmetry; exact Hd|].
      split; [|exact Hsign].
      assert (p_index p < length force)%nat as Hp
          by (apply nth_error_Some; congruence).
      rewrite slice_head.
      * apply (nth_error_nth force _ 0) in Hf. exact Hf.
      * unfold slice in E |- *. rewrite length_firstn, length_skipn in *. lia.
Qed.

(** Every loop that segmentation returns has at least three samples and
    starts at its peak: its first displacement and force are the peak
    displacement and the peak force, and the peak displacement is
    positive for a positive loop and negative for a negative one. *)
Theorem loops_start_at_peak (filter_first_loop : bool)
    (displacement force : list Q) (loops : list hysteresis_loop) :
  extract_hysteresis_loops filter_first_loop displacement force = Some loops ->
  Forall (fun l =>
            (3 <= length (l_displacement l))%nat /\
            nth 0 (l_displacement l) 0 = l_peak_disp l /\
            nth 0 (l_force l) 0 = l_peak_force l /\
            match l_type l with
            | positive => 0 < l_peak_disp l
            | negative => l_peak_disp l < 0
            end) loops.
Proof.
  unfold extract_hysteresis_loops. intros H.
  inv_bind H. destruct x as [d' f']. inv_bind H.
  eapply loops_between_shape; [|exact H].
  eapply loop_peaks_shape. exact E0.
Qed.

(** [loops_start_at_peak] on the scenario of the specification. *)
Lemma loops_start_at_peak_witness :
  exists loops,
    extract_hysteresis_loops false
      [0; 2; 4; 2; 0; -(2); -(4); -(2); 0]
      [0; 10; 20; 15; 0; -(10); -(20); -(15); 0] = Some loops /\
    Forall (fun l =>
              (3 <= length (l_displacement l))%nat /\
              nth 0 (l_displacement l) 0 = l_peak_disp l /\
              nth 0 (l_force l) 0 = l_peak_force l /\
              match l_type l with
              | positive => 0 < l_peak_disp l
              | negative => l_peak_disp l < 0
              end) loops.
Proof.
  eexists. split; [vm_compute; reflexivity|].
  apply (loops_start_at_peak false
           [0; 2; 4; 2; 0; -(2); -(4); -(2); 0]
           [0; 10; 20; 15; 0; -(10); -(20); -(15); 0]).
  vm_compute. reflexivity.
Defined.

(** ** Bounds on the ductility coefficient *)

Lemma increasing_abs_le (l : list Q) :
  strictly_increasing_abs l ->
  forall i j, (i <= j < length l)%nat -> Qabs (nth i l 0) <= Qabs (nth j l 0).
Proof.
  intros Hinc i j Hij.
  replace j with (i + (j - i))%nat by lia.
  assert (i + (j - i) < length l)%nat as Hlt by lia.
  revert Hlt. generalize (j - i)%nat as n. clear j Hij.
  induction n as [|n IH]; intros Hlt.
  - rewrite Nat.add_0_r. apply Qle_refl.
  - specialize (IH ltac:(lia)).
    specialize (Hinc (i + S n)%nat ltac:(lia)).
    replace (i + S n - 1)%nat with (i + n)%nat in Hinc by lia. lra.
Qed.

Lemma park_scan_yield (disp force : list Q) (Ky : Q) (idx : list nat) (u y : Q) :
  park_scan disp force Ky idx = Some (Some (u, y)) ->
  exists di, In di disp /\ y = Qabs di.
Proof.
  induction idx as [|i rest IH]; cbn [park_scan]; intros H.
  - discriminate.
  - inv_bind H. destruct (Qgtb (Qabs x) micro); [|apply IH; exact H].
    inv_bind H. inv_bind H.
    destruct (Qle_bool (Qabs x1) Ky); [|apply IH; exact H].
    inv_bind H. injection H as _ <-.
    exists x. split; [eapply nth_error_In; exact E | reflexivity].
Qed.

(** The yield displacement of a method never exceeds its ultimate
    displacement, in the ASCE and farthest-point methods on every
    branch, in the geometric and Park methods on a branch whose
    displacement grows strictly in magnitude. *)
Lemma yield_le_ultimate (method : ductility_method) (disp force : list Q)
    (u y : Q) :
  ductility_points method disp force = Some (Some (u, y)) ->
  (method = asce \/ method = farthest) \/
  ((method = geometric \/ method = park) /\ strictly_increasing_abs disp) ->
  y <= u.
Proof.
  intros Hp [[-> | ->] | [[-> | ->] Hinc]]; cbn [ductility_points] in Hp.
  - unfold asce_points in Hp.
    inv_bind Hp. inv_bind Hp. inv_bind Hp. inv_bind Hp.
    injection Hp as <- <-.
    apply abs_at_argmax_abs_spec in E2. destruct E2 as [_ Hmax].
    apply Hmax. eapply nth_error_In. exact E1.
  - unfold farthest_points in Hp.
    inv_bind Hp. inv_bind Hp. inv_bind Hp.
    destruct (Qltb (Qabs x0) micro); [discriminate|].
    inv_bind Hp. inv_bind Hp. injection Hp as <- <-.
    assert (abs_at_argmax_abs disp = Some (Qabs x0)) as Hu.
    { unfold abs_at_argmax_abs. rewrite E. cbn [bind]. rewrite E0.
      reflexivity. }
    apply abs_at_argmax_abs_spec in Hu. destruct Hu as [_ Hmax].
    apply Hmax. eapply nth_error_In. exact E3.
  - unfold geometric_points in Hp.
    inv_bind Hp. inv_bind Hp. inv_bind Hp. inv_bind Hp. inv_bind Hp.
    injection Hp as <- <-.
    apply np_argmin_spec in E2.
    unfold np_abs, slice in E2.
    rewrite !length_map, length_firstn in E2.
    assert (x < length disp)%nat as Hx by (apply nth_error_Some; congruence).
    apply (nth_error_nth disp _ 0) in E1, E3. rewrite <- E1, <- E3.
    apply increasing_abs_le; [exact Hinc | lia].
  - unfold park_points in Hp.
    destruct (length disp <? 3)%nat; [discriminate|].
    inv_bind Hp. destruct (Qeq_bool x 0); [discriminate|].
    pose proof (park_scan_ultimate _ _ _ _ _ _ Hp) as ->.
    apply park_scan_yield in Hp. destruct Hp as [di [Hin ->]].
    apply increasing_abs_last_max; assumption.
Qed.

(** The ASCE and the farthest-point ductility are at least 1 on every
    branch, and so are the geometric and the Park ductility on a branch
    whose displacement grows strictly in magnitude, as the branches of a
    skeleton do. *)
Theorem ductility_at_least_one (method : ductility_method)
    (disp force : list Q) (r : Q) :
  calc_ductility method disp force = Some r ->
  (method = asce \/ method = farthest) \/
  ((method = geometric \/ method = park) /\ strictly_increasing_abs disp) ->
  1 <= r.
Proof.
  rewrite calc_ductility_points. intros H Hm. inv_bind H.
  destruct x as [[u y]|]; cbn [ratio_of] in H.
  - pose proof (yield_le_ultimate method disp force u y E Hm) as Hle.
    rewrite ductility_ratio_spec in H. injection H as <-.
    destruct (Qgtb y 0) eqn:Ey; [|apply Qle_refl].
    apply Qgtb_gt in Ey. apply Qle_shift_div_l; [exact Ey | lra].
  - injection H as <-. apply Qle_refl.
Qed.

(** [ductility_at_least_one] with the geometric method on a softening
    branch. *)
Lemma ductility_at_least_one_witness :
  exists r,
    calc_ductility geometric [0; 1; 2; 3] [0; 10; 12; 13] = Some r /\ 1 <= r.
Proof.
  eexists. split; [vm_compute; reflexivity|].
  apply (ductility_at_least_one geometric [0; 1; 2; 3] [0; 10; 12; 13]).
  - vm_compute. reflexivity.
  - right. split; [left; reflexivity|].
    intros i Hi. simpl in Hi.
    destruct i as [|[|[|[|i]]]]; try lia; vm_compute; reflexivity.
Defined.

(** ** The Park method on a linear branch *)

Lemma div_linear (k di fi : Q) :
  ~ di == 0 -> fi == k * di -> Qabs (fi / di) == Qabs k.
Proof.
  intros Hd Hf. apply Qabs_wd. rewrite Hf. field. exact Hd.
Qed.

Lemma K0_from_linear (k : Q) (disp force : list Q) (idx : list nat) :
  (forall i, (i < length disp)%nat -> nth i force 0 == k * nth i disp 0) ->
  Forall (fun i => (i < length disp)%nat /\ (i < length force)%nat) idx ->
  forall K0 r,
    K0 == 0 \/ K0 == Qabs k ->
    K0_from disp force idx K0 = Some r ->
    r == 0 \/ r == Qabs k.
Proof.
  intros Hlin. induction idx as [|i rest IH]; intros Hidx K0 r HK H.
  - simpl in H. injection H as <-. exact HK.
  - inversion Hidx as [|? ? [Hd Hf] Hrest]; subst. cbn [K0_from] in H.
    rewrite (nth_error_nth' disp 0 Hd) in H. cbn [bind] in H.
    destruct (Qgtb (Qabs (nth i disp 0)) micro) eqn:E;
      [|apply (IH Hrest K0); assumption].
    apply Qgtb_gt in E.
    assert (~ nth i disp 0 == 0) as Hnz
        by (eapply Qabs_gt_nonzero; [apply micro_nonneg | exact E]).
    rewrite (nth_error_nth' force 0 Hf) in H. cbn [bind] in H.
    rewrite (div_Some _ _ Hnz) in H. cbn [bind] in H.
    destruct (Qgtb _ K0).
    + apply (IH Hrest _ r) in H; [exact H|].
      right. apply div_linear; [exact Hnz | apply Hlin; exact Hd].
    + apply (IH Hrest K0); assumption.
Qed.

Lemma park_scan_linear (k Ky : Q) (disp force : list Q) (idx : list nat) :
  (forall i, (i < length disp)%nat -> nth i force 0 == k * nth i disp 0) ->
  Ky < Qabs k ->
  Forall (fun i => (i < length disp)%nat /\ (i < length force)%nat) idx ->
  park_scan disp force Ky idx = Some None.
Proof.
  intros Hlin HKy. induction idx as [|i rest IH]; intros Hidx.
  - reflexivity.
  - inversion Hidx as [|? ? [Hd Hf] Hrest]; subst. cbn [park_scan].
    rewrite (nth_error_nth' disp 0 Hd). cbn [bind].
    destruct (Qgtb (Qabs (nth i disp 0)) micro) eqn:E; [|apply IH; exact Hrest].
    apply Qgtb_gt in E.
    assert (~ nth i disp 0 == 0) as Hnz
        by (eapply Qabs_gt_nonzero; [apply micro_nonneg | exact E]).
    rewrite (nth_error_nth' force 0 Hf). cbn [bind].
    rewrite (div_Some _ _ Hnz). cbn [bind].
    pose proof (div_linear k _ _ Hnz (Hlin i Hd)) as Hq.
    destruct (Qle_bool _ Ky) eqn:Ele; [|apply IH; exact Hrest].
    apply Qle_bool_iff in Ele. rewrite Hq in Ele. lra.
Qed.

(** On a linear branch, [force = k * displacement] at every point, no
    secant stiffness is as small as a third of the initial stiffness:
    the scan of the Park method finds no yield point, and the method
    returns the fallback value 1. *)
Theorem park_linear_branch (k : Q) (disp force : list Q) :
  length disp = length force ->
  (forall i, (i < length disp)%nat -> nth i force 0 == k * nth i disp 0) ->
  park_points disp force = Some None /\
  calc_park_ductility disp force = Some 1.
Proof.
  intros Hlen Hlin.
  assert (park_points disp force = Some None) as Hp.
  { unfold park_points.
    destruct (length disp <? 3)%nat; [reflexivity|].
    destruct (initial_stiffness_total disp force Hlen) as [K0 HK0].
    rewrite HK0. cbn [bind].
    destruct (Qeq_bool K0 0) eqn:E0; [reflexivity|].
    assert (K0 == 0 \/ K0 == Qabs k) as HK.
    { unfold initial_stiffness in HK0.
      eapply (K0_from_linear k); [exact Hlin | | | exact HK0].
      - apply Forall_forall. intros i Hi. unfold range in Hi.
        apply in_seq in Hi. lia.
      - left. reflexivity. }
    destruct HK as [HK|HK].
    { apply Qeq_bool_iff in HK. congruence. }
    assert (0 < Qabs k) as Hk.
    { destruct (Qlt_le_dec 0 (Qabs k)) as [H|H]; [exact H|].
      pose proof (Qabs_nonneg k).
      assert (K0 == 0) as Hz by lra.
      apply Qeq_bool_iff in Hz. congruence. }
    apply (park_scan_linear k).
    - exact Hlin.
    - rewrite HK. apply Qlt_shift_div_r; [reflexivity | lra].
    - apply Forall_forall. intros i Hi. unfold range in Hi.
      apply in_seq in Hi. lia. }
  split; [exact Hp|].
  unfold calc_park_ductility. rewrite Hp. reflexivity.
Qed.

(** [park_linear_branch] on a branch of stiffness 10. *)
Lemma park_linear_branch_witness :
  park_points [0; 1; 2; 3] [0; 10; 20; 30] = Some None /\
  calc_park_ductility [0; 1; 2; 3] [0; 10; 20; 30] = Some 1.
Proof.
  apply (park_linear_branch 10 [0; 1; 2; 3] [0; 10; 20; 30]).
  - reflexivity.
  - intros i Hi. simpl in Hi.
    destruct i as [|[|[|[|i]]]]; try lia; vm_compute; reflexivity.
Defined.

(** ** The points of a skeleton *)

Lemma branch_from_origin (origin : Q * Q) (P : Q -> Prop) (d f : list Q) :
  branch_from origin P d f (mk_branch [fst origin] [snd origin]).
Proof.
  exists []. repeat split. constructor.
Qed.

Lemma branch_from_append (origin : Q * Q) (P : Q -> Prop) (d f : list Q)
    (b : branch) (dv fv : Q) :
  branch_from origin P d f b ->
  sample_point P d f (dv, fv) ->
  branch_from origin P d f (branch_append b dv fv).
Proof.
  intros [pts [Hd [Hf Hpts]]] Hs. exists (pts ++ [(dv, fv)]).
  unfold branch_append. cbn [br_disp br_force].
  rewrite Hd, Hf, !map_app. cbn [map fst snd app].
  split; [reflexivity|]. split; [reflexivity|].
  apply Forall_app. split; [exact Hpts|]. constructor; [exact Hs | constructor].
Qed.

Lemma pos_envelope_samples (d f : list Q) (thr fthr : Q) (origin : Q * Q) :
  (1 # 100) <= thr ->
  forall idx m b r,
    Forall (fun i => (i < length d)%nat) idx ->
    branch_from origin (fun x => (1 # 100) < x) d f b ->
    pos_envelope_from d f thr fthr idx m b = Some r ->
    branch_from origin (fun x => (1 # 100) < x) d f r.
Proof.
  intros Hthr. induction idx as [|i rest IH]; intros m b r Hidx Hb H.
  - simpl in H. injection H as <-. exact Hb.
  - inversion Hidx as [|? ? Hi Hrest]; subst.
    cbn [pos_envelope_from] in H.
    destruct (Qgtb (nth i d 0) thr && Qgtb (nth i d 0) (m + thr * (1 # 10)))
      eqn:E; [|eapply IH; eassumption].
    apply andb_true_iff in E. destruct E as [E1 _]. apply Qgtb_gt in E1.
    inv_bind H.
    destruct (Qgtb (Qabs x) fthr); [|eapply IH; eassumption].
    refine (IH _ _ _ Hrest _ H).
    apply branch_from_append; [exact Hb|].
    exists i. cbn [fst snd].
    split; [apply nth_error_nth'; exact Hi|]. split; [eassumption | lra].
Qed.

Lemma neg_envelope_samples (d f : list Q) (thr fthr : Q) (origin : Q * Q) :
  (1 # 100) <= thr ->
  forall idx m b r,
    Forall (fun i => (i < length d)%nat) idx ->
    branch_from origin (fun x => x < - (1 # 100)) d f b ->
    neg_envelope_from d f thr fthr idx m b = Some r ->
    branch_from origin (fun x => x < - (1 # 100)) d f r.
Proof.
  intros Hthr. induction idx as [|i rest IH]; intros m b r Hidx Hb H.
  - simpl in H. injection H as <-. exact Hb.
  - inversion Hidx as [|? ? Hi Hrest]; subst.
    cbn [neg_envelope_from] in H.
    destruct (Qltb (nth i d 0) (- thr) && Qltb (nth i d 0) (m - thr * (1 # 10)))
      eqn:E; [|eapply IH; eassumption].
    apply andb_true_iff in E. destruct E as [E1 _]. apply Qltb_lt in E1.
    inv_bind H.
    destruct (Qgtb (Qabs x) fthr); [|eapply IH; eassumption].
    refine (IH _ _ _ Hrest _ H).
    apply branch_from_append; [exact Hb|].
    exists i. cbn [fst snd].
    split; [apply nth_error_nth'; exact Hi|]. split; [eassumption | lra].
Qed.

Lemma all_peaks_shape (d f : list Q) (thr : Q) (idx : list nat) :
  Forall (fun i => (i < length d)%nat) idx ->
  forall peaks,
    all_peaks_from d f thr idx = Some peaks ->
    Forall (fun p =>
              nth_error d (p_index p) = Some (p_disp p) /\
              nth_error f (p_index p) = Some (p_force p) /\
              match p_type p with
              | positive => thr < p_disp p
              | negative => p_disp p < - thr
              end) peaks.
Proof.
  induction idx as [|i rest IH]; intros Hidx peaks H.
  - simpl in H. injection H as <-. constructor.
  - inversion Hidx as [|? ? Hi Hrest]; subst. cbn [all_peaks_from] in H.
    destruct (strict_local_max d i && Qgtb (nth i d 0) thr) eqn:E.
    + apply andb_true_iff in E. destruct E as [_ E]. apply Qgtb_gt in E.
      inv_bind H. inv_bind H. injection H as <-.
      constructor; [|apply IH; [exact Hrest | reflexivity]].
      cbn [p_index p_disp p_force p_type].
      split; [apply nth_error_nth'; exact Hi | auto].
    + destruct (strict_local_min d i && Qltb (nth i d 0) (- thr)) eqn:E';
        [|apply IH; assumption].
      apply andb_true_iff in E'. destruct E' as [_ E']. apply Qltb_lt in E'.
      inv_bind H. inv_bind H. injection H as <-.
      constructor; [|apply IH; [exact Hrest | reflexivity]].
      cbn [p_index p_disp p_force p_type].
      split; [apply nth_error_nth'; exact Hi | auto].
Qed.

Lemma link_pos_samples (d f : list Q) (thr : Q) (origin : Q * Q)
    (P : Q -> Prop) :
  forall peaks m b,
    Forall (fun p => sample_point P d f (p_disp p, p_force p)) peaks ->
    branch_from origin P d f b ->
    branch_from origin P d f (snd (fold_left (link_pos thr) peaks (m, b))).
Proof.
  induction peaks as [|p rest IH]; intros m b Hp Hb.
  - exact Hb.
  - inversion Hp as [|? ? Hs Hrest]; subst.
    cbn [fold_left]. unfold link_pos at 2.
    destruct (Qgtb (p_disp p) (m + thr * (1 # 10))).
    + apply IH; [exact Hrest|]. apply branch_from_append; assumption.
    + apply IH; assumption.
Qed.

Lemma link_neg_samples (d f : list Q) (thr : Q) (origin : Q * Q)
    (P : Q -> Prop) :
  forall peaks m b,
    Forall (fun p => sample_point P d f (p_disp p, p_force p)) peaks ->
    branch_from origin P d f b ->
    branch_from origin P d f (snd (fold_left (link_neg thr) peaks (m, b))).
Proof.
  induction peaks as [|p rest IH]; intros m b Hp Hb.
  - exact Hb.
  - inversion Hp as [|? ? Hs Hrest]; subst.
    cbn [fold_left]. unfold link_neg at 2.
    destruct (Qgtb (Qabs (p_disp p)) (Qabs m + thr * (1 # 10))).
    + apply IH; [exact Hrest|]. apply branch_from_append; assumption.
    + apply IH; assumption.
Qed.

Lemma sorted_filter_samples (d f : list Q) (thr : Q) (key : peak -> Q)
    (keep : peak -> bool) (P : Q -> Prop) (peaks : list peak) :
  (1 # 100) <= thr ->
  Forall (fun p =>
            nth_error d (p_index p) = Some (p_disp p) /\
            nth_error f (p_index p) = Some (p_force p) /\
            match p_type p with
            | positive => thr < p_disp p
            | negative => p_disp p < - thr
            end) peaks ->
  (forall p, keep p = true ->
             match p_type p with
             | positive => thr < p_disp p
             | negative => p_disp p < - thr
             end -> P (p_disp p)) ->
  Forall (fun p => sample_point P d f (p_disp p, p_force p))
    (sorted_by key (filter keep peaks)).
Proof.
  intros Hthr Hpeaks HP.
  eapply Permutation_Forall; [apply Permutation_sym, sorted_by_perm|].
  apply Forall_forall. intros p Hp. apply filter_In in Hp.
  destruct Hp as [Hin Hk]. rewrite Forall_forall in Hpeaks.
  destruct (Hpeaks p Hin) as [Hd [Hf Hs]].
  exists (p_index p). cbn [fst snd]. auto.
Qed.

Lemma peak_points_branches (displacement force : list Q) (sk : skeleton_curve) :
  extract_peak_points displacement force = Some sk ->
  exists thr peaks c,
    all_peaks_from displacement force thr (inner_range displacement)
    = Some peaks /\
    common_y_intercept_of displacement force peaks = Some c /\
    let f0 := match c with Some y_force => y_force | None => 0 end in
    branch_from (0, f0) (fun x => (1 # 100) < x) displacement force
      (sk_positive sk) /\
    branch_from (0, f0) (fun x => x < - (1 # 100)) displacement force
      (sk_negative sk).
Proof.
  unfold extract_peak_points. intros H.
  inv_bind H. inv_bind H. inv_bind H. injection H as <-.
  cbn [sk_positive sk_negative].
  set (thr := py_max (1 # 100) (x * (1 # 100))) in *.
  assert ((1 # 100) <= thr) as Hthr by apply py_max_ge_l.
  assert (Forall (fun i => (i < length displacement)%nat)
            (inner_range displacement)) as Hidx.
  { apply Forall_forall. intros i Hi. unfold inner_range in Hi.
    apply in_seq in Hi. lia. }
  pose proof (all_peaks_shape _ _ _ _ Hidx _ E0) as Hshape.
  exists thr, x0, x1. split; [exact E0|]. split; [exact E1|].
  cbv zeta. split.
  - apply link_pos_samples.
    + apply (sorted_filter_samples displacement force thr); try assumption.
      intros p Hk Hs. unfold is_positive in Hk.
      destruct (p_type p); [lra | discriminate].
    + destruct x1; apply (branch_from_origin (0, _)).
  - apply link_neg_samples.
    + apply (sorted_filter_samples displacement force thr); try assumption.
      intros p Hk Hs. unfold is_negative, is_positive in Hk.
      destruct (p_type p); [discriminate | lra].
    + destruct x1; apply (branch_from_origin (0, _)).
Qed.

(** Both branches of a skeleton start from the same point, of
    displacement 0, and every later point is a sample
    [(displacement[i], force[i])] of the series: one with a
    displacement above 0.01 in the positive branch, below -0.01 in the
    negative branch.  The start point is [(0, 0)] for the outer
    envelope. *)
Theorem skeleton_points_are_samples (method : skeleton_method)
    (displacement force : list Q) (sk : skeleton_curve) :
  extract_skeleton_curve method displacement force = Some sk ->
  exists f0,
    branch_from (0, f0) (fun x => (1 # 100) < x) displacement force
      (sk_positive sk) /\
    branch_from (0, f0) (fun x => x < - (1 # 100)) displacement force
      (sk_negative sk) /\
    (method = outer_envelope -> f0 = 0).
Proof.
  destruct method; simpl; intros H.
  - unfold extract_outer_envelope in H.
    inv_bind H. inv_bind H. inv_bind H. inv_bind H. injection H as <-.
    cbn [sk_positive sk_negative].
    assert (Forall (fun i => (i < length displacement)%nat)
              (seq 0 (length displacement))) as Hidx.
    { apply Forall_forall. intros i Hi. apply in_seq in Hi. lia. }
    exists 0. split; [|split; [|reflexivity]].
    + eapply pos_envelope_samples; [apply py_max_ge_l | exact Hidx | | exact E1].
      apply (branch_from_origin (0, 0)).
    + eapply neg_envelope_samples; [apply py_max_ge_l | exact Hidx | | exact E2].
      apply (branch_from_origin (0, 0)).
  - destruct (peak_points_branches _ _ _ H)
      as [thr [peaks [c [_ [_ [Hpos Hneg]]]]]].
    eexists. split; [exact Hpos|]. split; [exact Hneg | discriminate].
Qed.

(** [skeleton_points_are_samples] on the scenario of the specification,
    by the outer envelope. *)
Lemma skeleton_points_are_samples_witness :
  exists f0,
    branch_from (0, f0) (fun x => (1 # 100) < x)
      [0; 2; 4; 2; 0; -(2); -(4); -(2); 0]
      [0; 10; 20; 15; 0; -(10); -(20); -(15); 0]
      (mk_branch [0; 2; 4] [0; 10; 20]) /\
    branch_from (0, f0) (fun x => x < - (1 # 100))
      [0; 2; 4; 2; 0; -(2); -(4); -(2); 0]
      [0; 10; 20; 15; 0; -(10); -(20); -(15); 0]
      (mk_branch [0; -(2); -(4)] [0; -(10); -(20)]) /\
    (outer_envelope = outer_envelope -> f0 = 0).
Proof.
  apply (skeleton_points_are_samples outer_envelope
           [0; 2; 4; 2; 0; -(2); -(4); -(2); 0]
           [0; 10; 20; 15; 0; -(10); -(20); -(15); 0]
           (mk_skeleton (mk_branch [0; 2; 4] [0; 10; 20])
              (mk_branch [0; -(2); -(4)] [0; -(10); -(20)]))).
  vm_compute. reflexivity.
Defined.

(** ** The common origin of the peak-point branches *)

Lemma interpolation_between (dj dj1 fj fj1 : Q) :
  dj <= 0 -> 0 < dj1 ->
  between fj fj1 (fj + - dj / (dj1 - dj) * (fj1 - fj)).
Proof.
  intros Hj Hj1.
  set (t := - dj / (dj1 - dj)).
  assert (0 <= t) as Ht0
      by (apply Qle_shift_div_l; lra).
  assert (t <= 1) as Ht1
      by (apply Qle_shift_div_r; lra).
  unfold between.
  destruct (Qlt_le_dec fj fj1) as [Hlt|Hge].
  - left. split; nra.
  - right. split; nra.
Qed.

Lemma crossing_from_between (d f : list Q) (idx : list nat) (y : Q) :
  crossing_from d f idx = Some (Some y) ->
  exists j dj dj1 fj fj1,
    In j idx /\
    nth_error d j = Some dj /\ nth_error d (j + 1) = Some dj1 /\
    nth_error f j = Some fj /\ nth_error f (j + 1) = Some fj1 /\
    dj <= 0 /\ 0 < dj1 /\ between fj fj1 y.
Proof.
  induction idx as [|j rest IH]; cbn [crossing_from]; intros H.
  - discriminate.
  - assert (crossing_from d f rest = Some (Some y) ->
            exists j0 dj dj1 fj fj1,
              In j0 (j :: rest) /\
              nth_error d j0 = Some dj /\ nth_error d (j0 + 1) = Some dj1 /\
              nth_error f j0 = Some fj /\ nth_error f (j0 + 1) = Some fj1 /\
              dj <= 0 /\ 0 < dj1 /\ between fj fj1 y) as Hrest.
    { intros Hr. destruct (IH Hr) as [j0 [dj [dj1 [fj [fj1 [Hin Hx]]]]]].
      exists j0, dj, dj1, fj, fj1. split; [right; exact Hin | exact Hx]. }
    inv_bind H.
    destruct (Qle_bool x 0) eqn:E0; [|apply Hrest; exact H].
    apply Qle_bool_iff in E0.
    inv_bind H.
    destruct (Qgtb x0 0) eqn:E2; [|apply Hrest; exact H].
    apply Qgtb_gt in E2.
    destruct (negb (Qeq_bool x0 x)); [|apply Hrest; exact H].
    inv_bind H. inv_bind H. injection H as <-.
    exists j, x, x0, x1, x2.
    split; [left; reflexivity|].
    repeat (split; [assumption|]).
    apply interpolation_between; assumption.
Qed.

(** The two branches of the peak-point skeleton start with the same
    force, and that force is either 0 or interpolated at a zero
    crossing of the displacement: it lies between the forces of two
    consecutive samples, the first with a displacement [<= 0] and the
    second with a displacement [> 0]. *)
Theorem peak_points_origin (displacement force : list Q) (sk : skeleton_curve) :
  extract_peak_points displacement force = Some sk ->
  exists f0,
    nth_error (br_force (sk_positive sk)) 0 = Some f0 /\
    nth_error (br_force (sk_negative sk)) 0 = Some f0 /\
    (f0 = 0 \/
     exists j dj dj1 fj fj1,
       nth_error displacement j = Some dj /\
       nth_error displacement (j + 1) = Some dj1 /\
       nth_error force j = Some fj /\
       nth_error force (j + 1) = Some fj1 /\
       dj <= 0 /\ 0 < dj1 /\ between fj fj1 f0).
Proof.
  intros H.
  destruct (peak_points_branches _ _ _ H)
    as [thr [peaks [c [_ [Hc [[ptsp [_ [Hfp _]]] [ptsn [_ [Hfn _]]]]]]]]].
  cbn [fst snd] in Hfp, Hfn.
  exists (match c with Some y_force => y_force | None => 0 end).
  split; [rewrite Hfp; reflexivity|].
  split; [rewrite Hfn; reflexivity|].
  destruct c as [y|]; [|left; reflexivity].
  right. unfold common_y_intercept_of in Hc.
  destruct (first_neg_peak_idx peaks); [|discriminate].
  destruct (second_pos_peak_idx peaks); [|discriminate].
  apply crossing_from_between in Hc.
  destruct Hc as [j [dj [dj1 [fj [fj1 [_ Hx]]]]]].
  exists j, dj, dj1, fj, fj1. exact Hx.
Qed.

(** [peak_points_origin] on a series whose displacement crosses zero
    between its negative peak and its second positive peak. *)
Lemma peak_points_origin_witness :
  exists sk f0,
    extract_peak_points [0; 2; 0; -(2); 1; 3; 0] [0; 20; 0; -(20); 25; 30; 0]
    = Some sk /\
    nth_error (br_force (sk_positive sk)) 0 = Some f0 /\
    nth_error (br_force (sk_negative sk)) 0 = Some f0 /\
    (f0 = 0 \/
     exists j dj dj1 fj fj1,
       nth_error [0; 2; 0; -(2); 1; 3; 0] j = Some dj /\
       nth_error [0; 2; 0; -(2); 1; 3; 0] (j + 1) = Some dj1 /\
       nth_error [0; 20; 0; -(20); 25; 30; 0] j = Some fj /\
       nth_error [0; 20; 0; -(20); 25; 30; 0] (j + 1) = Some fj1 /\
       dj <= 0 /\ 0 < dj1 /\ between fj fj1 f0).
Proof.
  destruct (extract_peak_points [0; 2; 0; -(2); 1; 3; 0]
              [0; 20; 0; -(20); 25; 30; 0]) as [sk|] eqn:E;
    [|vm_compute in E; discriminate].
  exists sk.
  destruct (peak_points_origin _ _ _ E) as [f0 H].
  exists f0. split; [reflexivity | exact H].
Defined.

(** ** The cleaned series *)

Lemma keys_distinct_filter (p : Q * nat -> bool) (d : disp_dict) :
  keys_distinct d -> keys_distinct (filter p d).
Proof.
  induction d as [|e d IH]; simpl; intros H.
  - exact I.
  - destruct H as [He Hd]. destruct (p e); simpl.
    + split; [|apply IH; exact Hd].
      intros e' He'. apply filter_In in He'. apply He. tauto.
    + apply IH. exact Hd.
Qed.

Lemma dict_set_keys (key : Q) (v : nat) (d : disp_dict) (e : Q * nat) :
  In e (dict_set key v d) ->
  (exists e', In e' d /\ fst e' = fst e) \/ (fst e = key /\ snd e = v).
Proof.
  induction d as [|[k w] d IH]; simpl.
  - intros [<-|[]]. right. split; reflexivity.
  - destruct (Qeq_bool k key); simpl.
    + intros [<-|H].
      * left. exists (k, w). split; [left; reflexivity | reflexivity].
      * left. exists e. split; [right; exact H | reflexivity].
    + intros [<-|H].
      * left. exists (k, w). split; [left; reflexivity | reflexivity].
      * destruct (IH H) as [[e' [He' Hf]]|Hnew]; [|right; exact Hnew].
        left. exists e'. split; [right; exact He' | exact Hf].
Qed.

Lemma keys_distinct_set (key : Q) (v : nat) (d : disp_dict) :
  keys_distinct d -> keys_distinct (dict_set key v d).
Proof.
  induction d as [|[k w] d IH]; simpl; intros H.
  - split; [intros e' [] | exact I].
  - destruct H as [He Hd]. destruct (Qeq_bool k key) eqn:E; simpl.
    + split; assumption.
    + split; [|apply IH; exact Hd].
      intros e' He'. apply dict_set_keys in He'.
      destruct He' as [[e'' [Hin Hf]]|[Hf _]].
      * rewrite <- Hf. apply He. exact Hin.
      * rewrite Hf. intros Hq. symmetry in Hq.
        apply Qeq_bool_iff in Hq. congruence.
Qed.

Lemma keys_distinct_inj (d : disp_dict) (e1 e2 : Q * nat) :
  keys_distinct d -> In e1 d -> In e2 d -> fst e1 == fst e2 -> e1 = e2.
Proof.
  induction d as [|e d IH]; simpl; intros H H1 H2 Hq.
  - destruct H1.
  - destruct H as [He Hd].
    destruct H1 as [<-|H1], H2 as [<-|H2].
    + reflexivity.
    + exfalso. apply (He e2 H2). symmetry. exact Hq.
    + exfalso. apply (He e1 H1). exact Hq.
    + apply IH; assumption.
Qed.

Lemma keys_of_samples_set (dc : list Q) (k : nat) (d : disp_dict) :
  keys_of_samples dc d -> keys_of_samples dc (dict_set (nth k dc 0) k d).
Proof.
  unfold keys_of_samples. induction d as [|[key w] d IH]; simpl; intros H e He.
  - destruct He as [<-|[]]. reflexivity.
  - destruct (Qeq_bool key (nth k dc 0)) eqn:E.
    + destruct He as [<-|He]; [|apply H; right; exact He].
      apply Qeq_bool_iff in E. cbn [fst snd]. symmetry. exact E.
    + destruct He as [<-|He]; [apply H; left; reflexivity|].
      apply IH; [|exact He]. intros e' He'. apply H. right. exact He'.
Qed.

Lemma dedup_step_keys (dc fc : list Q) (tol : Q) (k : nat) (d d' : disp_dict) :
  keys_distinct d -> keys_of_samples dc d ->
  dedup_step dc fc tol d k = Some d' ->
  keys_distinct d' /\ keys_of_samples dc d' /\ d' <> [].
Proof.
  intros Hk Hs H. unfold dedup_step in H.
  inv_bind H. inv_bind H.
  apply (nth_error_nth dc _ 0) in E. subst x.
  assert (forall key (dd : disp_dict), dict_set key k dd <> []) as Hne.
  { intros key [|[k0 w] dd]; simpl; [discriminate|].
    destruct (Qeq_bool k0 key); discriminate. }
  destruct (find_similar tol (nth k dc 0) d) as [[sd sidx]|] eqn:Ef.
  - inv_bind H. destruct (Qgtb _ _).
    + injection H as <-. split; [|split; [|apply Hne]].
      * apply keys_distinct_set, keys_distinct_filter. exact Hk.
      * apply keys_of_samples_set. intros e He.
        apply dict_del_In in He. apply Hs. tauto.
    + injection H as <-. split; [exact Hk|]. split; [exact Hs|].
      apply find_similar_Some in Ef. destruct Ef as [Hin _].
      intros Hnil. rewrite Hnil in Hin. destruct Hin.
  - injection H as <-. split; [|split; [|apply Hne]].
    + apply keys_distinct_set. exact Hk.
    + apply keys_of_samples_set. exact Hs.
Qed.

Lemma dedup_from_keys (dc fc : list Q) (tol : Q) (idx : list nat) :
  forall d d',
    keys_distinct d -> keys_of_samples dc d ->
    dedup_from dc fc tol idx d = Some d' ->
    keys_distinct d' /\ keys_of_samples dc d' /\ (idx <> [] -> d' <> []).
Proof.
  induction idx as [|i rest IH]; intros d d' Hk Hs H; cbn [dedup_from] in H.
  - injection H as <-. split; [exact Hk|]. split; [exact Hs|]. congruence.
  - inv_bind H.
    destruct (dedup_step_keys _ _ _ _ _ _ Hk Hs E) as [Hk1 [Hs1 Hne1]].
    destruct (IH _ _ Hk1 Hs1 H) as [Hk' [Hs' Hne']].
    split; [exact Hk'|]. split; [exact Hs'|]. intros _.
    destruct rest as [|j rest'].
    + simpl in H. injection H as <-. exact Hne1.
    + apply Hne'. discriminate.
Qed.

Lemma sorted_lt_NoDup (l : list nat) : StronglySorted lt l -> NoDup l.
Proof.
  induction 1 as [|a l Hs IH Ha]; constructor; [|exact IH].
  intros Hin. rewrite Forall_forall in Ha. apply Ha in Hin. lia.
Qed.

Lemma sorted_length_bound (l : list nat) (n : nat) :
  StronglySorted lt l -> Forall (fun i => (i < n)%nat) l ->
  (length l <= n)%nat.
Proof.
  intros Hs Hn. rewrite <- (length_seq n 0).
  apply NoDup_incl_length; [apply sorted_lt_NoDup; exact Hs|].
  intros i Hi. rewrite Forall_forall in Hn. apply in_seq.
  specialize (Hn i Hi). lia.
Qed.

Lemma map_shift_distinct (offset : Q) (l : list Q) :
  pairwise_distinct l -> pairwise_distinct (map (fun x => x - offset) l).
Proof.
  intros H a b Hab. rewrite length_map in Hab.
  assert (forall i, (i < length l)%nat ->
                    nth i (map (fun x => x - offset) l) 0 = nth i l 0 - offset)
    as Hnth.
  { intros i Hi.
    rewrite (nth_indep _ 0 (0 - offset)) by (rewrite length_map; exact Hi).
    apply (map_nth (fun x => x - offset)). }
  rewrite !Hnth by lia.
  intros Hq. apply (H a b Hab). lra.
Qed.

(** The deduplicated series: aligned, not longer than the input, not
    empty, and without two equal displacements. *)
Lemma dedup_series_distinct (displacement force : list Q) (thr fthr : Q)
    (dd ff : list Q) :
  length displacement = length force ->
  displacement <> [] ->
  dedup_series displacement force thr fthr = Some (dd, ff) ->
  length dd = length ff /\
  (1 <= length dd <= length displacement)%nat /\
  pairwise_distinct dd.
Proof.
  intros Hlen Hne H.
  pose proof (dedup_series_lengths _ _ _ _ _ _ H) as Hlen'.
  split; [exact Hlen'|].
  unfold dedup_series in H.
  rewrite Hlen, snap_prefix_map in H. cbn [bind] in H.
  set (dc := map (snap thr) displacement) in *.
  set (fc := map (snap fthr) force) in *.
  assert (length dc = length fc) as Hlc
      by (subst dc fc; rewrite !length_map; exact Hlen).
  assert (length dc = length displacement) as Hdc
      by (subst dc; apply length_map).
  destruct (unique_indices_sorted dc fc (thr * (1 # 2)) Hlc)
    as [idx [Hidx [Hs Hr]]].
  rewrite Hidx in H. cbn [bind] in H.
  rewrite (take_indices_nth dc idx Hr) in H. cbn [bind] in H.
  rewrite Hlc in Hr.
  rewrite (take_indices_nth fc idx Hr) in H. cbn [bind] in H.
  rewrite <- Hlc in Hr.
  injection H as <- <-.
  unfold unique_indices_of in Hidx. inv_bind Hidx. injection Hidx as Hx.
  rename x into d.
  destruct (dedup_from_keys dc fc (thr * (1 # 2)) (seq 0 (length dc)) [] d I)
    as [Hk [Hsamp Hnonempty]]; [intros e [] | exact E |].
  rewrite length_map.
  split; [split|].
  - assert (d <> []) as Hd.
    { apply Hnonempty. rewrite Hdc. destruct displacement; [congruence|].
      discriminate. }
    rewrite <- Hx.
    destruct d as [|e d]; [congruence|].
    assert (In (snd e) (sorted_nat (map snd (e :: d)))) as Hin
        by (apply sorted_nat_In; left; reflexivity).
    destruct (sorted_nat (map snd (e :: d))); [destruct Hin | simpl; lia].
  - rewrite <- Hdc. apply sorted_length_bound; assumption.
  - intros a b Hab. rewrite length_map in Hab.
    assert (forall i, (i < length idx)%nat ->
                      nth i (map (fun i => nth i dc 0) idx) 0
                      = nth (nth i idx 0%nat) dc 0) as Hnth.
    { intros i Hi.
      rewrite (nth_indep _ 0 (nth 0%nat dc 0)) by (rewrite length_map; exact Hi).
      apply (map_nth (fun i => nth i dc 0)). }
    rewrite !Hnth by lia.
    assert (nth a idx 0 < nth b idx 0)%nat as Hlt
        by (apply sorted_nth_lt; [exact Hs | lia]).
    assert (forall i, In i idx -> exists e, In e d /\ snd e = i) as Hentry.
    { intros i Hi. rewrite <- Hx in Hi.
      apply (proj1 (sorted_nat_In _ _)) in Hi.
      apply in_map_iff in Hi. destruct Hi as [e [He Hin]].
      exists e. split; assumption. }
    destruct (Hentry (nth a idx 0%nat)) as [ea [Ha Hsa]];
      [apply nth_In; lia|].
    destruct (Hentry (nth b idx 0%nat)) as [eb [Hb Hsb]];
      [apply nth_In; lia|].
    intros Hq.
    pose proof (Hsamp ea Ha) as Hka. pose proof (Hsamp eb Hb) as Hkb.
    rewrite Hsa in Hka. rewrite Hsb in Hkb.
    assert (ea = eb) as Heq.
    { apply (keys_distinct_inj d); try assumption.
      rewrite <- Hka, <- Hkb. exact Hq. }
    subst eb. lia.
Qed.

(** For a series of aligned samples, the cleaned series that
    [preprocess_data] returns is aligned, has at least one sample and no
    more than the input, and never holds two samples with the same
    displacement. *)
Theorem preprocess_output_distinct (displacement force d' f' : list Q) :
  length displacement = length force ->
  preprocess_data displacement force = Some (d', f') ->
  length d' = length f' /\
  (1 <= length d' <= length displacement)%nat /\
  pairwise_distinct d'.
Proof.
  intros Hlen H. unfold preprocess_data in H.
  inv_bind H. inv_bind H. inv_bind H. destruct x1 as [dd ff].
  cbn [fst snd] in H.
  assert (displacement <> []) as Hne.
  { intros ->. discriminate E. }
  destruct (dedup_series_distinct _ _ _ _ _ _ Hlen Hne E1)
    as [Hl [Hb Hdist]].
  rewrite (rezero_result x x0 dd ff Hl) in H. injection H as H.
  destruct (first_exceeding x x0 dd ff) as [[|i]|];
    injection H as <- <-; try (split; [|split]; assumption).
  rewrite length_map.
  split; [exact Hl|]. split; [exact Hb|].
  apply map_shift_distinct. exact Hdist.
Qed.

(** [preprocess_output_distinct] on the scenario of the specification,
    whose nine samples visit five displacements. *)
Lemma preprocess_output_distinct_witness :
  exists d' f',
    preprocess_data [0; 2; 4; 2; 0; -(2); -(4); -(2); 0]
      [0; 10; 20; 15; 0; -(10); -(20); -(15); 0] = Some (d', f') /\
    length d' = length f' /\
    (1 <= length d' <= 9)%nat /\
    pairwise_distinct d'.
Proof.
  destruct (preprocess_data [0; 2; 4; 2; 0; -(2); -(4); -(2); 0]
              [0; 10; 20; 15; 0; -(10); -(20); -(15); 0])
    as [[d' f']|] eqn:E; [|vm_compute in E; discriminate].
  exists d', f'. split; [reflexivity|].
  apply (preprocess_output_distinct
           [0; 2; 4; 2; 0; -(2); -(4); -(2); 0]
           [0; 10; 20; 15; 0; -(10); -(20); -(15); 0]).
  - reflexivity.
  - exact E.
Defined.

(** C2, amended: for every aligned series, deduplication returns the
    cleaned (zero-snapped) series read at a strictly increasing list of
    indices, that is, in the original time order; the list is not
    empty and no displacement is returned twice; and when being within
    [0.5 * disp_threshold] is transitive on the cleaned displacements,
    so that the samples fall into groups, the indices kept are exactly
    those of the first sample of largest [|force|] of every group. *)
Theorem dedup_keeps_first_largest (displacement force : list Q) (thr fthr : Q) :
  length displacement = length force ->
  disp_threshold_of displacement = Some thr ->
  let dc := map (snap thr) displacement in
  let fc := map (snap fthr) force in
  let tol := thr * (1 # 2) in
  exists idx,
    dedup_series displacement force thr fthr
    = Some (map (fun i => nth i dc 0) idx, map (fun i => nth i fc 0) idx) /\
    StronglySorted lt idx /\
    Forall (fun i => (i < length displacement)%nat) idx /\
    idx <> [] /\
    pairwise_distinct (map (fun i => nth i dc 0) idx) /\
    (groups_well_defined dc tol ->
     forall i, In i idx <->
               (i < length displacement)%nat /\ first_largest dc fc tol i).
Proof.
  intros Hlen Hthr dc fc tol.
  assert (length dc = length fc) as Hlen'
      by (subst dc fc; rewrite !length_map; exact Hlen).
  destruct (unique_indices_sorted dc fc tol Hlen') as [idx [Hidx [Hs Hr]]].
  assert (length dc = length displacement) as Hdc
      by (subst dc; apply length_map).
  rewrite Hdc in Hr.
  assert (displacement <> []) as Hne.
  { intros ->. discriminate Hthr. }
  pose proof (dedup_series_result displacement force thr fthr idx Hlen Hidx Hr)
    as Hres.
  destruct (dedup_series_distinct displacement force thr fthr _ _ Hlen Hne Hres)
    as [_ [[Hpos _] Hdist]].
  exists idx. split; [exact Hres|].
  split; [exact Hs|]. split; [exact Hr|].
  split.
  { intros ->. simpl in Hpos. lia. }
  split; [exact Hdist|].
  intros Hg i. rewrite <- Hdc.
  apply (unique_indices_groups dc fc tol Hlen'); [|exact Hg | exact Hidx].
  apply disp_threshold_pos in Hthr. subst tol. lra.
Qed.

(** [dedup_keeps_first_largest] on a series whose second and third
    samples share their displacement: the third, of larger force, is
    kept. *)
Lemma dedup_keeps_first_largest_witness :
  exists idx,
    dedup_series [0; 2; 2; 5] [0; 10; 15; 3] (5 # 1000) (15 # 1000)
    = Some (map (fun i => nth i (map (snap (5 # 1000)) [0; 2; 2; 5]) 0) idx,
            map (fun i => nth i (map (snap (15 # 1000)) [0; 10; 15; 3]) 0) idx) /\
    StronglySorted lt idx /\
    idx <> [] /\
    pairwise_distinct
      (map (fun i => nth i (map (snap (5 # 1000)) [0; 2; 2; 5]) 0) idx) /\
    forall i, In i idx <->
              (i < 4)%nat /\
              first_largest (map (snap (5 # 1000)) [0; 2; 2; 5])
                (map (snap (15 # 1000)) [0; 10; 15; 3])
                ((5 # 1000) * (1 # 2)) i.
Proof.
  destruct (dedup_keeps_first_largest [0; 2; 2; 5] [0; 10; 15; 3]
              (5 # 1000) (15 # 1000)) as [idx [H1 [H2 [_ [H4 [H5 H3]]]]]].
  - reflexivity.
  - vm_compute. reflexivity.
  - exists idx. split; [exact H1|]. split; [exact H2|].
    split; [exact H4|]. split; [exact H5|].
    apply H3. intros i j k Hi Hj Hk. simpl in Hi, Hj, Hk.
    destruct i as [|[|[|[|i]]]]; [| | | |lia];
      (destruct j as [|[|[|[|j]]]]; [| | | |lia]);
      (destruct k as [|[|[|[|k]]]]; [| | | |lia]);
      intros N1 N2; vm_compute in N1, N2 |- *;
      first [ intro; discriminate
            | exfalso; apply N1; reflexivity
            | exfalso; apply N2; reflexivity ].
Defined.

(** ** The groups of the first-loop filter *)

Lemma group_fold_positions (pi : list nat) (pv : list Q) (pval : Q)
    (js : list nat) :
  NoDup js ->
  forall group used group' used',
    fold_left (group_step pi pv pval) js (group, used) = (group', used') ->
    exists added,
      group' = group ++ map (fun j => nth j pi 0%nat) added /\
      (forall j, In j used' <-> In j used \/ In j added) /\
      NoDup added /\
      (forall j, In j added -> In j js /\ ~ In j used).
Proof.
  induction js as [|j js IH]; intros Hnd group used group' used' H.
  - simpl in H. injection H as <- <-. exists [].
    rewrite app_nil_r. split; [reflexivity|].
    split; [intros j; simpl; tauto|]. split; [constructor | intros j []].
  - inversion Hnd as [|? ? Hj Hnd']; subst.
    cbn [fold_left] in H. unfold group_step at 2 in H.
    destruct (mem j used) eqn:Em.
    + destruct (IH Hnd' _ _ _ _ H) as [added [Hg [Hu [Ha Hin]]]].
      exists added. split; [exact Hg|]. split; [exact Hu|].
      split; [exact Ha|]. intros k Hk. destruct (Hin k Hk). split; [right|]; auto.
    + apply mem_not_In in Em.
      destruct (Qle_bool (Qabs (nth j pv 0 - pval)) (tolerance * pval)).
      * destruct (IH Hnd' _ _ _ _ H) as [added [Hg [Hu [Ha Hin]]]].
        exists (j :: added). rewrite Hg, <- app_assoc. cbn [map app].
        split; [reflexivity|]. split; [|split].
        -- intros k. rewrite Hu. simpl. intuition auto.
        -- constructor; [|exact Ha]. intros Hja.
           destruct (Hin j Hja) as [_ Hn]. apply Hn. left. reflexivity.
        -- intros k [<-|Hk]; [split; [left; reflexivity | exact Em]|].
           destruct (Hin k Hk) as [H1 H2].
           split; [right; exact H1|]. intros Hku. apply H2. right. exact Hku.
      * destruct (IH Hnd' _ _ _ _ H) as [added [Hg [Hu [Ha Hin]]]].
        exists added. split; [exact Hg|]. split; [exact Hu|].
        split; [exact Ha|]. intros k Hk. destruct (Hin k Hk).
        split; [right|]; auto.
Qed.

Lemma NoDup_map_nth (pi : list nat) (l : list nat) :
  NoDup pi -> NoDup l -> Forall (fun j => (j < length pi)%nat) l ->
  NoDup (map (fun j => nth j pi 0%nat) l).
Proof.
  intros Hpi. induction l as [|a l IH]; intros Hl Hb; simpl.
  - constructor.
  - inversion Hl as [|? ? Ha Hl']; subst.
    inversion Hb as [|? ? Hab Hb']; subst.
    constructor; [|apply IH; assumption].
    intros Hin. apply in_map_iff in Hin. destruct Hin as [b [Heq Hbl]].
    rewrite Forall_forall in Hb'.
    assert (b = a) as ->; [|contradiction].
    apply (proj1 (NoDup_nth pi 0%nat) Hpi); [apply Hb'; exact Hbl | exact Hab |].
    exact Heq.
Qed.

Lemma grouping_step (pi : list nat) (pv : list Q) (i : nat)
    (groups : list (list nat)) (used : list nat) :
  NoDup pi -> (i < length pi)%nat ->
  grouping_inv pi i groups used ->
  grouping_inv pi (S i) (fst (groups_step pi pv (groups, used) i))
    (snd (groups_step pi pv (groups, used) i)).
Proof.
  intros Hpi Hi [Hnd [Hmem Hused]]. unfold groups_step.
  destruct (mem i used) eqn:Em.
  - apply mem_In in Em. cbn [fst snd]. split; [exact Hnd|].
    split; [|exact Hused].
    intros v. rewrite Hmem. split; intros [j [Hj [Hv Hc]]]; exists j;
      (split; [exact Hj|]; split; [exact Hv|]).
    + destruct Hc; [left; lia | right; assumption].
    + destruct Hc as [Hc|Hc]; [|right; exact Hc].
      destruct (Nat.eq_dec j i) as [->|Hne]; [right; exact Em | left; lia].
  - apply mem_not_In in Em.
    destruct (fold_left (group_step pi pv (nth i pv 0))
                (seq (S i) (length pi - S i)) ([nth i pi 0%nat], used))
      as [group used'] eqn:E.
    cbn [fst snd].
    apply group_fold_positions in E; [|apply seq_NoDup].
    destruct E as [added [-> [Hu [Ha Hin]]]].
    assert (forall j, In j added -> (i < j < length pi)%nat /\ ~ In j used)
      as Hadded.
    { intros j Hj. destruct (Hin j Hj) as [H1 H2]. apply in_seq in H1.
      split; [lia | exact H2]. }
    assert (forall a b, (a < length pi)%nat -> (b < length pi)%nat ->
                        nth a pi 0%nat = nth b pi 0%nat -> a = b) as Hinj.
    { intros a b Ha' Hb'. apply (proj1 (NoDup_nth pi 0%nat) Hpi); assumption. }
    unfold grouping_inv. rewrite concat_app. cbn [concat]. rewrite app_nil_r.
    assert (forall v, In v ([nth i pi 0%nat] ++ map (fun j => nth j pi 0%nat) added)
                      <-> exists j, v = nth j pi 0%nat /\ (j = i \/ In j added))
      as Hgroup.
    { intros v. cbn [app In]. rewrite in_map_iff. split.
      - intros [<-|[j [<- Hj]]];
          [exists i; auto | exists j; auto].
      - intros [j [-> [->|Hj]]]; [left; reflexivity|].
        right. exists j. auto. }
    split; [|split].
    + apply NoDup_app; [exact Hnd | |].
      * cbn [app]. constructor.
        -- intros Hin'. apply in_map_iff in Hin'.
           destruct Hin' as [j [Heq Hj]].
           destruct (Hadded j Hj) as [Hr _].
           apply Hinj in Heq; lia.
        -- apply NoDup_map_nth; [exact Hpi | exact Ha |].
           apply Forall_forall. intros j Hj. apply Hadded in Hj. lia.
      * intros v Hv Hg. apply Hmem in Hv. apply Hgroup in Hg.
        destruct Hv as [j [Hj [-> Hc]]]. destruct Hg as [j' [Heq Hc']].
        assert (j' < length pi)%nat as Hj'
            by (destruct Hc' as [->|Hc']; [exact Hi | apply Hadded in Hc'; lia]).
        apply Hinj in Heq; [|exact Hj | exact Hj']. subst j'.
        destruct Hc' as [->|Hc'].
        -- destruct Hc; [lia | contradiction].
        -- destruct (Hadded j Hc') as [Hr Hn].
           destruct Hc; [lia | contradiction].
    + intros v. rewrite in_app_iff, Hmem, Hgroup. split.
      * intros [[j [Hj [Hv Hc]]]|[j [Hv Hc]]].
        -- exists j. split; [exact Hj|]. split; [exact Hv|].
           destruct Hc; [left; lia | right; apply Hu; left; assumption].
        -- exists j.
           destruct Hc as [->|Hc].
           ++ split; [exact Hi|]. split; [exact Hv | left; lia].
           ++ split; [apply Hadded in Hc; lia|]. split; [exact Hv|].
              right. apply Hu. right. exact Hc.
      * intros [j [Hj [Hv Hc]]].
        destruct Hc as [Hc|Hc].
        -- destruct (Nat.eq_dec j i) as [->|Hne].
           ++ right. exists i. auto.
           ++ left. exists j. split; [exact Hj|]. split; [exact Hv|].
              left. lia.
        -- apply Hu in Hc. destruct Hc as [Hc|Hc].
           ++ left. exists j. auto.
           ++ right. exists j. auto.
    + intros j Hj. apply Hu in Hj. destruct Hj as [Hj|Hj];
        [apply Hused; exact Hj | apply Hadded in Hj; lia].
Qed.

Lemma grouping_fold (pi : list nat) (pv : list Q) (m : nat) :
  NoDup pi ->
  forall i groups used,
    (i + m = length pi)%nat ->
    grouping_inv pi i groups used ->
    exists used',
      grouping_inv pi (length pi)
        (fst (fold_left (groups_step pi pv) (seq i m) (groups, used))) used'.
Proof.
  intros Hpi. induction m as [|m IH]; intros i groups used Him Hinv.
  - simpl. exists used. replace (length pi) with i by lia. exact Hinv.
  - cbn [seq fold_left].
    pose proof (grouping_step pi pv i groups used Hpi ltac:(lia) Hinv) as Hstep.
    destruct (groups_step pi pv (groups, used) i) as [groups1 used1].
    cbn [fst snd] in Hstep.
    apply (IH (S i) groups1 used1); [lia | exact Hstep].
Qed.

(** The grouping of the first-loop filter is a partition of the peaks:
    every peak index is in exactly one group. *)
Theorem peak_groups_partition (displacement : list Q) :
  Permutation (concat (peak_groups displacement))
    (peaks_indices_of displacement).
Proof.
  pose proof (sorted_lt_NoDup _ (peaks_indices_sorted displacement)) as Hpi.
  unfold peak_groups.
  set (pi := peaks_indices_of displacement) in *.
  set (pv := map (fun i => nth i (np_abs displacement) 0) pi).
  destruct (grouping_fold pi pv (length pi) Hpi 0 [] [])
    as [used' [Hnd [Hmem _]]].
  - reflexivity.
  - split; [constructor|]. split; [|intros j []].
    intros v. simpl. split; [intros []|].
    intros [j [_ [_ [Hc|[]]]]]. lia.
  - apply NoDup_Permutation; [exact Hnd | exact Hpi |].
    intros v. rewrite Hmem. split.
    + intros [j [Hj [-> _]]]. apply nth_In. exact Hj.
    + intros Hv. apply (In_nth pi v 0%nat) in Hv. destruct Hv as [j [Hj <-]].
      exists j. split; [exact Hj|]. split; [reflexivity | left; exact Hj].
Qed.

(** *** The rule of the grouping *)

Lemma joins_cons (pv : list Q) (pval : Q) (used : list nat) (j a : nat) :
  a <> j -> joins pv pval (j :: used) a = joins pv pval used a.
Proof.
  intros Hne. unfold joins, mem. cbn [existsb].
  rewrite (proj2 (Nat.eqb_neq a j) Hne). reflexivity.
Qed.

(** The inner loop adds to the group, in order, the positions that pass
    its test against the positions used when it starts. *)
Lemma group_fold_exact (pi : list nat) (pv : list Q) (pval : Q)
    (js : list nat) :
  NoDup js ->
  forall group used,
    fold_left (group_step pi pv pval) js (group, used)
    = (group ++ map (fun j => nth j pi 0%nat) (filter (joins pv pval used) js),
       rev (filter (joins pv pval used) js) ++ used).
Proof.
  induction js as [|j js IH]; intros Hnd group used.
  - cbn. rewrite app_nil_r. reflexivity.
  - inversion Hnd as [|? ? Hj Hnd']; subst.
    cbn [fold_left filter]. unfold group_step at 2.
    destruct (mem j used) eqn:Em.
    { assert (joins pv pval used j = false) as ->
          by (unfold joins; rewrite Em; reflexivity).
      apply IH; exact Hnd'. }
    destruct (Qle_bool (Qabs (nth j pv 0 - pval)) (tolerance * pval)) eqn:Ec.
    2:{ assert (joins pv pval used j = false) as ->
            by (unfold joins; rewrite Em, Ec; reflexivity).
        apply IH; exact Hnd'. }
    assert (joins pv pval used j = true) as ->
        by (unfold joins; rewrite Em, Ec; reflexivity).
    rewrite (IH Hnd').
    assert (filter (joins pv pval (j :: used)) js
            = filter (joins pv pval used) js) as ->.
    { apply filter_ext_in. intros a Ha. apply joins_cons.
      intros ->. contradiction. }
    cbn [map rev]. rewrite <- !app_assoc. reflexivity.
Qed.

Lemma app_one_split {A : Type} (l pre post : list A) (x g : A) :
  l ++ [x] = pre ++ g :: post ->
  (post = [] /\ pre = l /\ g = x) \/
  (exists post', post = post' ++ [x] /\ l = pre ++ g :: post').
Proof.
  intros H. destruct post as [|p post0].
  - apply app_inj_tail in H. destruct H as [-> ->]. left. auto.
  - destruct (exists_last (l := p :: post0) ltac:(discriminate))
      as [post' [y Hy]].
    rewrite Hy in H.
    change (pre ++ g :: post' ++ [y]) with (pre ++ (g :: post') ++ [y]) in H.
    rewrite app_assoc in H. apply app_inj_tail in H. destruct H as [-> ->].
    right. exists post'. rewrite Hy. auto.
Qed.

Lemma grouping_rule_step (pi : list nat) (pv : list Q) (i : nat)
    (groups : list (list nat)) (used : list nat) :
  NoDup pi -> (i < length pi)%nat ->
  grouping_inv pi i groups used ->
  (forall pre g post, groups = pre ++ g :: post -> group_rule_pos pi pv pre g) ->
  forall pre g post,
    fst (groups_step pi pv (groups, used) i) = pre ++ g :: post ->
    group_rule_pos pi pv pre g.
Proof.
  intros Hpi Hi [Hnd [Hmem Hused]] Hrule. unfold groups_step.
  destruct (mem i used) eqn:Em; [exact Hrule|].
  apply mem_not_In in Em.
  rewrite group_fold_exact by apply seq_NoDup. cbn [fst].
  intros pre g post Heq.
  apply app_one_split in Heq.
  destruct Heq as [[-> [-> ->]]|[post' [-> Hg]]]; [|eapply Hrule; exact Hg].
  assert (forall a b, (a < length pi)%nat -> (b < length pi)%nat ->
                      nth a pi 0%nat = nth b pi 0%nat -> a = b) as Hinj.
  { intros a b Ha Hb. apply (proj1 (NoDup_nth pi 0%nat) Hpi); assumption. }
  exists i, (filter (joins pv (nth i pv 0) used) (seq (S i) (length pi - S i))).
  split; [exact Hi|]. split; [reflexivity|].
  split.
  { intros Hin. apply Hmem in Hin. destruct Hin as [j [Hj [Heq Hc]]].
    apply Hinj in Heq; [|exact Hi | exact Hj]. subst j.
    destruct Hc; [lia | contradiction]. }
  split.
  { intros j Hj. apply Hmem. exists j. split; [lia|]. split; [reflexivity|].
    left. exact Hj. }
  split; [apply filter_sorted, seq_sorted|].
  intros j. rewrite filter_In, in_seq. unfold joins.
  rewrite andb_true_iff, negb_true_iff, mem_not_In, Qle_bool_iff.
  split.
  - intros [Hr [Hnu Hc]]. split; [lia|]. split; [|exact Hc].
    intros Hin. apply Hmem in Hin. destruct Hin as [j' [Hj' [Heq Hc']]].
    apply Hinj in Heq; [|lia | exact Hj']. subst j'.
    destruct Hc'; [lia | contradiction].
  - intros [Hr [Hnp Hc]]. split; [lia|]. split; [|exact Hc].
    intros Hu. apply Hnp. apply Hmem. exists j.
    split; [lia|]. split; [reflexivity|]. right. exact Hu.
Qed.

Lemma grouping_rule_fold (pi : list nat) (pv : list Q) (m : nat) :
  NoDup pi ->
  forall i groups used,
    (i + m = length pi)%nat ->
    grouping_inv pi i groups used ->
    (forall pre g post, groups = pre ++ g :: post ->
                        group_rule_pos pi pv pre g) ->
    forall pre g post,
      fst (fold_left (groups_step pi pv) (seq i m) (groups, used))
      = pre ++ g :: post ->
      group_rule_pos pi pv pre g.
Proof.
  intros Hpi. induction m as [|m IH]; intros i groups used Him Hinv Hrule.
  - exact Hrule.
  - cbn [seq fold_left].
    pose proof (grouping_step pi pv i groups used Hpi ltac:(lia) Hinv) as Hstep.
    pose proof (grouping_rule_step pi pv i groups used Hpi ltac:(lia) Hinv Hrule)
      as Hrule'.
    destruct (groups_step pi pv (groups, used) i) as [groups1 used1].
    cbn [fst snd] in Hstep, Hrule'.
    apply (IH (S i) groups1 used1); [lia | exact Hstep | exact Hrule'].
Qed.

Lemma map_nth_sorted (pi : list nat) (l : list nat) :
  StronglySorted lt pi -> StronglySorted lt l ->
  Forall (fun j => (j < length pi)%nat) l ->
  StronglySorted lt (map (fun j => nth j pi 0%nat) l).
Proof.
  intros Hpi. induction 1 as [|a l Hs IH Ha]; intros Hb; cbn [map].
  - constructor.
  - inversion Hb as [|? ? Hab Hb']; subst.
    constructor; [apply IH; exact Hb'|].
    apply Forall_map. rewrite Forall_forall in *. intros b Hin.
    apply sorted_nth_lt; [exact Hpi|]. split; [apply Ha, Hin | apply Hb', Hin].
Qed.

(** Every group of the filter follows the rule. *)
Lemma peak_groups_rule (displacement : list Q) (pre : list (list nat))
    (g : list nat) (post : list (list nat)) :
  peak_groups displacement = pre ++ g :: post ->
  group_rule displacement pre g.
Proof.
  intros Hg.
  pose proof (peaks_indices_sorted displacement) as Hs.
  pose proof (sorted_lt_NoDup _ Hs) as Hnd.
  unfold peak_groups in Hg. unfold group_rule.
  set (pi := peaks_indices_of displacement) in *.
  set (pv := map (fun i => nth i (np_abs displacement) 0) pi) in *.
  assert (forall j, (j < length pi)%nat ->
                    nth j pv 0 = Qabs (nth (nth j pi 0%nat) displacement 0))
    as Hv.
  { intros j Hj. subst pv.
    pose proof (map_nth (fun i => nth i (np_abs displacement) 0) pi 0%nat j)
      as Hm.
    cbv beta in Hm.
    rewrite (nth_indep _ 0 (nth 0%nat (np_abs displacement) 0))
      by (rewrite length_map; exact Hj).
    rewrite Hm. unfold np_abs.
    change 0 with (Qabs 0) at 1. rewrite map_nth. reflexivity. }
  destruct (grouping_rule_fold pi pv (length pi) Hnd 0 [] [] eq_refl) with
      (pre := pre) (g := g) (post := post)
    as [i [added [Hi [-> [Hfresh [Hbefore [Hsorted Hadded]]]]]]].
  - split; [constructor|]. split; [|intros j []].
    intros v. simpl. split; [intros []|].
    intros [j [_ [_ [Hc|[]]]]]. lia.
  - intros pre0 g0 post0 H0. destruct pre0; discriminate.
  - exact Hg.
  - assert (forall j, (j < length pi)%nat -> (nth j pi 0 < nth i pi 0)%nat ->
                      (j < i)%nat) as Hlt.
    { intros j Hj Hlt.
      destruct (Nat.lt_trichotomy j i) as [H|[->|H]]; [exact H | lia|].
      pose proof (sorted_nth_lt pi Hs i j ltac:(lia)). lia. }
    exists (nth i pi 0%nat), (map (fun j => nth j pi 0%nat) added).
    split; [reflexivity|]. split; [apply nth_In; exact Hi|].
    split; [exact Hfresh|]. split.
    { intros p Hp Hpf. apply (In_nth pi p 0%nat) in Hp.
      destruct Hp as [j [Hj <-]]. apply Hbefore. apply Hlt; assumption. }
    split.
    { apply map_nth_sorted; [exact Hs | exact Hsorted|].
      apply Forall_forall. intros j Hj. apply Hadded in Hj. lia. }
    intros m. rewrite in_map_iff. split.
    + intros [j [<- Hj]]. apply Hadded in Hj. destruct Hj as [Hr [Hn Hc]].
      split; [apply nth_In; lia|].
      split; [apply sorted_nth_lt; [exact Hs | lia]|].
      split; [exact Hn|].
      rewrite (Hv j), (Hv i) in Hc by lia. exact Hc.
    + intros [Hp [Hfm [Hn Hc]]]. apply (In_nth pi m 0%nat) in Hp.
      destruct Hp as [j [Hj <-]]. exists j. split; [reflexivity|].
      apply Hadded.
      assert (i < j)%nat as Hij.
      { destruct (Nat.lt_trichotomy i j) as [H|[->|H]]; [exact H | lia|].
        pose proof (sorted_nth_lt pi Hs j i ltac:(lia)). lia. }
      split; [lia|]. split; [exact Hn|].
      rewrite (Hv j), (Hv i) by lia. exact Hc.
Qed.

(** Every peak is in a group, and the groups hold peaks only. *)
Lemma peak_groups_cover (displacement : list Q) (p : nat) :
  In p (concat (peak_groups displacement)) <->
  In p (peaks_indices_of displacement).
Proof.
  pose proof (sorted_lt_NoDup _ (peaks_indices_sorted displacement)) as Hpi.
  unfold peak_groups.
  set (pi := peaks_indices_of displacement) in *.
  set (pv := map (fun i => nth i (np_abs displacement) 0) pi).
  destruct (grouping_fold pi pv (length pi) Hpi 0 [] [])
    as [used' [_ [Hmem _]]].
  - reflexivity.
  - split; [constructor|]. split; [|intros j []].
    intros v. simpl. split; [intros []|].
    intros [j [_ [_ [Hc|[]]]]]. lia.
  - rewrite Hmem. split.
    + intros [j [Hj [-> _]]]. apply nth_In. exact Hj.
    + intros Hv. apply (In_nth pi p 0%nat) in Hv. destruct Hv as [j [Hj <-]].
      exists j. split; [exact Hj|]. split; [reflexivity | left; exact Hj].
Qed.

(** C8, amended: the filter finds the interior strict local maxima of
    [|displacement|]; each group is a first peak followed by later peaks
    whose magnitude is within 8% of the first one's; for each group the
    filter keeps the half-open index window
    [first_peak - 50 <= k < first_peak + 50], clipped to the series; the
    working series is the union of these windows in index order.  With
    no peak the series is returned as it is.  The grouping is the one of
    the statement: every peak is in a group; the first member of a
    group is the first peak that no earlier group holds, and its other
    members are exactly the later peaks that no earlier group holds and
    whose magnitude is within 8% of the first member's. *)
Theorem filter_first_loops_windows (displacement force : list Q) :
  length displacement = length force ->
  let peaks := peaks_indices_of displacement in
  let groups := peak_groups displacement in
  let keep := keep_list_of displacement in
  (forall i, In i peaks <->
             (1 <= i < length displacement - 1)%nat /\
             Qabs (nth (i - 1) displacement 0) < Qabs (nth i displacement 0) /\
             Qabs (nth (i + 1) displacement 0) < Qabs (nth i displacement 0)) /\
  Forall (fun g => exists first others,
              g = first :: others /\
              group_min g = first /\
              In first peaks /\
              Forall (fun m =>
                        In m peaks /\ (first < m)%nat /\
                        Qabs (Qabs (nth m displacement 0)
                              - Qabs (nth first displacement 0))
                        <= tolerance * Qabs (nth first displacement 0)) others)
    groups /\
  (forall k, In k keep <->
             (k < length displacement)%nat /\
             exists g, In g groups /\
                       (group_min g - 50 <= k < group_min g + 50)%nat) /\
  StronglySorted lt keep /\
  (peaks = [] -> filter_first_loops displacement force = Some (displacement, force)) /\
  (peaks <> [] ->
   filter_first_loops displacement force
   = Some (map (fun k => nth k displacement 0) keep,
           map (fun k => nth k force 0) keep)) /\
  (forall p, In p peaks <-> In p (concat groups)) /\
  (forall pre g post, groups = pre ++ g :: post ->
                      group_rule displacement pre g).
Proof.
  intros Hlen peaks groups keep.
  split; [apply peaks_indices_In|].
  split; [apply peak_groups_shape|].
  split.
  { intros k. subst keep. rewrite keep_list_of_filter, filter_In, in_seq.
    unfold in_some_window. rewrite existsb_exists. split.
    - intros [Hk [g [Hg Hw]]]. split; [lia|]. exists g.
      split; [exact Hg | apply in_window_spec; exact Hw].
    - intros [Hk [g [Hg Hw]]]. split; [lia|]. exists g.
      split; [exact Hg | apply in_window_spec; exact Hw]. }
  split.
  { subst keep. rewrite keep_list_of_filter. apply filter_sorted, seq_sorted. }
  split.
  { intros Hp. unfold filter_first_loops. fold peaks. rewrite Hp. reflexivity. }
  split.
  { intros Hp. apply filter_first_loops_result; assumption. }
  split.
  { intros p. symmetry. apply peak_groups_cover. }
  intros pre g post Hg. eapply peak_groups_rule. exact Hg.
Qed.

(** [filter_first_loops_windows] on a series with three peaks, of
    magnitudes 100, 105 and 200 at the indices 1, 3 and 5: the second
    peak is within 8% of the first and joins its group, the third
    starts a group of its own; the windows cover the whole series. *)
Lemma filter_first_loops_windows_witness :
  let displacement := [0; 100; 0; -105; 0; 200; 0] in
  let force := [0; 10; 0; -10; 0; 20; 0] in
  peak_groups displacement = [[1; 3]; [5]]%nat /\
  group_rule displacement [] [1; 3]%nat /\
  group_rule displacement [[1; 3]]%nat [5]%nat /\
  filter_first_loops displacement force = Some (displacement, force).
Proof.
  intros displacement force.
  pose proof (filter_first_loops_windows displacement force eq_refl) as H.
  cbv zeta in H.
  destruct H as [_ [_ [_ [_ [_ [Hres [_ Hrule]]]]]]].
  assert (peak_groups displacement = [[1; 3]; [5]]%nat) as Hg
      by (vm_compute; reflexivity).
  split; [exact Hg|].
  split; [apply (Hrule [] [1; 3]%nat [[5]]%nat); exact Hg|].
  split; [apply (Hrule [[1; 3]]%nat [5]%nat []); exact Hg|].
  rewrite Hres; [vm_compute; reflexivity | vm_compute; discriminate].
Defined.

(** ** The evaluation indices *)

Lemma fold_py_max_spec (rest : list Q) :
  forall x,
    (fold_left py_max rest x = x \/ In (fold_left py_max rest x) rest) /\
    x <= fold_left py_max rest x /\
    (forall y, In y rest -> y <= fold_left py_max rest x).
Proof.
  induction rest as [|z rest IH]; intros x; cbn [fold_left].
  - split; [left; reflexivity|]. split; [lra | intros y []].
  - destruct (IH (py_max x z)) as [H1 [H2 H3]].
    pose proof (py_max_ge_l x z). pose proof (py_max_ge_r x z).
    split; [|split].
    + destruct H1 as [H1|H1]; [|right; right; exact H1].
      rewrite H1. unfold py_max. destruct (Qltb x z); [right; left|left]; reflexivity.
    + lra.
    + intros y [<-|Hy]; [lra | apply H3; exact Hy].
Qed.

Lemma np_max_spec (a : list Q) (m : Q) :
  np_max a = Some m -> In m a /\ forall x, In x a -> x <= m.
Proof.
  destruct a as [|x rest]; [discriminate|]. cbn [np_max].
  intros H. injection H as <-.
  destruct (fold_py_max_spec rest x) as [H1 [H2 H3]]. split.
  - destruct H1 as [H1|H1]; [left; symmetry; exact H1 | right; exact H1].
  - intros y [<-|Hy]; [exact H2 | apply H3; exact Hy].
Qed.

Lemma fold_py_min_spec (rest : list Q) :
  forall x,
    (fold_left py_min rest x = x \/ In (fold_left py_min rest x) rest) /\
    fold_left py_min rest x <= x /\
    (forall y, In y rest -> fold_left py_min rest x <= y).
Proof.
  induction rest as [|z rest IH]; intros x; cbn [fold_left].
  - split; [left; reflexivity|]. split; [lra | intros y []].
  - destruct (IH (py_min x z)) as [H1 [H2 H3]].
    assert (py_min x z <= x /\ py_min x z <= z) as [Hx Hz].
    { unfold py_min. destruct (Qltb z x) eqn:E.
      - apply Qltb_lt in E. lra.
      - apply Qltb_ge in E. lra. }
    split; [|split].
    + destruct H1 as [H1|H1]; [|right; right; exact H1].
      rewrite H1. unfold py_min. destruct (Qltb z x); [right; left|left]; reflexivity.
    + lra.
    + intros y [<-|Hy]; [lra | apply H3; exact Hy].
Qed.

Lemma np_min_spec (a : list Q) (m : Q) :
  np_min a = Some m -> In m a /\ forall x, In x a -> m <= x.
Proof.
  destruct a as [|x rest]; [discriminate|]. cbn [np_min].
  intros H. injection H as <-.
  destruct (fold_py_min_spec rest x) as [H1 [H2 H3]]. split.
  - destruct H1 as [H1|H1]; [left; symmetry; exact H1 | right; exact H1].
  - intros y [<-|Hy]; [exact H2 | apply H3; exact Hy].
Qed.

Lemma argmin_from_spec (a : list Q) :
  forall i best_i best,
    (best_i < i)%nat ->
    let k := argmin_from a i best_i best in
    (k = best_i \/ (i <= k)%nat) /\
    (forall x, In x a -> (if (k <? i)%nat then best else nth (k - i) a 0) <= x) /\
    (if (k <? i)%nat then best else nth (k - i) a 0) <= best.
Proof.
  induction a as [|x a IH]; intros i best_i best Hb; cbn [argmin_from length].
  - cbv zeta. split; [left; reflexivity|].
    split; [intros x []|].
    rewrite (proj2 (Nat.ltb_lt _ _) Hb). lra.
  - destruct (Qltb x best) eqn:E.
    + apply Qltb_lt in E.
      specialize (IH (S i) i x ltac:(lia)). cbv zeta in IH |- *.
      destruct IH as [H2 [H3 H4]].
      set (k := argmin_from a (S i) i x) in *.
      split; [right; lia|].
      assert ((k <? i)%nat = false) as Hki by (apply Nat.ltb_ge; lia).
      rewrite Hki.
      destruct (k <? S i)%nat eqn:Hk.
      * apply Nat.ltb_lt in Hk. replace (k - i)%nat with 0%nat by lia.
        cbn [nth]. split; [|lra].
        intros y [<-|Hy]; [lra | apply H3; exact Hy].
      * apply Nat.ltb_ge in Hk.
        replace (k - i)%nat with (S (k - S i)) by lia. cbn [nth].
        split; [|lra].
        intros y [<-|Hy]; [lra | apply H3; exact Hy].
    + apply Qltb_ge in E.
      specialize (IH (S i) best_i best ltac:(lia)). cbv zeta in IH |- *.
      destruct IH as [H2 [H3 H4]].
      set (k := argmin_from a (S i) best_i best) in *.
      split; [destruct H2; [left; assumption | right; lia]|].
      destruct (k <? S i)%nat eqn:Hk.
      * apply Nat.ltb_lt in Hk.
        assert (k = best_i) as Hkb by (destruct H2; [assumption | lia]).
        assert ((k <? i)%nat = true) as Hki by (apply Nat.ltb_lt; lia).
        rewrite Hki. split; [|lra].
        intros y [<-|Hy]; [lra | apply H3; exact Hy].
      * apply Nat.ltb_ge in Hk.
        assert ((k <? i)%nat = false) as Hki by (apply Nat.ltb_ge; lia).
        rewrite Hki.
        replace (k - i)%nat with (S (k - S i)) by lia. cbn [nth].
        split; [|exact H4].
        intros y [<-|Hy]; [lra | apply H3; exact Hy].
Qed.

(** [np.argmin] returns an index of a smallest entry. *)
Lemma np_argmin_least (a : list Q) (k : nat) :
  np_argmin a = Some k -> forall x, In x a -> nth k a 0 <= x.
Proof.
  destruct a as [|x a]; [discriminate|]. cbn [np_argmin].
  intros H. injection H as <-.
  pose proof (argmin_from_spec a 1 0 x ltac:(lia)) as H. cbv zeta in H.
  destruct H as [H2 [H3 H4]].
  set (k := argmin_from a 1 0 x) in *.
  destruct (k <? 1)%nat eqn:Hk.
  - apply Nat.ltb_lt in Hk. replace k with 0%nat by lia. cbn [nth].
    intros y [<-|Hy]; [lra | apply H3; exact Hy].
  - apply Nat.ltb_ge in Hk. replace k with (S (k - 1)) by lia. cbn [nth].
    intros y [<-|Hy]; [exact H4 | apply H3; exact Hy].
Qed.

Lemma py_last_In (a : list Q) (x : Q) : py_last a = Some x -> In x a.
Proof.
  destruct a as [|y a]; [discriminate|]. cbn [py_last].
  intros H. injection H as <-.
  revert y. induction a as [|z a IH]; intros y.
  - left. reflexivity.
  - right. change (last (y :: z :: a) 0) with (last (z :: a) 0). apply IH.
Qed.

Lemma py_last_total (a : list Q) :
  a <> [] -> exists x, py_last a = Some x.
Proof.
  destruct a; [congruence|]. intros _. cbn [py_last]. eauto.
Qed.

(** [calculate_degradation] sets its three keys only. *)
Lemma calculate_degradation_keeps (loops : list hysteresis_loop) (ix : indices) :
  let ix' := calculate_degradation loops ix in
  ix_peak_displacement ix' = ix_peak_displacement ix /\
  ix_peak_force ix' = ix_peak_force ix /\
  ix_residual_deformation ix' = ix_residual_deformation ix /\
  ix_total_loop_area ix' = ix_total_loop_area ix /\
  ix_cumulative_energy ix' = ix_cumulative_energy ix /\
  ix_secant_stiffness ix' = ix_secant_stiffness ix /\
  ix_initial_stiffness ix' = ix_initial_stiffness ix /\
  ix_equivalent_damping ix' = ix_equivalent_damping ix /\
  ix_mean_loop_energy ix' = ix_mean_loop_energy ix /\
  ix_max_loop_energy ix' = ix_max_loop_energy ix.
Proof.
  cbv zeta. unfold calculate_degradation.
  destruct (length loops <? 2)%nat; [repeat split|].
  destruct ix as [f1 f2 f3 f4 f5 Ks K0 f8 f9 f10 f11 f12 f13].
  destruct (strength_degradation
              (filter (fun l => is_positive_type (l_type l)) loops));
    destruct (strength_degradation
                (filter (fun l => is_negative_type (l_type l)) loops));
    cbn; destruct K0 as [K0|]; destruct Ks as [Ks|];
    try destruct (negb (Qeq_bool K0 0)); cbn; repeat split.
Qed.

(** The dictionary [calculate_indices] hands to [calculate_degradation]. *)
Lemma calculate_indices_inv (np_polyfit : list Q -> list Q -> option Q)
    (displacement force : list Q) (loops : list hysteresis_loop)
    (skeleton : option skeleton_curve) (ix : indices) :
  calculate_indices np_polyfit displacement force loops skeleton = Some ix ->
  exists max_pos_idx max_neg_idx max_force_idx min_force_idx residual
         K_sec K_initial he,
    np_argmax displacement = Some max_pos_idx /\
    np_argmin displacement = Some max_neg_idx /\
    np_argmax force = Some max_force_idx /\
    np_argmin force = Some min_force_idx /\
    py_last displacement = Some residual /\
    secant_stiffness skeleton = Some K_sec /\
    fitted_initial_stiffness np_polyfit displacement force = Some K_initial /\
    equivalent_damping (py_sum (map l_area loops)) skeleton = Some he /\
    ix = calculate_degradation loops
           (mk_indices
              (Some (nth max_pos_idx displacement 0,
                     nth max_neg_idx displacement 0))
              (Some (nth max_force_idx force 0, nth min_force_idx force 0))
              (Some residual)
              (Some (py_sum (map l_area loops)))
              (Some (py_sum (map l_area loops)))
              K_sec K_initial he
              (match positive_areas loops with
               | [] => None
               | _ => Some (np_mean (positive_areas loops))
               end)
              (match positive_areas loops with
               | [] => None
               | _ => np_max (positive_areas loops)
               end)
              None None None).
Proof.
  unfold calculate_indices. intros H.
  destruct (np_argmax displacement) as [a1|]; [|discriminate]. cbn [bind] in H.
  destruct (np_argmin displacement) as [a2|]; [|discriminate]. cbn [bind] in H.
  destruct (np_argmax force) as [a3|]; [|discriminate]. cbn [bind] in H.
  destruct (np_argmin force) as [a4|]; [|discriminate]. cbn [bind] in H.
  destruct (py_last displacement) as [r|]; [|discriminate]. cbn [bind] in H.
  destruct (secant_stiffness skeleton) as [ks|]; [|discriminate].
  cbn [bind] in H.
  destruct (fitted_initial_stiffness np_polyfit displacement force) as [ki|];
    [|discriminate]. cbn [bind] in H.
  destruct (equivalent_damping _ skeleton) as [he|]; [|discriminate].
  cbn [bind] in H. injection H as <-.
  exists a1, a2, a3, a4, r, ks, ki, he. repeat split; reflexivity.
Qed.

(** The peak displacements and forces that [calculate_indices] reports
    are samples of the series and bound every sample; the residual
    deformation is the last displacement and lies between the peaks. *)
Theorem indices_peaks_bound_samples
    (np_polyfit : list Q -> list Q -> option Q)
    (displacement force : list Q) (loops : list hysteresis_loop)
    (skeleton : option skeleton_curve) (ix : indices) :
  calculate_indices np_polyfit displacement force loops skeleton = Some ix ->
  exists dpos dneg fpos fneg residual,
    ix_peak_displacement ix = Some (dpos, dneg) /\
    ix_peak_force ix = Some (fpos, fneg) /\
    ix_residual_deformation ix = Some residual /\
    In dpos displacement /\ In dneg displacement /\
    (forall x, In x displacement -> dneg <= x <= dpos) /\
    In fpos force /\ In fneg force /\
    (forall x, In x force -> fneg <= x <= fpos) /\
    residual = last displacement 0 /\ dneg <= residual <= dpos.
Proof.
  intros H. apply calculate_indices_inv in H.
  destruct H as [a1 [a2 [a3 [a4 [r [ks [ki [he
    [H1 [H2 [H3 [H4 [H5 [_ [_ [_ ->]]]]]]]]]]]]]]]].
  match goal with
  | |- context [calculate_degradation loops ?i] =>
      destruct (calculate_degradation_keeps loops i) as [K1 [K2 [K3 _]]]
  end.
  cbv zeta in K1, K2, K3. cbn [ix_peak_displacement ix_peak_force
    ix_residual_deformation] in K1, K2, K3.
  exists (nth a1 displacement 0), (nth a2 displacement 0),
    (nth a3 force 0), (nth a4 force 0), r.
  destruct (np_argmax_spec _ _ H1) as [B1 M1].
  destruct (np_argmax_spec _ _ H3) as [B3 M3].
  pose proof (np_argmin_spec _ _ H2) as B2.
  pose proof (np_argmin_spec _ _ H4) as B4.
  pose proof (np_argmin_least _ _ H2) as M2.
  pose proof (np_argmin_least _ _ H4) as M4.
  pose proof (py_last_In _ _ H5) as Hr.
  split; [exact K1|]. split; [exact K2|]. split; [exact K3|].
  split; [apply nth_In; exact B1|]. split; [apply nth_In; exact B2|].
  split; [intros x Hx; split; [apply M2 | apply M1]; exact Hx|].
  split; [apply nth_In; exact B3|]. split; [apply nth_In; exact B4|].
  split; [intros x Hx; split; [apply M4 | apply M3]; exact Hx|].
  split.
  - destruct displacement; [discriminate|]. cbn [py_last] in H5.
    injection H5 as <-. reflexivity.
  - split; [apply M2 | apply M1]; exact Hr.
Qed.

Lemma indices_peaks_bound_samples_witness :
  exists ix,
    calculate_indices (fun _ _ => None) [0; 2; -3; 1] [0; 20; -25; 5] [] None
    = Some ix /\
    exists dpos dneg fpos fneg residual,
      ix_peak_displacement ix = Some (dpos, dneg) /\
      ix_peak_force ix = Some (fpos, fneg) /\
      ix_residual_deformation ix = Some residual /\
      In dpos [0; 2; -3; 1] /\ In dneg [0; 2; -3; 1] /\
      (forall x, In x [0; 2; -3; 1] -> dneg <= x <= dpos) /\
      In fpos [0; 20; -25; 5] /\ In fneg [0; 20; -25; 5] /\
      (forall x, In x [0; 20; -25; 5] -> fneg <= x <= fpos) /\
      residual = last [0; 2; -3; 1] 0 /\ dneg <= residual <= dpos.
Proof.
  destruct (calculate_indices (fun _ _ => None) [0; 2; -3; 1] [0; 20; -25; 5]
              [] None) as [ix|] eqn:E; [|vm_compute in E; discriminate].
  exists ix. split; [reflexivity|].
  exact (indices_peaks_bound_samples _ _ _ _ _ _ E).
Defined.

Lemma py_sum_fold (l : list Q) :
  forall a, fold_left Qplus l a == a + py_sum l.
Proof.
  unfold py_sum. induction l as [|x l IH]; intros a; cbn [fold_left].
  - lra.
  - rewrite (IH (a + x)), (IH (0 + x)). lra.
Qed.

Lemma py_sum_cons (x : Q) (l : list Q) : py_sum (x :: l) == x + py_sum l.
Proof.
  unfold py_sum at 1. cbn [fold_left]. rewrite py_sum_fold. lra.
Qed.

Lemma py_sum_nonneg (l : list Q) :
  Forall (fun x => 0 <= x) l -> 0 <= py_sum l.
Proof.
  induction 1 as [|x l Hx Hl IH].
  - unfold py_sum. simpl. lra.
  - rewrite py_sum_cons. lra.
Qed.

Lemma py_sum_ge_member (l : list Q) (x : Q) :
  Forall (fun x => 0 <= x) l -> In x l -> x <= py_sum l.
Proof.
  induction 1 as [|y l Hy Hl IH]; intros Hin; [destruct Hin|].
  rewrite py_sum_cons. pose proof (py_sum_nonneg l Hl).
  destruct Hin as [->|Hin]; [lra | specialize (IH Hin); lra].
Qed.

Lemma py_sum_zero (l : list Q) :
  Forall (fun x => 0 <= x) l -> (forall x, In x l -> x <= 0) ->
  py_sum l == 0.
Proof.
  induction 1 as [|y l Hy Hl IH]; intros Hz.
  - unfold py_sum. simpl. lra.
  - rewrite py_sum_cons. rewrite IH; [|intros x Hx; apply Hz; right; exact Hx].
    specialize (Hz y ltac:(left; reflexivity)). lra.
Qed.

Lemma py_sum_le_max (l : list Q) (M : Q) :
  (forall x, In x l -> x <= M) ->
  py_sum l <= inject_Z (Z.of_nat (length l)) * M.
Proof.
  induction l as [|y l IH]; intros HM.
  - unfold py_sum. cbn. change (inject_Z 0) with 0. lra.
  - rewrite py_sum_cons. cbn [length]. rewrite Nat2Z.inj_succ.
    unfold Z.succ. rewrite inject_Z_plus.
    specialize (IH ltac:(intros x Hx; apply HM; right; exact Hx)).
    specialize (HM y ltac:(left; reflexivity)).
    change (inject_Z 1) with 1. lra.
Qed.

Lemma py_sum_pos (l : list Q) :
  l <> [] -> (forall x, In x l -> 0 < x) -> 0 < py_sum l.
Proof.
  destruct l as [|y l]; [congruence|]. intros _ Hp.
  rewrite py_sum_cons.
  assert (0 <= py_sum l).
  { apply py_sum_nonneg. apply Forall_forall. intros x Hx.
    apply Qlt_le_weak. apply Hp. right. exact Hx. }
  specialize (Hp y ltac:(left; reflexivity)). lra.
Qed.

Lemma extracted_areas_nonneg (filter_first_loop : bool)
    (displacement force : list Q) (loops : list hysteresis_loop) :
  extract_hysteresis_loops filter_first_loop displacement force = Some loops ->
  Forall (fun a => 0 <= a) (map l_area loops).
Proof.
  intros H. unfold extract_hysteresis_loops in H.
  inv_bind H. destruct x as [d' f']. inv_bind H.
  apply loops_between_area in H.
  apply Forall_forall. intros a Ha. apply in_map_iff in Ha.
  destruct Ha as [l [<- Hl]]. rewrite Forall_forall in H.
  apply (calculate_loop_area_spec _ _ _ (H l Hl)).
Qed.

Lemma positive_areas_In (loops : list hysteresis_loop) (a : Q) :
  In a (positive_areas loops) <-> In a (map l_area loops) /\ 0 < a.
Proof.
  unfold positive_areas. rewrite filter_In. rewrite Qgtb_gt. tauto.
Qed.

Lemma equivalent_damping_pos (total : Q) (skeleton : option skeleton_curve)
    (he : Q) :
  equivalent_damping total skeleton = Some (Some he) -> 0 < he /\ 0 < total.
Proof.
  unfold equivalent_damping. destruct (Qgtb total 0) eqn:Et; [|discriminate].
  apply Qgtb_gt in Et.
  destruct skeleton as [sk|]; [|discriminate].
  destruct (1 <? length (br_disp (sk_positive sk)))%nat; [|discriminate].
  destruct (py_last (br_disp (sk_positive sk))) as [max_disp|]; [|discriminate].
  destruct (py_last (br_force (sk_positive sk))) as [max_force|];
    [|discriminate].
  cbn [bind].
  set (S_OBE := (1 # 2) * Qabs (max_disp * max_force) * 2).
  destruct (Qgtb S_OBE 0) eqn:Es; [|discriminate].
  apply Qgtb_gt in Es. intros H. injection H as <-.
  split; [|exact Et].
  assert (0 < np_pi) as Hpi by reflexivity.
  assert (0 < 2 * np_pi * S_OBE) as Hden by nra.
  apply Qlt_shift_div_l; [exact Hden | lra].
Qed.

(** The energy entries of [calculate_indices] for loops that come from
    [extract_hysteresis_loops]: the total loop area and the cumulative
    energy are the same non-negative number; an equivalent viscous
    damping, when there is one, is positive and the total is positive;
    the mean and the largest loop energy are absent exactly when the
    total is zero; otherwise both are positive and not above the total,
    and the largest is the area of one of the loops. *)
Theorem indices_energy (np_polyfit : list Q -> list Q -> option Q)
    (filter_first_loop : bool) (loaded_displacement loaded_force : list Q)
    (displacement force : list Q) (loops : list hysteresis_loop)
    (skeleton : option skeleton_curve) (ix : indices) :
  extract_hysteresis_loops filter_first_loop loaded_displacement loaded_force
  = Some loops ->
  calculate_indices np_polyfit displacement force loops skeleton = Some ix ->
  exists total,
    ix_total_loop_area ix = Some total /\
    ix_cumulative_energy ix = Some total /\
    0 <= total /\
    (forall he, ix_equivalent_damping ix = Some he -> 0 < he /\ 0 < total) /\
    match ix_mean_loop_energy ix, ix_max_loop_energy ix with
    | Some mean, Some largest =>
        0 < mean /\ mean <= total /\
        0 < largest /\ largest <= total /\ In largest (map l_area loops)
    | None, None => total == 0
    | _, _ => False
    end.
Proof.
  intros Hl H. apply extracted_areas_nonneg in Hl.
  apply calculate_indices_inv in H.
  destruct H as [a1 [a2 [a3 [a4 [r [ks [ki [he
    [_ [_ [_ [_ [_ [_ [_ [He ->]]]]]]]]]]]]]]]].
  match goal with
  | |- context [calculate_degradation loops ?i] =>
      destruct (calculate_degradation_keeps loops i)
        as [_ [_ [_ [K4 [K5 [_ [_ [K8 [K9 K10]]]]]]]]]
  end.
  cbv zeta in K4, K5, K8, K9, K10.
  cbn [ix_total_loop_area ix_cumulative_energy ix_equivalent_damping
       ix_mean_loop_energy ix_max_loop_energy] in K4, K5, K8, K9, K10.
  exists (py_sum (map l_area loops)).
  split; [exact K4|]. split; [exact K5|].
  split; [apply py_sum_nonneg; exact Hl|].
  split.
  - intros he' Hhe. rewrite K8 in Hhe. subst he.
    eapply equivalent_damping_pos. exact He.
  - rewrite K9, K10.
    destruct (positive_areas loops) as [|a0 rest] eqn:Ep.
    + apply py_sum_zero; [exact Hl|].
      intros x Hx. destruct (Qlt_le_dec 0 x) as [Hpos|Hle]; [|exact Hle].
      assert (In x (positive_areas loops)) as Hin
          by (apply positive_areas_In; split; assumption).
      rewrite Ep in Hin. destruct Hin.
    + rewrite <- Ep.
      destruct (np_max (positive_areas loops)) as [M|] eqn:EM;
        [|rewrite Ep in EM; discriminate].
      destruct (np_max_spec _ _ EM) as [HM Hub].
      assert (0 < inject_Z (Z.of_nat (length (positive_areas loops)))) as Hn.
      { rewrite Ep. cbn [length]. rewrite Nat2Z.inj_succ.
        change 0 with (inject_Z 0). rewrite <- Zlt_Qlt. lia. }
      apply positive_areas_In in HM. destruct HM as [HMin HMpos].
      assert (M <= py_sum (map l_area loops)) as HMtot
          by (apply py_sum_ge_member; assumption).
      assert (np_mean (positive_areas loops) <= M) as Hmean.
      { unfold np_mean. apply Qle_shift_div_r; [exact Hn|].
        pose proof (py_sum_le_max _ _ Hub). lra. }
      split.
      { unfold np_mean. apply Qlt_shift_div_l; [exact Hn|].
        assert (0 < py_sum (positive_areas loops)).
        { apply py_sum_pos; [rewrite Ep; discriminate|].
          intros x Hx. apply positive_areas_In in Hx. tauto. }
        lra. }
      split; [lra|]. split; [exact HMpos|]. split; [exact HMtot | exact HMin].
Qed.

Lemma indices_energy_witness :
  exists loops ix,
    extract_hysteresis_loops false [0; 2; 0; -2; 0; 1; 0] [0; 10; 4; -10; -4; 5; 0]
    = Some loops /\
    calculate_indices (fun _ _ => None) [0; 2; 0; -2; 0; 1; 0]
      [0; 10; 4; -10; -4; 5; 0] loops None = Some ix /\
    exists total,
      ix_total_loop_area ix = Some total /\
      ix_cumulative_energy ix = Some total /\
      0 <= total /\
      (forall he, ix_equivalent_damping ix = Some he -> 0 < he /\ 0 < total) /\
      match ix_mean_loop_energy ix, ix_max_loop_energy ix with
      | Some mean, Some largest =>
          0 < mean /\ mean <= total /\
          0 < largest /\ largest <= total /\ In largest (map l_area loops)
      | None, None => total == 0
      | _, _ => False
      end.
Proof.
  destruct (extract_hysteresis_loops false [0; 2; 0; -2; 0; 1; 0]
              [0; 10; 4; -10; -4; 5; 0]) as [loops|] eqn:El;
    [|vm_compute in El; discriminate].
  destruct (calculate_indices (fun _ _ => None) [0; 2; 0; -2; 0; 1; 0]
              [0; 10; 4; -10; -4; 5; 0] loops None) as [ix|] eqn:E.
  - exists loops, ix. split; [reflexivity|]. split; [exact E|].
    exact (indices_energy _ _ _ _ _ _ _ _ _ El E).
  - vm_compute in El. injection El as <-. vm_compute in E. discriminate.
Defined.

Lemma calculate_degradation_fields (loops : list hysteresis_loop)
    (ix : indices) :
  ix_pos_strength_degradation ix = None ->
  ix_neg_strength_degradation ix = None ->
  ix_stiffness_degradation ix = None ->
  let ix' := calculate_degradation loops ix in
  ix_pos_strength_degradation ix' =
    (if (length loops <? 2)%nat then None
     else strength_degradation
            (filter (fun l => is_positive_type (l_type l)) loops)) /\
  ix_neg_strength_degradation ix' =
    (if (length loops <? 2)%nat then None
     else strength_degradation
            (filter (fun l => is_negative_type (l_type l)) loops)) /\
  ix_stiffness_degradation ix' =
    (if (length loops <? 2)%nat then None
     else match ix_initial_stiffness ix, ix_secant_stiffness ix with
          | Some K0, Some Ks =>
              if negb (Qeq_bool K0 0) then Some ((K0 - Ks) / K0 * 100)
              else None
          | _, _ => None
          end).
Proof.
  destruct ix as [f1 f2 f3 f4 f5 Ks K0 f8 f9 f10 f11 f12 f13].
  cbn [ix_pos_strength_degradation ix_neg_strength_degradation
       ix_stiffness_degradation ix_initial_stiffness ix_secant_stiffness].
  intros -> -> ->. cbv zeta. unfold calculate_degradation.
  destruct (length loops <? 2)%nat; [repeat split|].
  destruct (strength_degradation
              (filter (fun l => is_positive_type (l_type l)) loops));
    destruct (strength_degradation
                (filter (fun l => is_negative_type (l_type l)) loops));
    cbn; destruct K0 as [K0|]; destruct Ks as [Ks|];
    try destruct (negb (Qeq_bool K0 0)); cbn; repeat split.
Qed.

Lemma last_map_abs_nonneg (l : list Q) : 0 <= last (map Qabs l) 0.
Proof.
  induction l as [|x l IH]; [simpl; lra|].
  destruct l as [|y l]; [simpl; apply Qabs_nonneg | exact IH].
Qed.

Lemma strength_degradation_le (loops : list hysteresis_loop) (g : Q) :
  strength_degradation loops = Some g -> g <= 100.
Proof.
  unfold strength_degradation.
  destruct (2 <=? length loops)%nat; [|discriminate].
  set (forces := map (fun l => Qabs (l_peak_force l)) loops).
  destruct (Qeq_bool (nth 0 forces 0) 0) eqn:E; [discriminate|].
  cbn [negb]. intros H. injection H as <-.
  apply Qeq_bool_neq in E.
  assert (0 <= nth 0 forces 0) as H0.
  { unfold forces. destruct loops; simpl; [lra | apply Qabs_nonneg]. }
  assert (0 <= last forces 0) as Hl.
  { unfold forces. rewrite <- (map_map l_peak_force Qabs).
    apply last_map_abs_nonneg. }
  assert (0 < nth 0 forces 0) as Hp.
  { destruct (Qlt_le_dec 0 (nth 0 forces 0)) as [Hp|Hp]; [exact Hp|].
    exfalso. apply E. lra. }
  assert ((nth 0 forces 0 - last forces 0) / nth 0 forces 0 <= 1) as Hq.
  { apply Qle_shift_div_r; [exact Hp | lra]. }
  lra.
Qed.

(** The degradation entries of [calculate_indices].  With fewer than
    two loops none of the three is set, whatever the stiffnesses are.  A
    strength degradation never exceeds 100 percent.  A stiffness
    degradation [g] is only present when there are at least two loops,
    together with a non-zero initial stiffness [K0] and a secant
    stiffness [Ks]; it is zero exactly when [Ks] is [K0]; and for a
    positive [K0] it is positive exactly when [Ks] is below [K0], and
    at most 100 percent when [Ks] is not negative. *)
Theorem degradation_entries (np_polyfit : list Q -> list Q -> option Q)
    (displacement force : list Q) (loops : list hysteresis_loop)
    (skeleton : option skeleton_curve) (ix : indices) :
  calculate_indices np_polyfit displacement force loops skeleton = Some ix ->
  ((length loops < 2)%nat ->
   ix_pos_strength_degradation ix = None /\
   ix_neg_strength_degradation ix = None /\
   ix_stiffness_degradation ix = None) /\
  (forall g, ix_pos_strength_degradation ix = Some g -> g <= 100) /\
  (forall g, ix_neg_strength_degradation ix = Some g -> g <= 100) /\
  (forall g, ix_stiffness_degradation ix = Some g ->
     (2 <= length loops)%nat /\
     exists K0 Ks,
       ix_initial_stiffness ix = Some K0 /\ ix_secant_stiffness ix = Some Ks /\
       ~ K0 == 0 /\
       (g == 0 <-> Ks == K0) /\
       (0 < K0 -> (0 < g <-> Ks < K0)) /\
       (0 < K0 -> 0 <= Ks -> g <= 100)).
Proof.
  intros H. apply calculate_indices_inv in H.
  destruct H as [a1 [a2 [a3 [a4 [r [ks [ki [he
    [_ [_ [_ [_ [_ [_ [_ [_ ->]]]]]]]]]]]]]]]].
  match goal with
  | |- context [calculate_degradation loops ?i] =>
      destruct (calculate_degradation_keeps loops i)
        as [_ [_ [_ [_ [_ [K6 [K7 _]]]]]]];
      destruct (calculate_degradation_fields loops i eq_refl eq_refl eq_refl)
        as [F1 [F2 F3]]
  end.
  cbv zeta in K6, K7, F1, F2, F3.
  cbn [ix_secant_stiffness ix_initial_stiffness] in K6, K7, F3.
  rewrite F1, F2, F3, K6, K7. clear F1 F2 F3 K6 K7.
  split; [|split; [|split]].
  - intros Hlt. apply Nat.ltb_lt in Hlt. rewrite Hlt. repeat split.
  - intros g Hg. destruct (length loops <? 2)%nat; [discriminate|].
    eapply strength_degradation_le. exact Hg.
  - intros g Hg. destruct (length loops <? 2)%nat; [discriminate|].
    eapply strength_degradation_le. exact Hg.
  - intros g Hg. destruct (length loops <? 2)%nat eqn:El; [discriminate|].
    apply Nat.ltb_ge in El. split; [exact El|].
    destruct ki as [K0|]; [|discriminate].
    destruct ks as [Ks|]; [|discriminate].
    destruct (Qeq_bool K0 0) eqn:E; [discriminate|].
    apply Qeq_bool_neq in E. cbn [negb] in Hg. injection Hg as <-.
    exists K0, Ks. split; [reflexivity|]. split; [reflexivity|].
    split; [exact E|].
    assert ((K0 - Ks) / K0 * 100 * K0 == 100 * (K0 - Ks)) as Hg
        by (field; exact E).
    set (g := (K0 - Ks) / K0 * 100) in *.
    split; [|split].
    + split; intros H.
      * rewrite H in Hg. lra.
      * assert (g * K0 == 0) as Hz by (rewrite Hg, H; ring).
        apply Qmult_integral in Hz. destruct Hz as [Hz|Hz];
          [exact Hz | contradiction].
    + intros HK0. split; intros H; nra.
    + intros HK0 HKs. nra.
Qed.

Lemma degradation_entries_witness :
  exists loops ix,
    extract_hysteresis_loops false [0; 2; 0; -2; 0; 3; 0; -3; 0]
      [0; 10; 4; -10; -4; 8; 3; -8; 0] = Some loops /\
    calculate_indices (fun _ _ => None) [0; 2; 0; -2; 0; 3; 0; -3; 0]
      [0; 10; 4; -10; -4; 8; 3; -8; 0] loops None = Some ix /\
    (exists g, ix_pos_strength_degradation ix = Some g) /\
    ((length loops < 2)%nat ->
     ix_pos_strength_degradation ix = None /\
     ix_neg_strength_degradation ix = None /\
     ix_stiffness_degradation ix = None) /\
    (forall g, ix_pos_strength_degradation ix = Some g -> g <= 100) /\
    (forall g, ix_neg_strength_degradation ix = Some g -> g <= 100) /\
    (forall g, ix_stiffness_degradation ix = Some g ->
       (2 <= length loops)%nat /\
       exists K0 Ks,
         ix_initial_stiffness ix = Some K0 /\ ix_secant_stiffness ix = Some Ks /\
         ~ K0 == 0 /\
         (g == 0 <-> Ks == K0) /\
         (0 < K0 -> (0 < g <-> Ks < K0)) /\
         (0 < K0 -> 0 <= Ks -> g <= 100)).
Proof.
  destruct (extract_hysteresis_loops false [0; 2; 0; -2; 0; 3; 0; -3; 0]
              [0; 10; 4; -10; -4; 8; 3; -8; 0]) as [loops|] eqn:El;
    [|vm_compute in El; discriminate].
  destruct (calculate_indices (fun _ _ => None) [0; 2; 0; -2; 0; 3; 0; -3; 0]
              [0; 10; 4; -10; -4; 8; 3; -8; 0] loops None) as [ix|] eqn:E.
  - exists loops, ix. split; [reflexivity|]. split; [exact E|].
    split; [|exact (degradation_entries _ _ _ _ _ _ E)].
    vm_compute in El. injection El as <-. vm_compute in E.
    injection E as <-. eexists. reflexivity.
  - vm_compute in El. injection El as <-. vm_compute in E. discriminate.
Defined.

Lemma stiffness_start_spec (displacement force : list Q)
    (disp_threshold force_threshold : Q) (idx : list nat) (start : nat) :
  stiffness_start_from displacement force disp_threshold force_threshold idx
  = Some start ->
  start = 0%nat \/
  (In start idx /\
   force_threshold < Qabs (nth start force 0) /\
   disp_threshold < Qabs (nth start displacement 0)).
Proof.
  induction idx as [|i rest IH]; cbn [stiffness_start_from]; intros H.
  - injection H as <-. left. reflexivity.
  - destruct (nth_error force i) as [fi|] eqn:Ef; [|discriminate].
    cbn [bind] in H.
    destruct (Qgtb (Qabs fi) force_threshold) eqn:E1.
    + destruct (nth_error displacement i) as [di|] eqn:Ed; [|discriminate].
      cbn [bind] in H.
      destruct (Qgtb (Qabs di) disp_threshold) eqn:E2.
      * injection H as <-. right. split; [left; reflexivity|].
        rewrite (nth_error_nth _ _ 0 Ef), (nth_error_nth _ _ 0 Ed).
        apply Qgtb_gt in E1, E2. split; assumption.
      * destruct (IH H) as [->|[Hi Hr]]; [left; reflexivity|].
        right. split; [right; exact Hi | exact Hr].
    + destruct (IH H) as [->|[Hi Hr]]; [left; reflexivity|].
      right. split; [right; exact Hi | exact Hr].
Qed.

(** The initial stiffness, when [calculate_indices] reports one, is the
    slope fitted on a window of 3 to 20 consecutive samples of a series
    of more than 10 samples.  The window starts at sample 0 or at a
    sample whose displacement exceeds the displacement threshold and
    whose force exceeds 0.01, and its displacements spread by more than
    the threshold, which is at least 0.001. *)
Theorem initial_stiffness_window (np_polyfit : list Q -> list Q -> option Q)
    (displacement force : list Q) (loops : list hysteresis_loop)
    (skeleton : option skeleton_curve) (ix : indices) (K : Q) :
  calculate_indices np_polyfit displacement force loops skeleton = Some ix ->
  ix_initial_stiffness ix = Some K ->
  exists start_idx end_idx disp_threshold,
    stiffness_window displacement force
    = Some (start_idx, end_idx, disp_threshold) /\
    (10 < length displacement)%nat /\
    (start_idx + 3 <= end_idx <= length displacement)%nat /\
    (end_idx - start_idx <= 20)%nat /\
    length (slice displacement start_idx end_idx) = (end_idx - start_idx)%nat /\
    np_polyfit (slice displacement start_idx end_idx)
      (slice force start_idx end_idx) = Some K /\
    (1 # 1000) <= disp_threshold /\
    (start_idx = 0%nat \/
     (disp_threshold < Qabs (nth start_idx displacement 0) /\
      (1 # 100) < Qabs (nth start_idx force 0))) /\
    (exists lo hi,
       In lo (slice displacement start_idx end_idx) /\
       In hi (slice displacement start_idx end_idx) /\
       disp_threshold < hi - lo).
Proof.
  intros H HK. apply calculate_indices_inv in H.
  destruct H as [a1 [a2 [a3 [a4 [r [ks [ki [he
    [_ [_ [_ [_ [_ [_ [Hfit [_ ->]]]]]]]]]]]]]]]].
  match type of HK with
  | context [calculate_degradation loops ?i] =>
      destruct (calculate_degradation_keeps loops i)
        as [_ [_ [_ [_ [_ [_ [K7 _]]]]]]]
  end.
  cbv zeta in K7. cbn [ix_initial_stiffness] in K7.
  rewrite K7 in HK. subst ki. clear K7.
  unfold fitted_initial_stiffness in Hfit.
  destruct (10 <? length displacement)%nat eqn:Hlen; [|discriminate].
  apply Nat.ltb_lt in Hlen.
  destruct (stiffness_window displacement force) as [[[s e] thr]|] eqn:Ew;
    [|discriminate].
  cbn [bind] in Hfit.
  destruct (s + 2 <? e)%nat eqn:Hse; [|discriminate].
  apply Nat.ltb_lt in Hse.
  destruct (1 <? length (slice displacement s e))%nat; [|discriminate].
  destruct (np_max (slice displacement s e)) as [hi|] eqn:Ehi; [|discriminate].
  destruct (np_min (slice displacement s e)) as [lo|] eqn:Elo; [|discriminate].
  cbn [bind] in Hfit.
  destruct (Qgtb (hi - lo) thr) eqn:Espread; [|discriminate].
  apply Qgtb_gt in Espread.
  destruct (np_polyfit (slice displacement s e) (slice force s e)) as [k|] eqn:Ep;
    [|discriminate].
  cbn [bind] in Hfit. injection Hfit as ->.
  exists s, e, thr. split; [reflexivity|]. split; [exact Hlen|].
  unfold stiffness_window in Ew.
  destruct (np_max (np_abs displacement)) as [md|]; [|discriminate].
  destruct (np_max (np_abs force)) as [mf|]; [|discriminate].
  cbn [bind] in Ew.
  destruct (stiffness_start_from displacement force
              (py_max (1 # 1000) (md * (1 # 1000)))
              (py_max (1 # 100) (mf * (1 # 1000)))
              (range 0 (length force))) as [s0|] eqn:Es; [|discriminate].
  cbn [bind] in Ew. injection Ew as <- <- <-.
  assert (Nat.min (s0 + Nat.max 5 (Nat.min 20 (length displacement / 10)))
            (length displacement) - s0 <= 20)%nat as Hsize by lia.
  split; [lia|]. split; [exact Hsize|].
  split.
  { unfold slice. rewrite length_firstn, length_skipn. lia. }
  split; [exact Ep|].
  split; [apply py_max_ge_l|].
  split.
  { destruct (stiffness_start_spec _ _ _ _ _ _ Es) as [->|[_ [Hf Hd]]];
      [left; reflexivity|].
    right. split; [exact Hd|].
    pose proof (py_max_ge_l (1 # 100) (mf * (1 # 1000))). lra. }
  exists lo, hi.
  split; [apply (np_min_spec _ _ Elo)|].
  split; [apply (np_max_spec _ _ Ehi) | exact Espread].
Qed.

Lemma initial_stiffness_window_witness :
  let displacement := [0; 1; 2; 3; 4; 5; 6; 7; 8; 9; 10; 11] in
  let force := [0; 10; 20; 30; 40; 50; 60; 70; 80; 90; 100; 110] in
  let np_polyfit := fun _ _ : list Q => Some 10 in
  exists ix,
    calculate_indices np_polyfit displacement force [] None = Some ix /\
    ix_initial_stiffness ix = Some 10 /\
    exists start_idx end_idx disp_threshold,
      stiffness_window displacement force
      = Some (start_idx, end_idx, disp_threshold) /\
      (10 < length displacement)%nat /\
      (start_idx + 3 <= end_idx <= length displacement)%nat /\
      (end_idx - start_idx <= 20)%nat /\
      length (slice displacement start_idx end_idx)
      = (end_idx - start_idx)%nat /\
      np_polyfit (slice displacement start_idx end_idx)
        (slice force start_idx end_idx) = Some 10 /\
      (1 # 1000) <= disp_threshold /\
      (start_idx = 0%nat \/
       (disp_threshold < Qabs (nth start_idx displacement 0) /\
        (1 # 100) < Qabs (nth start_idx force 0))) /\
      (exists lo hi,
         In lo (slice displacement start_idx end_idx) /\
         In hi (slice displacement start_idx end_idx) /\
         disp_threshold < hi - lo).
Proof.
  intros displacement force np_polyfit.
  destruct (calculate_indices np_polyfit displacement force [] None)
    as [ix|] eqn:E; [|vm_compute in E; discriminate].
  assert (ix_initial_stiffness ix = Some 10) as HK.
  { vm_compute in E. injection E as <-. reflexivity. }
  exists ix. split; [reflexivity|]. split; [exact HK|].
  exact (initial_stiffness_window _ _ _ _ _ _ _ E HK).
Defined.

(** *** The analysis steps return *)

Lemma stiffness_start_total (displacement force : list Q)
    (disp_threshold force_threshold : Q) (idx : list nat) :
  length displacement = length force ->
  Forall (fun i => (i < length force)%nat) idx ->
  exists start,
    stiffness_start_from displacement force disp_threshold force_threshold idx
    = Some start.
Proof.
  intros Hlen. induction 1 as [|i rest Hi Hrest IH];
    cbn [stiffness_start_from]; [eauto|].
  rewrite (nth_error_nth' force 0 Hi). cbn [bind].
  destruct (Qgtb (Qabs (nth i force 0)) force_threshold); [|exact IH].
  rewrite <- Hlen in Hi.
  rewrite (nth_error_nth' displacement 0 Hi). cbn [bind].
  destruct (Qgtb (Qabs (nth i displacement 0)) disp_threshold);
    [eauto | exact IH].
Qed.

Lemma slice_length (a : list Q) (start stop : nat) :
  (stop <= length a)%nat ->
  length (slice a start stop) = (stop - start)%nat.
Proof.
  intros H. unfold slice. rewrite length_firstn, length_skipn. lia.
Qed.

Lemma fitted_initial_stiffness_total
    (np_polyfit : list Q -> list Q -> option Q) (displacement force : list Q) :
  displacement <> [] ->
  length displacement = length force ->
  (forall x y, length x = length y -> (3 <= length x)%nat ->
               exists k, np_polyfit x y = Some k) ->
  exists K, fitted_initial_stiffness np_polyfit displacement force = Some K.
Proof.
  intros Hne Hlen Hfit. unfold fitted_initial_stiffness.
  destruct (10 <? length displacement)%nat; [|eauto].
  unfold stiffness_window.
  destruct (np_max_total (np_abs displacement)) as [md ->].
  { destruct displacement; [congruence | discriminate]. }
  destruct (np_max_total (np_abs force)) as [mf ->].
  { destruct force; [destruct displacement; [congruence | discriminate]
                    | discriminate]. }
  cbn [bind].
  destruct (stiffness_start_total displacement force
              (py_max (1 # 1000) (md * (1 # 1000)))
              (py_max (1 # 100) (mf * (1 # 1000)))
              (range 0 (length force)) Hlen) as [s ->].
  { apply Forall_forall. intros i Hi. unfold range in Hi.
    apply in_seq in Hi. lia. }
  cbn [bind].
  set (e := Nat.min (s + Nat.max 5 (Nat.min 20 (length displacement / 10)))
              (length displacement)).
  destruct (s + 2 <? e)%nat eqn:Hse; [|eauto].
  apply Nat.ltb_lt in Hse.
  assert (length (slice displacement s e) = (e - s)%nat) as Ld
      by (apply slice_length; unfold e; lia).
  assert (length (slice force s e) = (e - s)%nat) as Lf
      by (apply slice_length; rewrite <- Hlen; unfold e; lia).
  destruct (1 <? length (slice displacement s e))%nat; [|eauto].
  destruct (np_max_total (slice displacement s e)) as [hi ->].
  { intros E. rewrite E in Ld. simpl in Ld. lia. }
  destruct (np_min_total (slice displacement s e)) as [lo ->].
  { intros E. rewrite E in Ld. simpl in Ld. lia. }
  cbn [bind].
  destruct (Qgtb (hi - lo) (py_max (1 # 1000) (md * (1 # 1000)))); [|eauto].
  destruct (Hfit (slice displacement s e) (slice force s e)) as [k ->];
    [lia | lia |].
  cbn [bind]. eauto.
Qed.

Lemma secant_stiffness_total (sk : skeleton_curve) :
  length (br_disp (sk_positive sk)) = length (br_force (sk_positive sk)) ->
  exists K, secant_stiffness (Some sk) = Some K.
Proof.
  intros Hlen. unfold secant_stiffness.
  destruct (1 <? length (br_disp (sk_positive sk)))%nat eqn:E; [|eauto].
  apply Nat.ltb_lt in E.
  destruct (py_last_total (br_disp (sk_positive sk))) as [md ->].
  { intros E'. rewrite E' in E. simpl in E. lia. }
  cbn [bind]. destruct (negb (Qeq_bool md 0)); [|eauto].
  destruct (py_last_total (br_force (sk_positive sk))) as [mf ->].
  { intros E'. rewrite Hlen, E' in E. simpl in E. lia. }
  cbn [bind]. eauto.
Qed.

Lemma equivalent_damping_total (total : Q) (sk : skeleton_curve) :
  length (br_disp (sk_positive sk)) = length (br_force (sk_positive sk)) ->
  exists he, equivalent_damping total (Some sk) = Some he.
Proof.
  intros Hlen. unfold equivalent_damping.
  destruct (Qgtb total 0); [|eauto].
  destruct (1 <? length (br_disp (sk_positive sk)))%nat eqn:E; [|eauto].
  apply Nat.ltb_lt in E.
  destruct (py_last_total (br_disp (sk_positive sk))) as [md ->].
  { intros E'. rewrite E' in E. simpl in E. lia. }
  destruct (py_last_total (br_force (sk_positive sk))) as [mf ->].
  { intros E'. rewrite Hlen, E' in E. simpl in E. lia. }
  cbn [bind].
  destruct (Qgtb ((1 # 2) * Qabs (md * mf) * 2) 0); eauto.
Qed.

Lemma calculate_indices_total (np_polyfit : list Q -> list Q -> option Q)
    (displacement force : list Q) (loops : list hysteresis_loop)
    (sk : skeleton_curve) :
  displacement <> [] ->
  length displacement = length force ->
  length (br_disp (sk_positive sk)) = length (br_force (sk_positive sk)) ->
  (forall x y, length x = length y -> (3 <= length x)%nat ->
               exists k, np_polyfit x y = Some k) ->
  exists ix,
    calculate_indices np_polyfit displacement force loops (Some sk) = Some ix.
Proof.
  intros Hne Hlen Hsk Hfit. unfold calculate_indices.
  assert (force <> []) as Hnf.
  { destruct force; [destruct displacement; [congruence | discriminate]
                    | discriminate]. }
  destruct (np_argmax_total displacement Hne) as [a1 ->].
  destruct (np_argmin_total displacement Hne) as [a2 ->].
  destruct (np_argmax_total force Hnf) as [a3 ->].
  destruct (np_argmin_total force Hnf) as [a4 ->].
  destruct (py_last_total displacement Hne) as [r ->].
  destruct (secant_stiffness_total sk Hsk) as [ks ->].
  destruct (fitted_initial_stiffness_total np_polyfit displacement force
              Hne Hlen Hfit) as [ki ->].
  destruct (equivalent_damping_total (py_sum (map l_area loops)) sk Hsk)
    as [he ->].
  cbn [bind]. eauto.
Qed.

Lemma extracted_skeleton_aligned (method : skeleton_method)
    (displacement force : list Q) (sk : skeleton_curve) :
  extract_skeleton_curve method displacement force = Some sk ->
  length (br_disp (sk_positive sk)) = length (br_force (sk_positive sk)).
Proof.
  intros H.
  assert (exists origin P,
            branch_from origin P displacement force (sk_positive sk))
    as [origin [P [pts [Hd [Hf _]]]]].
  { destruct method; simpl in H.
    - unfold extract_outer_envelope in H.
      inv_bind H. inv_bind H. inv_bind H. inv_bind H. injection H as <-.
      cbn [sk_positive].
      exists (0, 0), (fun x => (1 # 100) < x).
      eapply pos_envelope_samples; [apply py_max_ge_l | | | eassumption].
      + apply Forall_forall. intros i Hi. apply in_seq in Hi. lia.
      + apply (branch_from_origin (0, 0)).
    - destruct (peak_points_branches _ _ _ H) as [thr [peaks [c [_ [_ Hb]]]]].
      cbv zeta in Hb. destruct Hb as [Hp _]. eauto. }
  rewrite Hd, Hf. cbn [length]. rewrite !length_map. reflexivity.
Qed.

Lemma filter_first_loops_nonempty (displacement force d' f' : list Q) :
  displacement <> [] ->
  filter_first_loops displacement force = Some (d', f') ->
  d' <> [].
Proof.
  intros Hne H. unfold filter_first_loops in H.
  destruct (peaks_indices_of displacement) as [|p ps];
    [injection H as <- <-; exact Hne|].
  destruct (keep_indices_of (length displacement) (peak_groups displacement))
    as [|k0 ks] eqn:Ek; [injection H as <- <-; exact Hne|].
  inv_bind H. inv_bind H. injection H as <- <-.
  match goal with
  | E : take_indices displacement _ = Some _ |- _ =>
      apply take_indices_length in E; rename E into Hl
  end.
  assert (In k0 (keep_list_of displacement)) as Hin.
  { unfold keep_list_of. apply sorted_nat_In. rewrite Ek. left. reflexivity. }
  intros ->. simpl in Hl.
  destruct (keep_list_of displacement); [destruct Hin | discriminate].
Qed.

Lemma extract_hysteresis_loops_step_eq (filter_first_loop : bool)
    (cd : loaded_data) :
  extract_hysteresis_loops_step filter_first_loop cd
  = (loops <- extract_hysteresis_loops filter_first_loop
                (cd_displacement cd) (cd_force cd) ;;
     Some (current_data_after filter_first_loop cd, loops)).
Proof.
  unfold extract_hysteresis_loops_step, extract_hysteresis_loops,
    current_data_after.
  destruct filter_first_loop; cbn [bind].
  - destruct (filter_first_loops (cd_displacement cd) (cd_force cd))
      as [[d' f']|]; cbn [bind]; [|reflexivity].
    destruct (loop_peaks_from d' f' (inner_range d')) as [peaks|];
      cbn [bind]; [|reflexivity].
    destruct (loops_between d' f' peaks); reflexivity.
  - destruct (loop_peaks_from (cd_displacement cd) (cd_force cd)
                (inner_range (cd_displacement cd))) as [peaks|];
      cbn [bind]; [|reflexivity].
    destruct (loops_between (cd_displacement cd) (cd_force cd) peaks);
      reflexivity.
Qed.

Lemma current_data_of_filtered (displacement force d' f' : list Q)
    (earlier : list bool) :
  filter_first_loops displacement force = Some (d', f') ->
  fold_left (fun cd b => current_data_after b cd) earlier
    (mk_loaded displacement force (Some d') (Some f'))
  = mk_loaded displacement force (Some d') (Some f').
Proof.
  intros Hf. induction earlier as [|b earlier IH]; [reflexivity|].
  cbn [fold_left]. destruct b; unfold current_data_after at 2; [|exact IH].
  cbn [cd_displacement cd_force]. rewrite Hf. exact IH.
Qed.

Lemma current_data_of_spec (displacement force d' f' : list Q)
    (earlier : list bool) :
  filter_first_loops displacement force = Some (d', f') ->
  current_data_of earlier displacement force
  = if existsb (fun b => b) earlier
    then mk_loaded displacement force (Some d') (Some f')
    else loaded displacement force.
Proof.
  intros Hf. unfold current_data_of.
  induction earlier as [|b earlier IH]; [reflexivity|].
  cbn [fold_left existsb]. destruct b; cbn [orb].
  - unfold current_data_after, loaded. cbn [cd_displacement cd_force].
    rewrite Hf. unfold set_filtered. cbn [cd_displacement cd_force].
    apply current_data_of_filtered. exact Hf.
  - unfold current_data_after at 2. exact IH.
Qed.

(** The three analysis steps of [update_analysis] never raise on a
    loaded file, however often it was analysed before: for a non-empty
    series of aligned samples, any settings [earlier] of the first-loop
    filter in the earlier runs, the filter on or off and both skeleton
    methods, [extract_hysteresis_loops], [extract_skeleton_curve] and
    [calculate_indices] all return, provided the line fit returns on
    aligned arrays of three samples or more.  The loops are those of
    the filtered series when the filter is on and of the loaded series
    otherwise; the skeleton curve and the indices are computed on the
    filtered series when the filter is on or was on in an earlier run,
    and on the loaded series otherwise. *)
Theorem analysis_steps_return (np_polyfit : list Q -> list Q -> option Q)
    (earlier : list bool) (filter_first_loop : bool) (method : skeleton_method)
    (displacement force : list Q) :
  displacement <> [] ->
  length displacement = length force ->
  (forall x y, length x = length y -> (3 <= length x)%nat ->
               exists k, np_polyfit x y = Some k) ->
  let cd := current_data_of earlier displacement force in
  exists loops d' f' sk ix,
    analysis_steps np_polyfit filter_first_loop method cd
    = Some (current_data_after filter_first_loop cd, loops, sk, ix) /\
    extract_hysteresis_loops filter_first_loop displacement force
    = Some loops /\
    (if filter_first_loop || existsb (fun b => b) earlier
     then filter_first_loops displacement force
     else Some (displacement, force)) = Some (d', f') /\
    current_series (current_data_after filter_first_loop cd) = (d', f') /\
    extract_skeleton_curve method d' f' = Some sk /\
    calculate_indices np_polyfit d' f' loops (Some sk) = Some ix.
Proof.
  intros Hne Hlen Hfit cd.
  destruct (extract_hysteresis_loops_total filter_first_loop _ _ Hlen)
    as [loops Hloops].
  destruct (filter_first_loops_total _ _ Hlen) as [df [ff Hf]].
  pose proof (filter_first_loops_nonempty _ _ _ _ Hne Hf) as Hdf.
  pose proof (filter_first_loops_lengths _ _ _ _ Hlen Hf) as Hlf.
  pose proof (current_data_of_spec _ _ _ _ earlier Hf) as Hcd.
  fold cd in Hcd.
  assert (cd_displacement cd = displacement /\ cd_force cd = force) as [Hd Hfo].
  { rewrite Hcd. destruct (existsb (fun b => b) earlier); split; reflexivity. }
  assert (exists d' f',
            (if filter_first_loop || existsb (fun b => b) earlier
             then filter_first_loops displacement force
             else Some (displacement, force)) = Some (d', f') /\
            current_series (current_data_after filter_first_loop cd) = (d', f') /\
            d' <> [] /\ length d' = length f')
    as [d' [f' [Hsel [Hcur [Hne' Hlen']]]]].
  { unfold current_data_after. rewrite Hd, Hfo, Hf, Hcd.
    destruct filter_first_loop; cbn [orb].
    - exists df, ff.
      destruct (existsb (fun b => b) earlier); repeat split; assumption.
    - destruct (existsb (fun b => b) earlier).
      + exists df, ff. repeat split; assumption.
      + exists displacement, force. repeat split; assumption. }
  destruct (extract_skeleton_curve_total method d' f' Hne' Hlen') as [sk Hsk].
  pose proof (extracted_skeleton_aligned _ _ _ _ Hsk) as Hal.
  destruct (calculate_indices_total np_polyfit d' f' loops sk Hne' Hlen' Hal Hfit)
    as [ix Hix].
  exists loops, d', f', sk, ix.
  split; [|repeat split; assumption].
  unfold analysis_steps. rewrite extract_hysteresis_loops_step_eq.
  rewrite Hd, Hfo, Hloops. cbn [bind]. rewrite Hcur.
  rewrite Hsk. cbn [bind]. rewrite Hix. reflexivity.
Qed.

(** [analysis_steps_return] on a series of 60 samples with one peak,
    analysed with the filter off after a run with the filter on: the
    loops are taken from the 60 loaded samples, the skeleton curve and
    the indices from the 51 samples that the earlier run kept. *)
Lemma analysis_steps_return_witness :
  let displacement := 0 :: 2 :: repeat 0 58 in
  let force := 0 :: 10 :: repeat 0 58 in
  let cd := current_data_of [true] displacement force in
  exists loops d' f' sk ix,
    analysis_steps (fun _ _ => Some 1) false peak_points cd
    = Some (cd, loops, sk, ix) /\
    extract_hysteresis_loops false displacement force = Some loops /\
    filter_first_loops displacement force = Some (d', f') /\
    length displacement = 60%nat /\ length d' = 51%nat /\
    current_series cd = (d', f') /\
    extract_skeleton_curve peak_points d' f' = Some sk /\
    calculate_indices (fun _ _ => Some 1) d' f' loops (Some sk) = Some ix.
Proof.
  cbv zeta.
  destruct (analysis_steps_return (fun _ _ => Some 1) [true] false peak_points
              (0 :: 2 :: repeat 0 58) (0 :: 10 :: repeat 0 58))
    as [loops [d' [f' [sk [ix [H1 [H2 [H3 [H4 [H5 H6]]]]]]]]]].
  - discriminate.
  - reflexivity.
  - intros x y _ _. exists 1. reflexivity.
  - exists loops, d', f', sk, ix.
    split; [exact H1|]. split; [exact H2|].
    cbn [orb existsb] in H3. split; [exact H3|].
    split; [reflexivity|].
    split; [vm_compute in H3; injection H3 as <- <-; reflexivity|].
    split; [exact H4|]. split; [exact H5 | exact H6].
Defined.

(** ** The file list and the undo history *)

Lemma last_item_app {A : Type} (l : list A) (x : A) :
  last_item (l ++ [x]) = Some x.
Proof.
  unfold last_item. rewrite length_app. cbn [length].
  replace (length l + 1 - 1)%nat with (length l) by lia.
  rewrite nth_error_app2 by lia. rewrite Nat.sub_diag. reflexivity.
Qed.

Lemma last_item_tl {A : Type} (l : list A) :
  (2 <= length l)%nat -> last_item (tl l) = last_item l.
Proof.
  destruct l as [|x l]; cbn [length tl]; [lia|]. intros H.
  unfold last_item. cbn [length].
  replace (S (length l) - 1)%nat with (S (length l - 1)) by lia.
  reflexivity.
Qed.

Lemma last_item_In {A : Type} (l : list A) (x : A) :
  last_item l = Some x -> In x l.
Proof. unfold last_item. apply nth_error_In. Qed.

Lemma removelast_In {A : Type} (l : list A) (x : A) :
  In x (removelast l) -> In x l.
Proof.
  induction l as [|y l IH]; [intros []|].
  destruct l as [|z l]; [intros []|].
  cbn [removelast]. intros [<-|H]; [left; reflexivity | right; apply IH, H].
Qed.

Lemma removelast_length {A : Type} (l : list A) :
  length (removelast l) = (length l - 1)%nat.
Proof.
  induction l as [|y l IH]; [reflexivity|].
  destruct l as [|z l]; [reflexivity|].
  cbn [removelast length] in *. rewrite IH. lia.
Qed.

Lemma py_pop_map {A B : Type} (f : A -> B) (l : list A) (i : nat) :
  py_pop (map f l) i = map f (py_pop l i).
Proof.
  unfold py_pop. rewrite map_app, firstn_map, skipn_map. reflexivity.
Qed.

Lemma py_pop_cons {A : Type} (x : A) (l : list A) (i : nat) :
  py_pop (x :: l) (S i) = x :: py_pop l i.
Proof. reflexivity. Qed.

Lemma py_pop_In {A : Type} (l : list A) (i : nat) (x : A) :
  In x (py_pop l i) -> In x l.
Proof.
  revert i. induction l as [|y l IH]; intros i H.
  - unfold py_pop in H. rewrite firstn_nil, skipn_nil in H. exact H.
  - destruct i as [|i]; [right; exact H|].
    rewrite py_pop_cons in H. destruct H as [<-|H];
      [left; reflexivity | right; eapply IH, H].
Qed.

Lemma py_pop_NoDup {A : Type} (l : list A) :
  NoDup l -> forall i, NoDup (py_pop l i).
Proof.
  induction 1 as [|x l Hx Hl IH]; intros i.
  - unfold py_pop. rewrite firstn_nil, skipn_nil. constructor.
  - destruct i as [|i]; [exact Hl|].
    rewrite py_pop_cons. constructor; [|apply IH].
    intros Hin. apply Hx. eapply py_pop_In, Hin.
Qed.

Lemma py_pop_files_ok (path_name : String.string -> String.string)
    (l : list data_file) (i : nat) :
  files_ok path_name l -> files_ok path_name (py_pop l i).
Proof.
  intros [Hnd Hn]. split.
  - rewrite <- py_pop_map. apply py_pop_NoDup, Hnd.
  - rewrite Forall_forall in *. intros f Hf. apply Hn. eapply py_pop_In, Hf.
Qed.

(** The loop of [import_files]. *)
Lemma import_fold_spec (path_name : String.string -> String.string)
    (files : list String.string) :
  forall dfs fl dfs' fl',
    fold_left (import_step path_name) files (dfs, fl) = (dfs', fl') ->
    exists added,
      dfs' = dfs ++ added /\ fl' = fl ++ map df_name added /\
      (forall file, In file files -> In file (map df_path dfs')) /\
      (forall f, In f added ->
                 In (df_path f) files /\ ~ In (df_path f) (map df_path dfs) /\
                 df_name f = path_name (df_path f)) /\
      NoDup (map df_path added).
Proof.
  induction files as [|file files IH]; intros dfs fl dfs' fl' H.
  - simpl in H. injection H as <- <-. exists [].
    rewrite !app_nil_r. split; [reflexivity|]. split; [reflexivity|].
    split; [intros f []|]. split; [intros f [] | constructor].
  - cbn [fold_left] in H. unfold import_step at 2 in H.
    destruct (existsb (String.eqb file) (map df_path dfs)) eqn:E.
    + destruct (IH _ _ _ _ H) as [added [-> [-> [H1 [H2 H3]]]]].
      exists added. split; [reflexivity|]. split; [reflexivity|].
      split; [|split; [|exact H3]].
      * intros f [<-|Hf]; [|apply H1; exact Hf].
        apply existsb_exists in E. destruct E as [p [Hp Heq]].
        apply String.eqb_eq in Heq. subst p.
        rewrite map_app. apply in_or_app. left. exact Hp.
      * intros f Hf. destruct (H2 f Hf) as [Ha [Hb Hc]].
        split; [right; exact Ha|]. split; assumption.
    + destruct (IH _ _ _ _ H) as [added [-> [-> [H1 [H2 H3]]]]].
      assert (~ In file (map df_path dfs)) as Hnew.
      { intros Hin. apply Bool.not_true_iff_false in E. apply E.
        apply existsb_exists. exists file. split; [exact Hin|].
        apply String.eqb_refl. }
      exists (mk_file file (path_name file) :: added).
      rewrite <- !app_assoc. cbn [app map df_name].
      split; [reflexivity|]. split; [reflexivity|].
      split; [|split].
      * intros f [<-|Hf]; [|rewrite <- app_assoc in H1; apply H1; exact Hf].
        rewrite map_app. apply in_or_app. right. left. reflexivity.
      * intros f [<-|Hf].
        -- cbn [df_path df_name]. split; [left; reflexivity|].
           split; [exact Hnew | reflexivity].
        -- destruct (H2 f Hf) as [Ha [Hb Hc]].
           split; [right; exact Ha|]. split; [|exact Hc].
           intros Hin. apply Hb. rewrite map_app. apply in_or_app.
           left. exact Hin.
      * cbn [df_path]. constructor; [|exact H3].
        intros Hin. apply in_map_iff in Hin. destruct Hin as [f [Hp Hf]].
        destruct (H2 f Hf) as [_ [Hb _]]. apply Hb.
        rewrite map_app. apply in_or_app. right. left. symmetry. exact Hp.
Qed.

Lemma import_fold_files_ok (path_name : String.string -> String.string)
    (files : list String.string) (dfs dfs' : list data_file)
    (fl fl' : list String.string) :
  files_ok path_name dfs -> fl = map df_name dfs ->
  fold_left (import_step path_name) files (dfs, fl) = (dfs', fl') ->
  files_ok path_name dfs' /\ fl' = map df_name dfs'.
Proof.
  intros [Hnd Hn] -> H.
  destruct (import_fold_spec _ _ _ _ _ _ H) as [added [-> [-> [_ [H2 H3]]]]].
  split; [|rewrite map_app; reflexivity]. split.
  - rewrite map_app. apply NoDup_app; [exact Hnd | exact H3 |].
    intros p Hp Hq. apply in_map_iff in Hq. destruct Hq as [f [<- Hf]].
    destruct (H2 f Hf) as [_ [Hb _]]. contradiction.
  - apply Forall_app. split; [exact Hn|].
    apply Forall_forall. intros f Hf. apply (H2 f Hf).
Qed.

(** [save_state] establishes the invariant. *)
Lemma save_state_inv (path_name : String.string -> String.string)
    (a : analyzer) :
  file_list a = map df_name (data_files a) ->
  files_ok path_name (data_files a) ->
  (length (history a) <= 30)%nat ->
  Forall (files_ok path_name) (history a) ->
  analyzer_inv path_name (save_state a).
Proof.
  intros Hfl Hok Hlen Hh. unfold analyzer_inv, save_state.
  cbn [data_files history file_list].
  split; [exact Hfl|]. split; [exact Hok|].
  assert (Forall (files_ok path_name) (history a ++ [data_files a])) as Hall.
  { apply Forall_app. split; [exact Hh | constructor; [exact Hok | constructor]]. }
  assert (length (history a ++ [data_files a]) = S (length (history a)))
    as Hl by (rewrite length_app; simpl; lia).
  destruct (30 <? length (history a ++ [data_files a]))%nat eqn:E.
  - apply Nat.ltb_lt in E.
    destruct (history a ++ [data_files a]) as [|s0 rest] eqn:Eh;
      [simpl in E; lia|].
    cbn [tl]. cbn [length] in Hl, E.
    split; [lia|]. split; [inversion Hall; assumption|].
    pose proof (last_item_app (history a) (data_files a)) as Hlast.
    rewrite Eh in Hlast.
    rewrite <- (last_item_tl (s0 :: rest)) in Hlast by (cbn [length]; lia).
    cbn [tl] in Hlast.
    destruct rest; [simpl in E; lia | exact Hlast].
  - apply Nat.ltb_ge in E.
    split; [lia|]. split; [exact Hall|].
    pose proof (last_item_app (history a) (data_files a)) as Hlast.
    destruct (history a ++ [data_files a]); [discriminate | exact Hlast].
Qed.

Lemma run_inv (path_name : String.string -> String.string)
    (act : action) (a a' : analyzer) :
  analyzer_inv path_name a -> run path_name act a = Some a' ->
  analyzer_inv path_name a'.
Proof.
  intros Hinv H. pose proof Hinv as [Hfl [Hok [Hlen [Hh Hsync]]]].
  destruct act as [files|reply_yes|current_row|]; cbn [run] in H.
  - injection H as <-. unfold import_files.
    destruct files as [|file files]; [exact Hinv|].
    destruct (fold_left (import_step path_name) (file :: files)
                (data_files a, file_list a)) as [dfs' fl'] eqn:E.
    destruct (import_fold_files_ok _ _ _ _ _ _ Hok Hfl E) as [Hok' Hfl'].
    apply save_state_inv; assumption.
  - injection H as <-. unfold clear_files.
    destruct (data_files a) as [|f0 dfs] eqn:Ed; [exact Hinv|].
    destruct reply_yes; [|exact Hinv].
    apply save_state_inv; cbn [data_files history file_list];
      [reflexivity | split; [constructor | constructor] | exact Hlen | exact Hh].
  - unfold delete_selected in H.
    destruct (0 <=? current_row)%Z; [|injection H as <-; exact Hinv].
    destruct (nth_error (data_files a) (Z.to_nat current_row)) as [f|];
      [|discriminate].
    cbn [bind] in H. injection H as <-.
    apply save_state_inv; cbn [data_files history file_list].
    + rewrite Hfl. apply py_pop_map.
    + apply py_pop_files_ok, Hok.
    + exact Hlen.
    + exact Hh.
  - unfold undo in H.
    destruct (1 <? length (history a))%nat eqn:E; [|injection H as <-; exact Hinv].
    destruct (last_item (removelast (history a))) as [s|] eqn:El; [|discriminate].
    cbn [bind] in H. injection H as <-.
    unfold analyzer_inv. cbn [data_files history file_list].
    assert (Forall (files_ok path_name) (removelast (history a))) as Hh'.
    { rewrite Forall_forall in *. intros x Hx. apply Hh.
      apply removelast_In, Hx. }
    split; [reflexivity|]. split.
    { rewrite Forall_forall in Hh'. apply Hh'. apply last_item_In, El. }
    split; [rewrite removelast_length; lia|]. split; [exact Hh'|].
    destruct (removelast (history a)); [discriminate | exact El].
Qed.

Lemma run_all_inv (path_name : String.string -> String.string)
    (acts : list action) :
  forall a a',
    analyzer_inv path_name a -> run_all path_name acts a = Some a' ->
    analyzer_inv path_name a'.
Proof.
  induction acts as [|act acts IH]; intros a a' Hinv H; cbn [run_all] in H.
  - injection H as <-. exact Hinv.
  - destruct (run path_name act a) as [a1|] eqn:E; [|discriminate].
    cbn [bind] in H. eapply IH; [|exact H]. eapply run_inv; eassumption.
Qed.

Lemma initial_inv (path_name : String.string -> String.string) :
  analyzer_inv path_name initial.
Proof.
  unfold analyzer_inv, initial. cbn.
  split; [reflexivity|]. split; [split; constructor|].
  split; [lia|]. split; [constructor | reflexivity].
Qed.

(** Whatever files are imported, deleted, cleared or brought back by
    undo, from the start of the program on: the list widget shows the
    names of [data_files] in their order, no path is listed twice, every
    name is the name of its path, the history holds at most 30
    snapshots, and its last snapshot is the current list of files. *)
Theorem file_list_invariant (path_name : String.string -> String.string)
    (acts : list action) (a : analyzer) :
  run_all path_name acts initial = Some a ->
  file_list a = map df_name (data_files a) /\
  NoDup (map df_path (data_files a)) /\
  Forall (fun f => df_name f = path_name (df_path f)) (data_files a) /\
  (length (history a) <= 30)%nat /\
  match history a with
  | [] => data_files a = []
  | _ => last_item (history a) = Some (data_files a)
  end.
Proof.
  intros H.
  destruct (run_all_inv path_name acts initial a (initial_inv path_name) H)
    as [H1 [[H2 H3] [H4 [_ H5]]]].
  auto.
Qed.

Lemma file_list_invariant_witness :
  exists a,
    run_all (fun p => p)
      [Import [Paths.a_txt; Paths.b_csv; Paths.a_txt]; Delete 0; Undo] initial
    = Some a /\
    file_list a = map df_name (data_files a) /\
    NoDup (map df_path (data_files a)) /\
    Forall (fun f => df_name f = df_path f) (data_files a) /\
    (length (history a) <= 30)%nat /\
    match history a with
    | [] => data_files a = []
    | _ => last_item (history a) = Some (data_files a)
    end.
Proof.
  destruct (run_all (fun p => p)
              [Import [Paths.a_txt; Paths.b_csv; Paths.a_txt]; Delete 0; Undo]
              initial) as [a|] eqn:E; [|vm_compute in E; discriminate].
  exists a. split; [reflexivity|].
  exact (file_list_invariant (fun p => p) _ a E).
Defined.

Lemma removelast_app_last {A : Type} (l : list A) (x : A) :
  removelast (l ++ [x]) = l.
Proof.
  induction l as [|y l IH]; [reflexivity|].
  cbn [app]. destruct (l ++ [x]) as [|z r] eqn:E.
  - destruct l; discriminate.
  - cbn [removelast]. f_equal. exact IH.
Qed.

(** [undo] right after [save_state], for a stack [h] that was in step
    with the files before the change. *)
Lemma undo_save_state (dfs : list data_file) (h : list (list data_file))
    (fl : list String.string) :
  (length h <= 30)%nat ->
  match h with
  | [] => undo (save_state (mk_analyzer dfs h fl))
          = Some (save_state (mk_analyzer dfs h fl))
  | _ => forall s0, last_item h = Some s0 ->
         exists a2, undo (save_state (mk_analyzer dfs h fl)) = Some a2 /\
                    data_files a2 = s0 /\ file_list a2 = map df_name s0
  end.
Proof.
  intros Hlen. destruct h as [|s1 h']; [reflexivity|].
  intros s0 Hlast. unfold save_state, undo.
  cbn [data_files history file_list].
  set (h := s1 :: h') in *.
  assert (length (h ++ [dfs]) = S (length h)) as Hl
      by (rewrite length_app; simpl; lia).
  assert (1 <= length h)%nat as Hh by (unfold h; simpl; lia).
  destruct (30 <? length (h ++ [dfs]))%nat eqn:E.
  - apply Nat.ltb_lt in E.
    assert (length h = 30%nat) as H30 by lia.
    assert (tl (h ++ [dfs]) = tl h ++ [dfs]) as Ht by reflexivity.
    rewrite Ht.
    assert (length (tl h ++ [dfs]) = 30%nat) as Hl2.
    { rewrite length_app. unfold h. cbn [tl length].
      unfold h in H30. cbn [length] in H30. lia. }
    rewrite Hl2. cbn [Nat.ltb Nat.leb].
    rewrite removelast_app_last.
    rewrite last_item_tl by lia. rewrite Hlast. cbn [bind].
    eexists. split; [reflexivity|]. split; reflexivity.
  - rewrite Hl.
    assert ((1 <? S (length h))%nat = true) as -> by (apply Nat.ltb_lt; lia).
    rewrite removelast_app_last. rewrite Hlast. cbn [bind].
    eexists. split; [reflexivity|]. split; reflexivity.
Qed.

(** Undo after a change.  When an import, a confirmed clearing or a
    deletion has saved its state, [undo] brings back the list of files
    and the list widget as they were before the change, provided a
    snapshot had been saved before; after the very first saved change
    of a session there is no such snapshot and [undo] does nothing. *)
Theorem undo_restores_files (path_name : String.string -> String.string)
    (acts : list action) (act : action) (a a1 : analyzer) :
  run_all path_name acts initial = Some a ->
  run path_name act a = Some a1 ->
  saves_state act a ->
  match history a with
  | [] => undo a1 = Some a1
  | _ => exists a2, undo a1 = Some a2 /\
                    data_files a2 = data_files a /\
                    file_list a2 = file_list a
  end.
Proof.
  intros Hreach Hrun Hsaved.
  destruct (run_all_inv path_name acts initial a (initial_inv path_name) Hreach)
    as [Hfl [_ [Hlen [_ Hsync]]]].
  assert (exists dfs fl, a1 = save_state (mk_analyzer dfs (history a) fl))
    as [dfs [fl ->]].
  { destruct act as [files|reply_yes|current_row|]; cbn [run saves_state] in *.
    - injection Hrun as <-. unfold import_files.
      destruct files as [|file files]; [congruence|].
      destruct (fold_left (import_step path_name) (file :: files)
                  (data_files a, file_list a)) as [dfs' fl'].
      eauto.
    - injection Hrun as <-. destruct Hsaved as [-> Hne]. unfold clear_files.
      destruct (data_files a); [congruence | eauto].
    - unfold delete_selected in Hrun.
      apply Z.leb_le in Hsaved. rewrite Hsaved in Hrun.
      destruct (nth_error (data_files a) (Z.to_nat current_row));
        [|discriminate].
      cbn [bind] in Hrun. injection Hrun as <-. eauto.
    - destruct Hsaved. }
  pose proof (undo_save_state dfs (history a) fl Hlen) as Hu.
  destruct (history a) as [|s1 h'] eqn:Eh; [exact Hu|].
  destruct (Hu _ Hsync) as [a2 [H1 [H2 H3]]].
  exists a2. split; [exact H1|]. split; [exact H2|].
  rewrite H3, Hfl. reflexivity.
Qed.

Lemma undo_restores_files_witness :
  exists a a1 a2,
    run_all (fun p => p) [Import [Paths.a_txt; Paths.b_csv]] initial = Some a /\
    run (fun p => p) (Delete 0) a = Some a1 /\
    undo a1 = Some a2 /\
    data_files a1 <> data_files a /\
    data_files a2 = data_files a /\
    file_list a2 = file_list a.
Proof.
  destruct (run_all (fun p => p) [Import [Paths.a_txt; Paths.b_csv]] initial)
    as [a|] eqn:E; [|vm_compute in E; discriminate].
  destruct (run (fun p => p) (Delete 0) a) as [a1|] eqn:E1;
    [|vm_compute in E; injection E as <-; vm_compute in E1; discriminate].
  assert (saves_state (Delete 0) a) as Hs by (cbn; lia).
  pose proof (undo_restores_files (fun p => p) _ _ a a1 E E1 Hs) as H.
  assert (history a <> []) as Hh
      by (vm_compute in E; injection E as <-; discriminate).
  assert (data_files a1 <> data_files a) as Hne.
  { vm_compute in E. injection E as <-. vm_compute in E1.
    injection E1 as <-. discriminate. }
  destruct (history a); [congruence|].
  destruct H as [a2 [H1 [H2 H3]]].
  exists a, a1, a2.
  split; [reflexivity|]. split; [exact E1|]. split; [exact H1|].
  split; [exact Hne|]. split; [exact H2 | exact H3].
Defined.

(** What [import_files] adds.  The files listed before stay, in their
    order; the new entries follow them, each one a selected path that
    was not listed, with the name of its path, and none twice; after
    the import every selected path is listed. *)
Theorem import_files_adds_selected
    (path_name : String.string -> String.string)
    (files : list String.string) (a : analyzer) :
  exists added,
    data_files (import_files path_name files a) = data_files a ++ added /\
    file_list (import_files path_name files a)
    = file_list a ++ map df_name added /\
    (forall file, In file files ->
       In file (map df_path (data_files (import_files path_name files a)))) /\
    (forall f, In f added ->
       In (df_path f) files /\
       ~ In (df_path f) (map df_path (data_files a)) /\
       df_name f = path_name (df_path f)) /\
    NoDup (map df_path added).
Proof.
  unfold import_files. destruct files as [|file files].
  - exists []. rewrite !app_nil_r. split; [reflexivity|].
    split; [reflexivity|]. split; [intros f []|].
    split; [intros f [] | constructor].
  - destruct (fold_left (import_step path_name) (file :: files)
                (data_files a, file_list a)) as [dfs' fl'] eqn:E.
    cbn [save_state data_files file_list].
    exact (import_fold_spec _ _ _ _ _ _ E).
Qed.

(** [delete_selected] on a row of the list widget never raises, and it
    removes from [data_files] and from the widget the entry of that row
    and nothing else. *)
Theorem delete_selected_removes_row
    (path_name : String.string -> String.string)
    (acts : list action) (a : analyzer) (current_row : Z) :
  run_all path_name acts initial = Some a ->
  (0 <= current_row < Z.of_nat (length (file_list a)))%Z ->
  exists a' f,
    delete_selected current_row a = Some a' /\
    nth_error (data_files a) (Z.to_nat current_row) = Some f /\
    Permutation (data_files a) (f :: data_files a') /\
    ~ In (df_path f) (map df_path (data_files a')) /\
    file_list a' = map df_name (data_files a').
Proof.
  intros Hreach [H0 Hrow].
  pose proof (run_all_inv path_name acts initial a (initial_inv path_name) Hreach)
    as Hinv.
  pose proof Hinv as [Hfl [[Hnd _] _]].
  rewrite Hfl, length_map in Hrow.
  assert (Z.to_nat current_row < length (data_files a))%nat as Hlt by lia.
  destruct (nth_error (data_files a) (Z.to_nat current_row)) as [f|] eqn:Ef;
    [|apply nth_error_None in Ef; lia].
  assert (run path_name (Delete current_row) a
          = Some (save_state
                    (mk_analyzer (py_pop (data_files a) (Z.to_nat current_row))
                       (history a)
                       (py_pop (file_list a) (Z.to_nat current_row)))))
    as Hrun.
  { cbn [run]. unfold delete_selected.
    rewrite (proj2 (Z.leb_le _ _) H0), Ef. reflexivity. }
  pose proof (run_inv _ _ _ _ Hinv Hrun) as [Hfl' _].
  eexists. exists f. split; [exact Hrun|]. split; [reflexivity|].
  unfold save_state in *. cbn [data_files file_list] in *.
  destruct (nth_error_split _ _ Ef) as [l1 [l2 [Hsplit Hl1]]].
  assert (py_pop (data_files a) (Z.to_nat current_row) = l1 ++ l2) as Hpop.
  { rewrite Hsplit, <- Hl1. clear.
    induction l1 as [|y l1 IH]; [reflexivity|].
    cbn [app length]. rewrite py_pop_cons, IH. reflexivity. }
  split; [|split; [|exact Hfl']]; rewrite Hpop.
  - rewrite Hsplit. symmetry. apply Permutation_middle.
  - rewrite Hsplit, map_app in Hnd. cbn [map] in Hnd.
    apply NoDup_remove_2 in Hnd. rewrite map_app. exact Hnd.
Qed.

Lemma delete_selected_removes_row_witness :
  exists a a' f,
    run_all (fun p => p) [Import [Paths.a_txt; Paths.b_csv]] initial = Some a /\
    delete_selected 1 a = Some a' /\
    nth_error (data_files a) 1 = Some f /\
    Permutation (data_files a) (f :: data_files a') /\
    ~ In (df_path f) (map df_path (data_files a')) /\
    file_list a' = map df_name (data_files a').
Proof.
  destruct (run_all (fun p => p) [Import [Paths.a_txt; Paths.b_csv]] initial)
    as [a|] eqn:E; [|vm_compute in E; discriminate].
  assert (0 <= 1 < Z.of_nat (length (file_list a)))%Z as Hrow.
  { vm_compute in E. injection E as <-. cbn. lia. }
  destruct (delete_selected_removes_row (fun p => p) _ a 1%Z E Hrow)
    as [a' [f H]].
  exists a, a', f. split; [reflexivity | exact H].
Defined.

(** ** The slider and the spin box of the Savitzky-Golay window *)

(** A property checked on every whole number from [lo] on, [n] of them,
    holds for each of them. *)
Lemma checked_range (check : Z -> bool) (lo : Z) (n : nat) :
  forallb check (map (fun k => (lo + Z.of_nat k)%Z) (seq 0 n)) = true ->
  forall v, (lo <= v < lo + Z.of_nat n)%Z -> check v = true.
Proof.
  intros H v Hv. rewrite forallb_forall in H. apply H.
  apply in_map_iff. exists (Z.to_nat (v - lo)). split; [lia|].
  apply in_seq. lia.
Qed.

(** Every position of the slider gives the spin box an odd window
    length within the range of the spin box, 3 to 51. *)
Theorem slider_window_odd_in_range (value : Z) :
  (0 <= value <= 100)%Z ->
  Z.odd (on_slider_changed value) = true /\
  (3 <= on_slider_changed value <= 51)%Z.
Proof.
  intros Hv.
  pose proof (checked_range
                (fun v => Z.odd (on_slider_changed v)
                          && (3 <=? on_slider_changed v)%Z
                          && (on_slider_changed v <=? 51)%Z)
                0 101 ltac:(vm_compute; reflexivity) value ltac:(lia)) as H.
  cbv beta in H. apply andb_true_iff in H. destruct H as [H H3].
  apply andb_true_iff in H. destruct H as [H1 H2].
  split; [exact H1 | lia].
Qed.

Lemma slider_window_odd_in_range_witness :
  Z.odd (on_slider_changed 10) = true /\
  (3 <= on_slider_changed 10 <= 51)%Z.
Proof.
  apply (slider_window_odd_in_range 10). lia.
Defined.

(** The spin box and the slider agree.  For a window length [w] of the
    spin box, [on_smoothness_changed] makes it odd, [w + 1] when [w] is
    even, and moves the slider to a position between 0 and 100 from
    which [on_slider_changed] computes that same odd length again. *)
Theorem window_slider_round_trip (w : Z) :
  (3 <= w <= 51)%Z ->
  let shown := if Z.even w then (w + 1)%Z else w in
  fst (on_smoothness_changed (inject_Z w)) = inject_Z shown /\
  (0 <= snd (on_smoothness_changed (inject_Z w)) <= 100)%Z /\
  on_slider_changed (snd (on_smoothness_changed (inject_Z w))) = shown.
Proof.
  intros Hw.
  pose proof (checked_range
                (fun w =>
                   let shown := if Z.even w then (w + 1)%Z else w in
                   Qeq_bool (fst (on_smoothness_changed (inject_Z w)))
                     (inject_Z shown)
                   && (Qden (fst (on_smoothness_changed (inject_Z w))) =? 1)%positive
                   && (0 <=? snd (on_smoothness_changed (inject_Z w)))%Z
                   && (snd (on_smoothness_changed (inject_Z w)) <=? 100)%Z
                   && (on_slider_changed (snd (on_smoothness_changed (inject_Z w)))
                       =? shown)%Z)
                3 49 ltac:(vm_compute; reflexivity) w ltac:(lia)) as H.
  cbv beta zeta in H |- *.
  repeat (apply andb_true_iff in H; let H' := fresh "H" in destruct H as [H H']).
  split; [|split; [lia | lia]].
  apply Qeq_bool_iff in H. apply Pos.eqb_eq in H3.
  destruct (fst (on_smoothness_changed (inject_Z w))) as [n d].
  cbn [Qden] in H3. subst d. unfold Qeq, inject_Z in H. cbn in H.
  unfold inject_Z. f_equal. lia.
Qed.

Lemma window_slider_round_trip_witness :
  fst (on_smoothness_changed (inject_Z 8)) = inject_Z 9 /\
  (0 <= snd (on_smoothness_changed (inject_Z 8)) <= 100)%Z /\
  on_slider_changed (snd (on_smoothness_changed (inject_Z 8))) = 9%Z.
Proof.
  apply (window_slider_round_trip 8). lia.
Defined.

(** ** More on the ductility methods *)

Lemma ductility_ratio_total (u y : Q) : exists r, ductility_ratio u y = Some r.
Proof.
  unfold ductility_ratio. destruct (Qgtb y 0) eqn:E; [|eauto].
  apply Qgtb_gt in E. rewrite div_Some; [eauto|]. intros H. lra.
Qed.

(** The energy method and the EEEP method differ by the factor 2 of the
    yield displacement only: whenever one returns, so does the other,
    and the EEEP coefficient is twice the energy coefficient, unless
    both are the fallback value 1. *)
Theorem energy_is_half_eeep (disp force : list Q) :
  match calc_energy_ductility disp force, calc_eeep_ductility disp force with
  | Some e, Some p => p == 2 * e \/ (e = 1 /\ p = 1)
  | None, None => True
  | _, _ => False
  end.
Proof.
  unfold calc_energy_ductility, calc_eeep_ductility, energy_points, eeep_points.
  destruct (calculate_loop_area disp force) as [A|] eqn:EA; [|exact I].
  cbn [bind].
  destruct (abs_at_argmax_abs disp) as [D|];
    destruct (abs_at_argmax_abs force) as [F|]; cbn [bind]; try exact I.
  destruct (Qgtb F 0) eqn:EF; cbn [bind ratio_of]; [|right; split; reflexivity].
  apply Qgtb_gt in EF.
  assert (~ F == 0) as HF by (intros H; lra).
  rewrite !(div_Some _ _ HF). cbn [bind ratio_of].
  destruct (calculate_loop_area_spec _ _ _ EA) as [HA _].
  unfold ductility_ratio.
  destruct (Qlt_le_dec 0 A) as [Hpos|Hzero].
  - assert (0 < A / F) as H1 by (apply Qlt_shift_div_l; lra).
    assert (0 < 2 * A / F) as H2 by (apply Qlt_shift_div_l; lra).
    rewrite (proj2 (Qgtb_gt _ _) H1), (proj2 (Qgtb_gt _ _) H2).
    rewrite !div_Some by (intros H; lra).
    left. field. repeat split; intros H; lra.
  - assert (A == 0) as HA0 by lra.
    assert (A / F == 0) as H1 by (rewrite HA0; field; exact HF).
    assert (2 * A / F == 0) as H2 by (rewrite HA0; field; exact HF).
    rewrite (proj2 (Qgtb_le _ _)) by lra.
    rewrite (proj2 (Qgtb_le _ _)) by lra.
    right. split; reflexivity.
Qed.

(** ** Zooming with the mouse wheel *)

Lemma zoomed_contains (cur_lim : Q * Q) (data s : Q) :
  fst cur_lim < snd cur_lim ->
  fst cur_lim <= data <= snd cur_lim ->
  0 <= s ->
  fst (zoomed cur_lim data s) <= data <= snd (zoomed cur_lim data s).
Proof.
  destruct cur_lim as [lo hi]. cbn [fst snd]. intros Hw [Hlo Hhi] Hs.
  unfold zoomed. cbn [fst snd].
  set (rel := (hi - data) / (hi - lo)).
  assert (0 <= rel) as H0
      by (unfold rel; apply Qle_shift_div_l; lra).
  assert (rel <= 1) as H1
      by (unfold rel; apply Qle_shift_div_r; lra).
  assert (0 <= (hi - lo) * s) as Hnw by nra.
  split; nra.
Qed.

(** A mouse-wheel event never moves the view away from the mouse: when
    the mouse is within the limits of both axes, it is within the new
    limits too, whatever the button of the event is and whether the
    event is over the axes or not. *)
Theorem scroll_keeps_mouse_in_view (inaxes : bool) (button : scroll_button)
    (xdata ydata : Q) (cur_xlim cur_ylim : Q * Q) :
  fst cur_xlim < snd cur_xlim ->
  fst cur_ylim < snd cur_ylim ->
  fst cur_xlim <= xdata <= snd cur_xlim ->
  fst cur_ylim <= ydata <= snd cur_ylim ->
  let new_lims := on_scroll inaxes button xdata ydata cur_xlim cur_ylim in
  fst (fst new_lims) <= xdata <= snd (fst new_lims) /\
  fst (snd new_lims) <= ydata <= snd (snd new_lims).
Proof.
  intros Hwx Hwy Hx Hy. cbv zeta. unfold on_scroll.
  destruct inaxes; cbn [negb fst snd]; [|split; assumption].
  destruct button; cbn [fst snd].
  - split; apply zoomed_contains; try assumption; discriminate.
  - split; apply zoomed_contains; try assumption; discriminate.
  - split; assumption.
Qed.

(** [scroll_keeps_mouse_in_view] for a step up with the mouse at
    [(2, 5)] in the view [0 .. 10] by [-10 .. 10]. *)
Lemma scroll_keeps_mouse_in_view_witness :
  let new_lims := on_scroll true scroll_up 2 5 (0, 10) (-10, 10) in
  new_lims = (zoomed (0, 10) 2 (9 # 10), zoomed (-10, 10) 5 (9 # 10)) /\
  fst (fst new_lims) <= 2 <= snd (fst new_lims) /\
  fst (snd new_lims) <= 5 <= snd (snd new_lims).
Proof.
  split; [reflexivity|].
  apply (scroll_keeps_mouse_in_view true scroll_up 2 5 (0, 10) (-10, 10));
    cbn [fst snd]; try split; try reflexivity; discriminate.
Defined.

(** ** What the smoothing routines receive *)

Lemma unique_from_NoDup (x : list Q) :
  forall i seen, NoDup (unique_from x i seen).
Proof.
  induction x as [|xi rest IH]; intros i seen; cbn [unique_from].
  - constructor.
  - destruct (existsb (Qeq_bool xi) seen); [apply IH|].
    constructor; [|apply IH].
    intros Hin. apply (proj1 (unique_from_spec rest (S i) (seen ++ [xi]))) in Hin.
    lia.
Qed.

Lemma sorted_strict {A : Type} (key : A -> Q) (l : list A) :
  StronglySorted (fun a b => key a <= key b) l ->
  NoDup l ->
  (forall a b, In a l -> In b l -> a <> b -> ~ key a == key b) ->
  StronglySorted Qlt (map key l).
Proof.
  induction 1 as [|a l Hs IH Ha]; intros Hnd Hdist; cbn [map].
  - constructor.
  - inversion Hnd as [|? ? Hal Hnd']; subst. constructor.
    + apply IH; [exact Hnd'|].
      intros b c Hb Hc. apply Hdist; right; assumption.
    + apply Forall_map. rewrite Forall_forall in *. intros b Hb.
      specialize (Ha b Hb).
      assert (~ key a == key b) as Hne.
      { apply Hdist; [left; reflexivity | right; exact Hb|].
        intros ->. contradiction. }
      destruct (Qlt_le_dec (key a) (key b)) as [Hlt|Hge]; [exact Hlt|].
      exfalso. apply Hne. lra.
Qed.

Lemma nth_map_in (g : nat -> Q) (l : list nat) (i : nat) :
  (i < length l)%nat -> nth i (map g l) 0 = g (nth i l 0%nat).
Proof.
  intros Hi. rewrite (nth_indep _ 0 (g 0%nat)) by (rewrite length_map; exact Hi).
  apply (map_nth g).
Qed.

Lemma map_nth_all (l : list nat) :
  map (fun i => nth i l 0%nat) (seq 0 (length l)) = l.
Proof.
  induction l as [|a l IH]; [reflexivity|].
  cbn [length seq map nth]. f_equal.
  rewrite <- seq_shift, map_map. exact IH.
Qed.

(** With at least four usable points and aligned series, the points
    handed to the smoothing routine are the usable points ordered by
    abscissa. *)
Lemma smooth_try_routine_input (sp : routines) (algorithm : smooth_algorithm)
    (num_points : nat) (smoothness : Q) (x y : list Q) :
  (4 <= length (unique_from x 0 []))%nat ->
  length x = length y ->
  exists ks,
    Permutation ks (unique_from x 0 []) /\
    StronglySorted Qlt (map (fun k => nth k x 0) ks) /\
    smooth_try sp algorithm num_points smoothness x y
    = (y_smooth <- apply_algorithm sp algorithm smoothness
                     (map (fun k => nth k x 0) ks)
                     (map (fun k => nth k y 0) ks)
                     (linspace (nth 0 (map (fun k => nth k x 0) ks) 0)
                        (nth (length ks - 1) (map (fun k => nth k x 0) ks) 0)
                        num_points) ;;
       Some (linspace (nth 0 (map (fun k => nth k x 0) ks) 0)
               (nth (length ks - 1) (map (fun k => nth k x 0) ks) 0)
               num_points, y_smooth)).
Proof.
  intros Husable Hlen. unfold smooth_try.
  pose proof (unique_from_length x 0 []) as Hul.
  assert ((length x <? 4)%nat = false) as -> by (apply Nat.ltb_ge; lia).
  assert ((length (unique_from x 0 []) <? 4)%nat = false) as ->
      by (apply Nat.ltb_ge; lia).
  pose proof (unique_from_NoDup x 0 []) as Hnd.
  pose proof (fun k => proj1 (unique_from_first x 0 [] k)) as Hfirst.
  set (ui := unique_from x 0 []) in *.
  assert (forall k, In k ui -> (k < length x)%nat) as Hrange.
  { intros k Hk. apply Hfirst in Hk. lia. }
  assert (forall a b, In a ui -> In b ui -> a <> b ->
                      ~ nth a x 0 == nth b x 0) as Hdist.
  { intros a b Ha Hb Hab.
    destruct (Hfirst a Ha) as [_ [_ Fa]]. destruct (Hfirst b Hb) as [_ [_ Fb]].
    destruct (Nat.lt_trichotomy a b) as [Hlt|[Heq|Hgt]]; [|contradiction|].
    - specialize (Fb a ltac:(lia)). rewrite !Nat.sub_0_r in Fb. exact Fb.
    - specialize (Fa b ltac:(lia)). rewrite !Nat.sub_0_r in Fa.
      intros H. apply Fa. symmetry. exact H. }
  assert (Forall (fun i => (i < length x)%nat) ui) as Hui
      by (apply Forall_forall; exact Hrange).
  rewrite (take_indices_nth x ui Hui). cbn [bind].
  rewrite Hlen in Hui. rewrite (take_indices_nth y ui Hui). cbn [bind].
  set (xu := map (fun i => nth i x 0) ui).
  set (yu := map (fun i => nth i y 0) ui).
  assert (length xu = length ui) as Hxu by (subst xu; apply length_map).
  assert (length yu = length ui) as Hyu by (subst yu; apply length_map).
  pose proof (sorted_by_perm (fun i => nth i xu 0) (seq 0 (length xu))) as Hperm.
  pose proof (sorted_by_sorted (fun i => nth i xu 0) (seq 0 (length xu)))
    as Hsorted.
  fold (argsort xu) in Hperm, Hsorted.
  set (si := argsort xu) in *.
  assert (forall i, In i si -> (i < length ui)%nat) as Hsi.
  { intros i Hi. apply (Permutation_in _ Hperm) in Hi. apply in_seq in Hi. lia. }
  assert (Forall (fun i => (i < length xu)%nat) si) as Hsi'.
  { apply Forall_forall. intros i Hi. rewrite Hxu. apply Hsi. exact Hi. }
  rewrite (take_indices_nth xu si Hsi'). cbn [bind].
  rewrite Hxu, <- Hyu in Hsi'.
  rewrite (take_indices_nth yu si Hsi'). cbn [bind].
  set (ks := map (fun i => nth i ui 0%nat) si).
  assert (map (fun i => nth i xu 0) si = map (fun k => nth k x 0) ks) as Exs.
  { subst ks. rewrite map_map. apply map_ext_in. intros i Hi.
    subst xu. apply nth_map_in. apply Hsi. exact Hi. }
  assert (map (fun i => nth i yu 0) si = map (fun k => nth k y 0) ks) as Eys.
  { subst ks. rewrite map_map. apply map_ext_in. intros i Hi.
    subst yu. apply nth_map_in. apply Hsi. exact Hi. }
  assert (NoDup si) as Hndsi.
  { eapply Permutation_NoDup; [apply Permutation_sym, Hperm | apply seq_NoDup]. }
  assert (StronglySorted Qlt (map (fun i => nth i xu 0) si)) as Hstrict.
  { apply sorted_strict; [exact Hsorted | exact Hndsi|].
    intros a b Ha Hb Hab. apply Hsi in Ha, Hb.
    subst xu. rewrite !nth_map_in by assumption.
    apply Hdist; [apply nth_In; exact Ha | apply nth_In; exact Hb|].
    intros Heq. apply Hab.
    apply (proj1 (NoDup_nth ui 0%nat) Hnd); assumption. }
  assert (Permutation ks ui) as Hpk.
  { subst ks.
    apply Permutation_trans
      with (map (fun i => nth i ui 0%nat) (seq 0 (length ui))).
    - apply Permutation_map. rewrite <- Hxu. exact Hperm.
    - rewrite map_nth_all. apply Permutation_refl. }
  assert (length ks = length ui) as Hlk by (apply Permutation_length, Hpk).
  rewrite Exs, Eys in *.
  assert (length (map (fun k => nth k x 0) ks) = length ks) as Hlx
      by apply length_map.
  rewrite (nth_error_nth' _ 0) by lia. cbn [bind].
  rewrite (nth_error_nth' _ 0) by lia. cbn [bind].
  rewrite Hlx.
  exists ks. split; [exact Hpk|]. split; [exact Hstrict | reflexivity].
Qed.

(** The smoothing routines get what they require.  With at least four
    usable points and aligned series, the routine is called on the
    usable points (the first occurrence of every abscissa) in strictly
    increasing order of abscissa, each with its own ordinate, and
    [interpolate_smooth] returns the input itself when the routine
    raises. *)
Theorem smoothing_routine_input (sp : routines) (algorithm : smooth_algorithm)
    (num_points : nat) (smoothness : Q) (x y : list Q) :
  (4 <= length (unique_from x 0 []))%nat ->
  length x = length y ->
  exists ks,
    Permutation ks (unique_from x 0 []) /\
    StronglySorted Qlt (map (fun k => nth k x 0) ks) /\
    let x_sorted := map (fun k => nth k x 0) ks in
    let y_sorted := map (fun k => nth k y 0) ks in
    let x_smooth :=
      linspace (nth 0 x_sorted 0) (nth (length ks - 1) x_sorted 0) num_points in
    interpolate_smooth sp algorithm num_points smoothness x y
    = match apply_algorithm sp algorithm smoothness x_sorted y_sorted x_smooth
      with
      | Some y_smooth => (x_smooth, y_smooth)
      | None => (x, y)
      end.
Proof.
  intros Husable Hlen.
  destruct (smooth_try_routine_input sp algorithm num_points smoothness x y
              Husable Hlen) as [ks [Hp [Hs Ht]]].
  exists ks. split; [exact Hp|]. split; [exact Hs|].
  cbv zeta. unfold interpolate_smooth. rewrite Ht.
  destruct (apply_algorithm sp algorithm smoothness _ _ _); reflexivity.
Qed.

Lemma smoothing_routine_input_witness :
  exists ks,
    Permutation ks (unique_from [3; 1; 3; 2; 0] 0 []) /\
    StronglySorted Qlt (map (fun k => nth k [3; 1; 3; 2; 0] 0) ks) /\
    let x_sorted := map (fun k => nth k [3; 1; 3; 2; 0] 0) ks in
    let y_sorted := map (fun k => nth k [30; 10; 35; 20; 5] 0) ks in
    let x_smooth :=
      linspace (nth 0 x_sorted 0) (nth (length ks - 1) x_sorted 0) 100 in
    interpolate_smooth zero_routines PCHIP 100 1 [3; 1; 3; 2; 0]
      [30; 10; 35; 20; 5]
    = match apply_algorithm zero_routines PCHIP 1 x_sorted y_sorted x_smooth
      with
      | Some y_smooth => (x_smooth, y_smooth)
      | None => ([3; 1; 3; 2; 0], [30; 10; 35; 20; 5])
      end.
Proof.
  apply (smoothing_routine_input zero_routines PCHIP 100 1 [3; 1; 3; 2; 0]
           [30; 10; 35; 20; 5]).
  - vm_compute. lia.
  - reflexivity.
Defined.

(** ** The points the smoother returns *)





